(** * EnhancedMap: a shallow embedding of [src/index.ts]

    The class [EnhancedMap] extends the JavaScript [Map] with path-addressed
    access, clone-on-read, arithmetic and array helpers, and mirrors every
    entry into an sqlite table.  The methods mutate JavaScript objects that
    are shared between the caller, the map and the configured default, so
    the embedding keeps an explicit object heap: object and array values are
    references into it, and every method is a state transformer on a
    [World] (heap, map instance, event trace) that either returns or
    throws.  The entries of the map are kept as a finite map: the order of
    insertion, which only iteration shows, is not modelled. *)

From Stdlib Require Import ZArith List String Ascii Bool Lia Floats.
From stdpp Require Import base option list gmap strings.

Set Warnings "-register-all".
Local Open Scope string_scope.
Local Open Scope list_scope.

(** ** JavaScript values *)

Module JS.

(** Primitive values are immediate; objects and arrays live in the heap and
    are denoted by their address.  Functions, dates, maps, sets and regular
    expressions are not modelled. *)
Inductive val :=
| VUndef
| VNull
| VBool (b : bool)
| VNum (n : float)
| VStr (s : string)
| VRef (l : nat).

(** A plain object keeps its own properties in insertion order; an array
    keeps its elements. *)
Inductive obj :=
| OObject (props : list (string * val))
| OArray (elems : list val).

(** A heap-independent picture of a value: what a structural comparison
    (ava's [t.deepEqual]) or the serializer sees. *)
Inductive tree :=
| TUndef
| TNull
| TBool (b : bool)
| TNum (n : float)
| TStr (s : string)
| TObject (props : list (string * tree))
| TArray (elems : list tree).

(** [value == null] *)
Definition isNil (v : val) : bool :=
  match v with VUndef | VNull => true | _ => false end.

(** lodash [isObject] restricted to the modelled values. *)
Definition isObject (v : val) : bool :=
  match v with VRef _ => true | _ => false end.

(** ToBoolean *)
Definition truthy (v : val) : bool :=
  match v with
  | VUndef | VNull => false
  | VBool b => b
  | VNum n => negb (PrimFloat.eqb n 0%float || PrimFloat.is_nan n)
  | VStr s => negb (String.eqb s "")
  | VRef _ => true
  end.

(** The strict equality [===]: by value on primitives (IEEE comparison on
    numbers, so [NaN] differs from itself), by identity on objects. *)
Definition strict_eq (a b : val) : bool :=
  match a, b with
  | VUndef, VUndef | VNull, VNull => true
  | VBool x, VBool y => Bool.eqb x y
  | VNum x, VNum y => PrimFloat.eqb x y
  | VStr x, VStr y => String.eqb x y
  | VRef x, VRef y => Nat.eqb x y
  | _, _ => false
  end.

(** [Array.prototype.indexOf(x) > -1] *)
Definition indexOf_found (es : list val) (x : val) : bool :=
  existsb (fun e => strict_eq e x) es.

(** [v?.constructor.name] *)
Definition constructor_name (h : list obj) (v : val) : option string :=
  match v with
  | VUndef | VNull => None
  | VBool _ => Some "Boolean"
  | VNum _ => Some "Number"
  | VStr _ => Some "String"
  | VRef l =>
      match h !! l with
      | Some (OObject _) => Some "Object"
      | Some (OArray _) => Some "Array"
      | None => None
      end
  end.

(** *** Reading a value out of the heap *)

(** [reify fuel h v] follows at most [fuel] nested references.  It fails on
    a dangling address and on a cyclic value. *)
Fixpoint reify (fuel : nat) (h : list obj) (v : val) : option tree :=
  match v with
  | VUndef => Some TUndef
  | VNull => Some TNull
  | VBool b => Some (TBool b)
  | VNum n => Some (TNum n)
  | VStr s => Some (TStr s)
  | VRef l =>
      match fuel with
      | O => None
      | S fuel' =>
          match h !! l with
          | None => None
          | Some (OArray es) => TArray <$> mapM (reify fuel' h) es
          | Some (OObject ps) =>
              TObject <$> mapM (fun p => pair p.1 <$> reify fuel' h p.2) ps
          end
      end
  end.

(** Every acyclic value of a heap is reached with this much fuel. *)
Definition snapshot (h : list obj) (v : val) : option tree :=
  reify (S (length h)) h v.

(** *** Allocating a value *)

Definition thread {A B} (f : A -> list obj -> B * list obj)
  : list A -> list obj -> list B * list obj :=
  fix go xs h :=
    match xs with
    | [] => ([], h)
    | x :: r =>
        let '(y, h1) := f x h in
        let '(ys, h2) := go r h1 in
        (y :: ys, h2)
    end.

(** [build t h] allocates fresh objects for every container of [t], children
    first, and returns the value denoting [t]. *)
Fixpoint build (t : tree) (h : list obj) : val * list obj :=
  match t with
  | TUndef => (VUndef, h)
  | TNull => (VNull, h)
  | TBool b => (VBool b, h)
  | TNum n => (VNum n, h)
  | TStr s => (VStr s, h)
  | TArray ts =>
      let '(vs, h') := thread build ts h in
      (VRef (length h'), h' ++ [OArray vs])
  | TObject ps =>
      let '(vs, h') :=
        thread (fun p h0 => let '(v, h1) := build p.2 h0 in ((p.1, v), h1)) ps h in
      (VRef (length h'), h' ++ [OObject vs])
  end.

(** Number of containers of a tree: the number of objects [build]
    allocates. *)
Fixpoint nodes (t : tree) : nat :=
  match t with
  | TArray ts => S (list_sum (map nodes ts))
  | TObject ps => S (list_sum (map (fun p => nodes p.2) ps))
  | _ => 0
  end.

(** *** lodash [cloneDeep] and [clone] *)

(** [cloneDeep] copies the whole structure into fresh objects.  The copy is
    made from the value's picture, so it is defined on acyclic values only
    (lodash also copies cycles; the serializer rejects them), and an
    object the value reaches in two ways is copied once for each way
    (lodash keeps it shared in the copy): the copy is lodash's on the
    values [Spec.unshared] describes, and has the same picture on
    all. *)
Definition cloneDeep (h : list obj) (v : val) : option (val * list obj) :=
  match snapshot h v with
  | Some t => Some (build t h)
  | None => None
  end.

(** [clone] copies the top-level container and shares what it holds. *)
Definition clone (h : list obj) (v : val) : val * list obj :=
  match v with
  | VRef l =>
      match h !! l with
      | Some o => (VRef (length h), h ++ [o])
      | None => (v, h)
      end
  | _ => (v, h)
  end.

(** *** Arrays *)

(** SameValueZero, the comparison of [Array.prototype.includes]: the
    strict equality, except that [NaN] is the same as [NaN]. *)
Definition same_value_zero (a b : val) : bool :=
  match a, b with
  | VNum x, VNum y =>
      PrimFloat.eqb x y || PrimFloat.is_nan x && PrimFloat.is_nan y
  | _, _ => strict_eq a b
  end.

(** [array.includes(x)] *)
Definition array_includes (es : list val) (x : val) : bool :=
  existsb (fun e => same_value_zero e x) es.

(** [array.findIndex(value => x === value)]: the index of the first
    element strictly equal to [x]; [None] stands for [-1]. *)
Fixpoint findIndex (es : list val) (x : val) : option nat :=
  match es with
  | [] => None
  | e :: r => if strict_eq x e then Some 0%nat else S <$> findIndex r x
  end.

(** [Array.isArray(v)] *)
Definition Array_isArray (h : list obj) (v : val) : bool :=
  match v with
  | VRef l => match h !! l with Some (OArray _) => true | _ => false end
  | _ => false
  end.

End JS.

(** ** The lodash functions the class imports *)

Module Lodash.
Import JS.

(** Own properties of a plain object, in insertion order. *)
Fixpoint assoc_get (k : string) (ps : list (string * val)) : option val :=
  match ps with
  | [] => None
  | (k', v) :: r => if String.eqb k' k then Some v else assoc_get k r
  end.

Fixpoint assoc_set (k : string) (v : val) (ps : list (string * val))
  : list (string * val) :=
  match ps with
  | [] => [(k, v)]
  | (k', v') :: r =>
      if String.eqb k' k then (k', v) :: r else (k', v') :: assoc_set k v r
  end.

Definition assoc_remove (k : string) (ps : list (string * val))
  : list (string * val) :=
  List.filter (fun p => negb (String.eqb p.1 k)) ps.

(** lodash [isIndex]: a canonical decimal numeral. *)
Definition digit (c : ascii) : option nat :=
  let n := nat_of_ascii c in
  if (48 <=? n)%nat && (n <=? 57)%nat then Some (n - 48)%nat else None.

Fixpoint parse_digits (s : string) (acc : nat) : option nat :=
  match s with
  | EmptyString => Some acc
  | String c r =>
      match digit c with
      | Some d => parse_digits r (10 * acc + d)%nat
      | None => None
      end
  end.

Definition parse_index (s : string) : option nat :=
  match s with
  | EmptyString => None
  | String c r =>
      if Ascii.eqb c "0" then (if String.eqb r "" then Some 0%nat else None)
      else parse_digits s 0
  end.

Definition isIndex (s : string) : bool :=
  match parse_index s with Some _ => true | None => false end.

(** [object[key]] on the modelled values; properties of the prototypes and
    of primitive strings are left out. *)
Definition get_prop (h : list obj) (object : val) (key : string) : val :=
  match object with
  | VRef l =>
      match h !! l with
      | Some (OObject ps) => default VUndef (assoc_get key ps)
      | Some (OArray es) =>
          if String.eqb key "length"
          then VNum (PrimFloat.of_uint63 (Uint63.of_Z (Z.of_nat (length es))))
          else match parse_index key with
               | Some i => default VUndef (es !! i)
               | None => VUndef
               end
      | None => VUndef
      end
  | _ => VUndef
  end.

(** [key in Object(object)], own properties only. *)
Definition has_prop (h : list obj) (object : val) (key : string) : bool :=
  match object with
  | VRef l =>
      match h !! l with
      | Some (OObject ps) =>
          match assoc_get key ps with Some _ => true | None => false end
      | Some (OArray es) =>
          String.eqb key "length" ||
          match parse_index key with
          | Some i => (i <? length es)%nat
          | None => false
          end
      | None => false
      end
  | _ => false
  end.

(** [stringToPath]: the segments between the dots (the bracket syntax is
    not modelled). *)
Fixpoint split_dots (s : string) (cur : string) : list string :=
  match s with
  | EmptyString => [cur]
  | String c r =>
      if Ascii.eqb c "."
      then cur :: split_dots r ""
      else split_dots r (cur ++ String c "")
  end.

Definition toPath (path : string) : list string :=
  match path with
  | EmptyString => []
  | _ => split_dots path ""
  end.

Fixpoint has_dot (s : string) : bool :=
  match s with
  | EmptyString => false
  | String c r => Ascii.eqb c "." || has_dot r
  end.

(** Whether a path uses the bracket syntax, which [toPath] here does not
    parse. *)
Fixpoint has_bracket (s : string) : bool :=
  match s with
  | EmptyString => false
  | String c r => Ascii.eqb c "[" || Ascii.eqb c "]" || has_bracket r
  end.

(** [castPath]: a path without dots, or one that names a property of the
    object as it stands, is a single key. *)
Definition castPath (h : list obj) (path : string) (object : val)
  : list string :=
  if negb (has_dot path) || has_prop h object path then [path]
  else toPath path.

(** [baseGet]'s loop: it stops at the first nil value. *)
Fixpoint baseGet_loop (h : list obj) (object : val) (segs : list string)
  : val :=
  match segs with
  | [] => object
  | k :: r =>
      if isNil object then VUndef else baseGet_loop h (get_prop h object k) r
  end.

Definition baseGet (h : list obj) (object : val) (segs : list string) : val :=
  match segs with
  | [] => VUndef
  | _ => baseGet_loop h object segs
  end.

(** [_get(object, path)] with a string path. *)
Definition _get (h : list obj) (object : val) (path : string) : val :=
  if isNil object then VUndef else baseGet h object (castPath h path object).

(** [array[i] = v]: an index past the end grows the array. *)
Definition array_store (es : list val) (i : nat) (v : val) : list val :=
  if (i <? length es)%nat then <[i := v]> es
  else es ++ replicate (i - length es) VUndef ++ [v].

(** [assignValue(object, key, value)].  A non-index key on an array would
    add a named property, which neither [cloneDeep] nor the serializer
    keeps; it is dropped here. *)
Definition assignValue (h : list obj) (object : val) (key : string)
  (value : val) : list obj :=
  match object with
  | VRef l =>
      match h !! l with
      | Some (OObject ps) => <[l := OObject (assoc_set key value ps)]> h
      | Some (OArray es) =>
          match parse_index key with
          | Some i => <[l := OArray (array_store es i value)]> h
          | None => h
          end
      | None => h
      end
  | _ => h
  end.

Definition unsafe_key (k : string) : bool :=
  String.eqb k "__proto__" || String.eqb k "constructor"
  || String.eqb k "prototype".

(** [baseSet]'s loop: missing intermediate containers are created, an array
    when the next segment is an index and a plain object otherwise. *)
Fixpoint baseSet_loop (segs : list string) (nested : val) (value : val)
  (h : list obj) : list obj :=
  match segs with
  | [] => h
  | k :: rest =>
      if isNil nested then h
      else if unsafe_key k then h
      else
        match rest with
        | [] => assignValue h nested k value
        | k2 :: _ =>
            let objValue := get_prop h nested k in
            let '(newValue, h1) :=
              if isObject objValue then (objValue, h)
              else if isIndex k2 then (VRef (length h), h ++ [OArray []])
              else (VRef (length h), h ++ [OObject []]) in
            let h2 := assignValue h1 nested k newValue in
            baseSet_loop rest (get_prop h2 nested k) value h2
        end
  end.

(** [_set(object, path, value)]: mutates [object] in place; a primitive is
    left alone. *)
Definition _set (h : list obj) (object : val) (path : string) (value : val)
  : list obj :=
  if isObject object
  then baseSet_loop (castPath h path object) object value h
  else h.

(** [_has(object, path)]: every segment names an own property. *)
Fixpoint hasPath_loop (h : list obj) (object : val) (segs : list string)
  : bool :=
  match segs with
  | [] => true
  | k :: r =>
      negb (isNil object) && has_prop h object k
      && hasPath_loop h (get_prop h object k) r
  end.

Definition _has (h : list obj) (object : val) (path : string) : bool :=
  match castPath h path object with
  | [] => false
  | segs => hasPath_loop h object segs
  end.

End Lodash.

(** ** The sqlite database behind a persistent map *)

Module Sqlite.
Import JS.

(** The text [serialize-javascript] produces and [eval] reads back.  The
    codec is a library of its own; the text is kept as the picture it
    encodes. *)
Inductive text := Encoded (t : tree).

Definition serialize (t : tree) : text := Encoded t.
Definition eval (x : text) : tree := match x with Encoded t => t end.

(** What a cell of the [lastnum] column can hold. *)
Inductive sqlval :=
| SqlNull
| SqlReal (n : float)
| SqlText (s : string).

(** The connection, the table named after the map ([None] while it does not
    exist) and the shared table ['internal::autonum'].  The table
    ['internal::changes::<name>'] is created and dropped but never read or
    written, and is left out. *)
Record Database := {
  is_open : bool;
  rows : option (gmap string text);
  autonum_rows : option (gmap string sqlval);
}.

(** [new Database(':memory:')] *)
Definition fresh : Database :=
  {| is_open := true; rows := None; autonum_rows := None |}.

(** The statements that change the database. *)
Inductive statement :=
| CreateTable
| CreateAutonumTable
| InsertOrReplace (key : string) (value : text)
| DeleteWhereKey (key : string)
| DeleteAllRows
| DropTableIfExists
| DeleteAutonum (enmap : string)
| InsertAutonum (enmap : string) (lastnum : sqlval).

(** A statement throws on a closed connection and on a missing table. *)
Definition select_row (d : Database) (key : string) : option (option text) :=
  if is_open d then
    match rows d with
    | Some t => Some (t !! key)
    | None => None
    end
  else None.

Definition select_lastnum (d : Database) (enmap : string)
  : option (option sqlval) :=
  if is_open d then
    match autonum_rows d with
    | Some t => Some (t !! enmap)
    | None => None
    end
  else None.

(** The row of [SELECT count ... FROM sqlite_master WHERE ... name = ?]:
    its single column, named after the aggregate, holds 1 when the table
    exists and 0 otherwise. *)
Definition table_count (d : Database) : option nat :=
  if is_open d
  then Some (match rows d with Some _ => 1%nat | None => 0%nat end)
  else None.

Definition run (d : Database) (st : statement) : option Database :=
  if is_open d then
    match st with
    | CreateTable =>
        match rows d with
        | None => Some {| is_open := true; rows := Some ∅;
                          autonum_rows := autonum_rows d |}
        | Some _ => None
        end
    | CreateAutonumTable =>
        Some {| is_open := true; rows := rows d;
                autonum_rows := Some (default ∅ (autonum_rows d)) |}
    | InsertOrReplace key value =>
        match rows d with
        | Some t => Some {| is_open := true; rows := Some (<[key := value]> t);
                            autonum_rows := autonum_rows d |}
        | None => None
        end
    | DeleteWhereKey key =>
        match rows d with
        | Some t => Some {| is_open := true; rows := Some (delete key t);
                            autonum_rows := autonum_rows d |}
        | None => None
        end
    | DeleteAllRows =>
        match rows d with
        | Some t => Some {| is_open := true; rows := Some ∅;
                            autonum_rows := autonum_rows d |}
        | None => None
        end
    | DropTableIfExists =>
        Some {| is_open := true; rows := None;
                autonum_rows := autonum_rows d |}
    | DeleteAutonum enmap =>
        match autonum_rows d with
        | Some t => Some {| is_open := true; rows := rows d;
                            autonum_rows := Some (delete enmap t) |}
        | None => None
        end
    | InsertAutonum enmap lastnum =>
        match autonum_rows d with
        | Some t => Some {| is_open := true; rows := rows d;
                            autonum_rows := Some (<[enmap := lastnum]> t) |}
        | None => None
        end
    end
  else None.

Definition close (d : Database) : Database :=
  {| is_open := false; rows := rows d; autonum_rows := autonum_rows d |}.

(** [SELECT key FROM <table>]: the keys of the rows, in the order of the
    table, which the model does not keep. *)
Definition select_keys (d : Database) : option (list string) :=
  if is_open d then
    match rows d with
    | Some t => Some (map fst (map_to_list t))
    | None => None
    end
  else None.

End Sqlite.

(** ** The class [EnhancedMap] *)

Module Enmap.
Import JS Lodash Sqlite.

Inductive error :=
| EnhancedMapKeyTypeError
| EnhancedMapPathError
| EnhancedMapTypeError
| EnhancedMapDestroyedError
| EnhancedMapOptionsError
| ReferenceError (identifier : string)
| TypeError
| SqliteError
| Unmodelled.

(** The fields of an instance.  [entries] is the state of the [Map] the
    class extends.  The hooks act on the picture of the value they are
    given; [changedCB] tells whether a callback is registered. *)
Record EnhancedMap := {
  entries : gmap string val;
  serializer : tree -> string -> tree;
  deserializer : tree -> string -> tree;
  name : string;
  changedCB : bool;
  default : val;
  db : option Database;
  persistent : bool;
  isDestroyed : bool;
  autoFetch : bool;
  cloneLevel : string;
}.

(** What an observer of a run can see happen, in order: a call of the
    change callback with the pictures of its arguments, a statement that
    changed the database, and the writes to the in-memory map. *)
Inductive event :=
| Changed (key : string) (oldValue newValue : option tree)
| Ran (st : statement)
| MapSet (key : string)
| MapDelete (key : string)
| MapClear.

Record World := {
  heap : list obj;
  this : EnhancedMap;
  trace : list event;
}.

Definition set_heap (h : list obj) (w : World) : World :=
  {| heap := h; this := this w; trace := trace w |}.

Definition set_this (m : EnhancedMap) (w : World) : World :=
  {| heap := heap w; this := m; trace := trace w |}.

Definition log (e : event) (w : World) : World :=
  {| heap := heap w; this := this w; trace := trace w ++ [e] |}.

Definition set_entries (es : gmap string val) (m : EnhancedMap)
  : EnhancedMap :=
  {| entries := es; serializer := serializer m;
     deserializer := deserializer m; name := name m;
     changedCB := changedCB m; default := default m; db := db m;
     persistent := persistent m; isDestroyed := isDestroyed m;
     autoFetch := autoFetch m; cloneLevel := cloneLevel m |}.

Definition set_db (d : option Database) (m : EnhancedMap) : EnhancedMap :=
  {| entries := entries m; serializer := serializer m;
     deserializer := deserializer m; name := name m;
     changedCB := changedCB m; default := default m; db := d;
     persistent := persistent m; isDestroyed := isDestroyed m;
     autoFetch := autoFetch m; cloneLevel := cloneLevel m |}.

Definition set_isDestroyed (b : bool) (m : EnhancedMap) : EnhancedMap :=
  {| entries := entries m; serializer := serializer m;
     deserializer := deserializer m; name := name m;
     changedCB := changedCB m; default := default m; db := db m;
     persistent := persistent m; isDestroyed := b;
     autoFetch := autoFetch m; cloneLevel := cloneLevel m |}.

Definition set_changedCB (b : bool) (m : EnhancedMap) : EnhancedMap :=
  {| entries := entries m; serializer := serializer m;
     deserializer := deserializer m; name := name m;
     changedCB := b; default := default m; db := db m;
     persistent := persistent m; isDestroyed := isDestroyed m;
     autoFetch := autoFetch m; cloneLevel := cloneLevel m |}.

(** *** Methods run in a world and return or throw *)

Inductive outcome (A : Type) :=
| Return (a : A) (w : World)
| Throw (e : error) (w : World).
Arguments Return {A} a w.
Arguments Throw {A} e w.

Definition M (A : Type) : Type := World -> outcome A.

Definition ret {A} (a : A) : M A := fun w => Return a w.

Definition throw {A} (e : error) : M A := fun w => Throw e w.

Definition bind {A B} (m : M A) (k : A -> M B) : M B :=
  fun w =>
    match m w with
    | Return a w' => k a w'
    | Throw e w' => Throw e w'
    end.

Declare Scope js_scope.
Delimit Scope js_scope with js.
Notation "x <- m ;; k" := (bind m (fun x => k))
  (at level 100, m at next level, right associativity) : js_scope.
Notation "m ;; k" := (bind m (fun _ => k))
  (at level 100, right associativity) : js_scope.
Local Open Scope js_scope.

Definition self : M EnhancedMap := fun w => Return (this w) w.

Definition the_heap : M (list obj) := fun w => Return (heap w) w.

Definition emit (e : event) : M unit := fun w => Return tt (log e w).

Definition when (b : bool) (m : M unit) : M unit :=
  if b then m else ret tt.

(** The final world of a run, returned or thrown. *)
Definition final {A} (o : outcome A) : World :=
  match o with Return _ w => w | Throw _ w => w end.

(** *** The inherited [Map] methods *)

Definition super_has (key : string) : M bool :=
  fun w =>
    Return (match entries (this w) !! key with Some _ => true | None => false end) w.

Definition super_get (key : string) : M val :=
  fun w =>
    Return (match entries (this w) !! key with Some v => v | None => VUndef end) w.

Definition super_set (key : string) (value : val) : M unit :=
  fun w =>
    Return tt
      (log (MapSet key)
         (set_this (set_entries (<[key := value]> (entries (this w))) (this w)) w)).

Definition super_delete (key : string) : M unit :=
  fun w =>
    Return tt
      (log (MapDelete key)
         (set_this (set_entries (delete key (entries (this w))) (this w)) w)).

Definition super_clear : M unit :=
  fun w => Return tt (log MapClear (set_this (set_entries ∅ (this w)) w)).

(** *** The database through [this.db] *)

(** [this.db?.prepare(st).run(...)]: skipped without a database. *)
Definition db_run (st : statement) : M unit :=
  fun w =>
    match db (this w) with
    | None => Return tt w
    | Some d =>
        match run d st with
        | Some d' => Return tt (log (Ran st) (set_this (set_db (Some d') (this w)) w))
        | None => Throw SqliteError w
        end
    end.

(** [this.db.prepare(st).run(...)]: a [TypeError] without a database. *)
Definition db_run_strict (st : statement) : M unit :=
  fun w =>
    match db (this w) with
    | None => Throw TypeError w
    | Some _ => db_run st w
    end.

(** [this.db?.prepare(SELECT ... WHERE key = ?).get(key)] *)
Definition db_get (key : string) : M (option text) :=
  fun w =>
    match db (this w) with
    | None => Return None w
    | Some d =>
        match select_row d key with
        | Some r => Return r w
        | None => Throw SqliteError w
        end
    end.

(** *** Private helpers *)

Definition _readyCheck : M unit :=
  m <- self ;;
  if isDestroyed m then throw EnhancedMapDestroyedError else ret tt.

(** [this.deserializer(eval(`(${data})`), key)]: a value made of fresh
    objects. *)
Definition _parseData (data : text) (key : string) : M val :=
  fun w =>
    let '(v, h') := build (deserializer (this w) (eval data) key) (heap w) in
    Return v (set_heap h' w).

(** [fetch(key)] with a single key. *)
Definition fetch (key : string) : M val :=
  _readyCheck ;;
  data <- db_get key ;;
  match data with
  | None => ret VNull
  | Some value =>
      v <- _parseData value key ;;
      super_set key v ;;
      _parseData value key
  end.

(** [_fetchCheck(key)]; every call in the class leaves [force] at its
    default [false], and a string key passes the constructor test. *)
Definition _fetchCheck (key : string) : M unit :=
  present <- super_has key ;;
  if present then ret tt
  else
    m <- self ;;
    if negb (persistent m) || negb (autoFetch m) then ret tt
    else (fetch key ;; ret tt).

(** [serialize(this.serializer(value, key))].  The serializer throws on a
    cyclic value; the retry in the [catch] block serializes the same
    object again ([onChange.target] of a plain object is the object) and
    throws again. *)
Definition encode (value : val) (key : string) : M text :=
  fun w =>
    match snapshot (heap w) value with
    | Some t => Return (serialize (serializer (this w) t key)) w
    | None => Throw TypeError w
    end.

Definition _internalSet (key : string) (value : val) (updateCache : bool)
  : M unit :=
  m <- self ;;
  when (persistent m)
    (serialized <- encode value key ;;
     db_run (InsertOrReplace key serialized)) ;;
  when updateCache (super_set key value).

(** [_clone(data)].  [cloneDeep] of a cyclic value is outside the model. *)
Definition _clone (data : val) : M val :=
  fun w =>
    let level := cloneLevel (this w) in
    if String.eqb level "none" then Return data w
    else if String.eqb level "shallow" then
      let '(v, h') := clone (heap w) data in Return v (set_heap h' w)
    else if String.eqb level "deep" then
      match cloneDeep (heap w) data with
      | Some (v, h') => Return v (set_heap h' w)
      | None => Throw Unmodelled w
      end
    else Throw EnhancedMapOptionsError w.

(** *** Reading: [has], [get] and [_check]

    [get] calls [has(key)] and [_check(key, types)]; [_check] calls
    [has(key)], [get(key)] and [_check(key, 'Object')]; [has] calls
    [_check(key, 'Object')] and [get(key)].  Each of these inner calls omits
    the path, and a call without path reaches no call with one, so the
    methods are given as bodies over the inner call and closed in two
    rounds: first without path, then in general. *)

(** The body of [has]: [check_object] stands for the call
    [_check(key, 'Object')] and [get_key] for [get(key)]. *)
Definition has_body (check_object : M unit) (get_key : M val) (key : string)
  (path : option string) : M bool :=
  _readyCheck ;;
  _fetchCheck key ;;
  match path with
  | Some p =>
      check_object ;;
      data <- get_key ;;
      h <- the_heap ;;
      ret (_has h data p)
  | None => super_has key
  end.

(** [has(key)] *)
Definition has_key (key : string) : M bool :=
  has_body (ret tt) (ret VUndef) key None.

(** The body of [get]: [check_container] stands for the call
    [_check(key, ['Object', 'Array'])].  A string key is never nil, so the
    early [return null] is not taken.  With a path the result is read out
    of the retained value itself; without one it is cloned. *)
Definition get_body (check_container : M unit) (key : string)
  (path : option string) : M val :=
  _readyCheck ;;
  _fetchCheck key ;;
  m <- self ;;
  when (truthy (default m))
    (present <- has_key key ;;
     when (negb present) (_internalSet key (default m) true)) ;;
  data <- super_get key ;;
  match path with
  | Some p =>
      check_container ;;
      h <- the_heap ;;
      ret (_get h data p)
  | None => _clone data
  end.

(** [get(key)] *)
Definition get_key (key : string) : M val :=
  get_body (ret tt) key None.

(** [types.includes(v?.constructor.name)] *)
Definition includes (types : list string) (h : list obj) (v : val) : bool :=
  match constructor_name h v with
  | Some n => existsb (String.eqb n) types
  | None => false
  end.

(** [_check(key, type, path)]; [types] is the list [type] is normalised to
    (every call passes a non-empty literal, so the [!type] exit is never
    taken).  The reads that only build the message of an error are left
    out. *)
Definition _check_body (check_object : M unit) (key : string)
  (types : list string) (path : option string) : M unit :=
  present <- has_key key ;;
  if negb present then throw EnhancedMapPathError
  else
    match path with
    | Some p =>
        check_object ;;
        data <- get_key key ;;
        h <- the_heap ;;
        if isNil (_get h data p) then throw EnhancedMapPathError
        else if negb (includes types h (_get h data p))
        then throw EnhancedMapKeyTypeError
        else ret tt
    | None =>
        v <- get_key key ;;
        h <- the_heap ;;
        if negb (includes types h v) then throw EnhancedMapKeyTypeError
        else ret tt
    end.

(** [_check(key, types)] *)
Definition _check_key (key : string) (types : list string) : M unit :=
  _check_body (ret tt) key types None.

Definition _check (key : string) (types : list string)
  (path : option string) : M unit :=
  _check_body (_check_key key ["Object"]) key types path.

Definition get (key : string) (path : option string) : M val :=
  get_body (_check_key key ["Object"; "Array"]) key path.

Definition has (key : string) (path : option string) : M bool :=
  has_body (_check_key key ["Object"]) (get_key key) key path.

(** *** Writing *)

(** [this.changedCB(key, oldValue, newValue)] *)
Definition call_changedCB (key : string) (oldValue newValue : val) : M unit :=
  fun w =>
    Return tt
      (log (Changed key (snapshot (heap w) oldValue)
              (snapshot (heap w) newValue)) w).

(** An object literal [{}]. *)
Definition new_object : M val :=
  fun w => Return (VRef (length (heap w))) (set_heap (heap w ++ [OObject []]) w).

Definition lodash_set (object : val) (path : string) (value : val) : M unit :=
  fun w => Return tt (set_heap (_set (heap w) object path value) w).

(** [set(key, value, path)]; the key is a string, so the type guard passes. *)
Definition set (key : string) (value : val) (path : option string) : M unit :=
  data <- get key None ;;
  present <- super_has key ;;
  oldValue <- (if present then _clone data else ret VNull) ;;
  data <- match path with
          | Some p =>
              data <- (if isNil data then new_object else ret data) ;;
              lodash_set data p value ;;
              ret data
          | None => ret value
          end ;;
  m <- self ;;
  when (changedCB m) (call_changedCB key oldValue data) ;;
  _internalSet key data false ;;
  copy <- _clone data ;;
  super_set key copy.

(** The elements of the array a method is called on ([indexOf], [push]);
    the method does not exist on other values. *)
Definition elements (v : val) : M (list val) :=
  fun w =>
    match v with
    | VRef l =>
        match heap w !! l with
        | Some (OArray es) => Return es w
        | _ => Throw TypeError w
        end
    | _ => Throw TypeError w
    end.

(** [array.push(x)] *)
Definition array_push (array : val) (x : val) : M unit :=
  fun w =>
    match array with
    | VRef l =>
        match heap w !! l with
        | Some (OArray es) =>
            Return tt (set_heap (<[l := OArray (es ++ [x])]> (heap w)) w)
        | _ => Throw TypeError w
        end
    | _ => Throw TypeError w
    end.

Definition push (key : string) (x : val) (path : option string)
  (allowDupes : bool) : M unit :=
  data <- get key None ;;
  _check key ["Array"] path ;;
  match path with
  | Some p =>
      h <- the_heap ;;
      let propValue := _get h data p in
      es <- elements propValue ;;
      if negb allowDupes && indexOf_found es x then ret tt
      else
        array_push propValue x ;;
        lodash_set data p propValue ;;
        _internalSet key data true
  | None =>
      es <- elements data ;;
      if negb allowDupes && indexOf_found es x then ret tt
      else
        array_push data x ;;
        _internalSet key data true
  end.

(** *** Arithmetic *)

(** The type [MathOps] of [types.ts]: six operations, each under three
    spellings. *)
Inductive MathOps :=
| Op_add | Op_addition | Op_plus
| Op_sub | Op_subtract | Op_minus
| Op_mult | Op_multiply | Op_times
| Op_div | Op_divide | Op_slash
| Op_exp | Op_exponent | Op_caret
| Op_mod | Op_modulo | Op_percent.

(** The string literal of each member. *)
Definition spelling (op : MathOps) : string :=
  match op with
  | Op_add => "add" | Op_addition => "addition" | Op_plus => "+"
  | Op_sub => "sub" | Op_subtract => "subtract" | Op_minus => "-"
  | Op_mult => "mult" | Op_multiply => "multiply" | Op_times => "*"
  | Op_div => "div" | Op_divide => "divide" | Op_slash => "/"
  | Op_exp => "exp" | Op_exponent => "exponent" | Op_caret => "^"
  | Op_mod => "mod" | Op_modulo => "modulo" | Op_percent => "%"
  end.

Section Arithmetic.

(** [Math.pow] and the remainder operator [%] of the JavaScript runtime
    on numbers; the four other operators are the IEEE operations. *)
Variables Math_pow remainder : float -> float -> float.

(** [_mathop(base, op, opand)] for an [op] of type [MathOps] and a
    number [opand]; the cases ['rand'] and ['random'], which [math]
    cannot pass, are left out.  Only a number [base] is modelled. *)
Definition _mathop (base : val) (op : MathOps) (opand : float) : M val :=
  if isNil base then throw EnhancedMapTypeError
  else
    match base with
    | VNum b =>
        ret (VNum (match op with
                   | Op_add | Op_addition | Op_plus => PrimFloat.add b opand
                   | Op_sub | Op_subtract | Op_minus => PrimFloat.sub b opand
                   | Op_mult | Op_multiply | Op_times => PrimFloat.mul b opand
                   | Op_div | Op_divide | Op_slash => PrimFloat.div b opand
                   | Op_exp | Op_exponent | Op_caret => Math_pow b opand
                   | Op_mod | Op_modulo | Op_percent => remainder b opand
                   end))
    | _ => throw Unmodelled
    end.

Definition math (key : string) (operation : MathOps) (operand : float)
  (path : option string) : M unit :=
  _check key ["Number"] path ;;
  data <- get key path ;;
  result <- _mathop data operation operand ;;
  set key result path.

End Arithmetic.

(** [++v] and [--v] on a number; [f] is the successor or the predecessor. *)
Definition step (f : float -> float) (v : val) : M val :=
  match v with
  | VNum n => ret (VNum (f n))
  | _ => throw Unmodelled
  end.

(** [inc] and [dec] are the same text up to [++] and [--]. *)
Definition inc_dec (f : float -> float) (key : string) (path : option string)
  : M unit :=
  _check key ["Number"] path ;;
  match path with
  | None =>
      v <- get key None ;;
      v' <- step f v ;;
      _internalSet key v' true
  | Some p =>
      data <- get key None ;;
      h <- the_heap ;;
      propValue <- step f (_get h data p) ;;
      lodash_set data p propValue ;;
      _internalSet key data true
  end.

Definition inc (key : string) (path : option string) : M unit :=
  inc_dec (fun n => PrimFloat.add n 1%float) key path.

Definition dec (key : string) (path : option string) : M unit :=
  inc_dec (fun n => PrimFloat.sub n 1%float) key path.

(** *** Removing *)

(** The predicates on values the module has in scope: its imports from
    lodash.  The model has no function values, so [isFunction] is
    constantly false. *)
Definition module_scope : list (string * (list obj -> val -> bool)) :=
  [ ("isNil", fun _ v => isNil v);
    ("isFunction", fun _ _ => false);
    ("isObject", fun _ v => isObject v) ].

Fixpoint scope_lookup (x : string)
  (sc : list (string * (list obj -> val -> bool)))
  : option (list obj -> val -> bool) :=
  match sc with
  | [] => None
  | (y, f) :: r => if String.eqb y x then Some f else scope_lookup x r
  end.

(** Evaluating an identifier: a [ReferenceError] when nothing binds it. *)
Definition resolve (x : string) : M (list obj -> val -> bool) :=
  match scope_lookup x module_scope with
  | Some f => ret f
  | None => throw (ReferenceError x)
  end.

(** [propValue.splice(last, 1)]: the index is [last] read as an integer,
    [0] when it is not a numeral. *)
Definition splice (array : val) (last : option string) : M unit :=
  fun w =>
    match array with
    | VRef l =>
        match heap w !! l with
        | Some (OArray es) =>
            let i := match last with
                     | Some k => match parse_index k with Some i => i | None => 0%nat end
                     | None => 0%nat
                     end in
            Return tt (set_heap (<[l := OArray (take i es ++ drop (S i) es)]> (heap w)) w)
        | _ => Throw TypeError w
        end
    | _ => Throw TypeError w
    end.

(** [delete propValue[last]] *)
Definition delete_property (object : val) (last : option string) : M unit :=
  fun w =>
    if isNil object then Throw TypeError w
    else
      match object with
      | VRef l =>
          match heap w !! l with
          | Some (OObject ps) =>
              let k := match last with Some k => k | None => "undefined" end in
              Return tt (set_heap (<[l := OObject (assoc_remove k ps)]> (heap w)) w)
          | _ => Return tt w
          end
      | _ => Return tt w
      end.

Definition delete (key : string) (path : option string) : M unit :=
  _readyCheck ;;
  _fetchCheck key ;;
  oldValue <- get key None ;;
  match path with
  | Some p =>
      data <- get key None ;;
      let segments := toPath p in
      let last := List.last (map Some segments) None in
      let path' := removelast segments in
      h <- the_heap ;;
      let propValue :=
        match path' with
        | [] => data
        | _ => if isNil data then VUndef else baseGet h data path'
        end in
      isArray <- resolve "isArray" ;;
      h <- the_heap ;;
      (if isArray h propValue then splice propValue last
       else delete_property propValue last) ;;
      data <- match path' with
              | [] => ret propValue
              | _ =>
                  (fun w => Return tt
                     (set_heap (if isObject data
                                then baseSet_loop path' data propValue (heap w)
                                else heap w) w)) ;;
                  ret data
              end ;;
      set key data None
  | None =>
      super_delete key ;;
      m <- self ;;
      if persistent m then db_run_strict (DeleteWhereKey key)
      else when (changedCB m) (call_changedCB key oldValue VNull)
  end.

Definition deleteAll : M unit :=
  _readyCheck ;;
  m <- self ;;
  when (persistent m) (db_run DeleteAllRows) ;;
  super_clear.

Definition clear : M unit := deleteAll.

(** [this.db?.transaction(...)] applied to the statements: all of them or
    none.  Without a database the transaction is [undefined] and the call
    throws. *)
Definition transaction (sts : list statement) : M unit :=
  fun w =>
    match db (this w) with
    | None => Throw TypeError w
    | Some d =>
        match foldl (fun od st => match od with Some d0 => run d0 st | None => None end)
                (Some d) sts with
        | Some d' =>
            Return tt
              {| heap := heap w; this := set_db (Some d') (this w);
                 trace := trace w ++ map Ran sts |}
        | None => Throw SqliteError w
        end
    end.

Definition destroy : M unit :=
  deleteAll ;;
  (fun w => Return tt (set_this (set_isDestroyed true (this w)) w)) ;;
  m <- self ;;
  transaction [DropTableIfExists; DeleteAutonum (name m)].

(** [evict(key)] and [evict(keys)] *)
Definition evict (key : string) : M unit := super_delete key.

Fixpoint evict_all (keys : list string) : M unit :=
  match keys with
  | [] => ret tt
  | k :: r => super_delete k ;; evict_all r
  end.

(** [changed(cb)] *)
Definition changed : M unit :=
  fun w => Return tt (set_this (set_changedCB true (this w)) w).

(** [close()] *)
Definition close : M unit :=
  _readyCheck ;;
  fun w =>
    Return tt (set_this (set_db (option_map Sqlite.close (db (this w))) (this w)) w).

(** *** The counter *)

(** [this.db?.prepare(SELECT lastnum ...).get({ name })]: the row as an
    object, or [undefined] without a row or without a database. *)
Definition db_get_lastnum : M (option sqlval) :=
  fun w =>
    match db (this w) with
    | None => Return None w
    | Some d =>
        match select_lastnum d (name (this w)) with
        | Some r => Return r w
        | None => Throw SqliteError w
        end
    end.

(** [row + 1].  The left operand is the row object [{ lastnum }] itself,
    not its field: the addition converts an object to the string
    ["[object Object]"] and concatenates; [undefined + 1] is [NaN]. *)
Definition plus_one (row : option sqlval) : val :=
  match row with
  | Some _ => VStr ("[object Object]" ++ "1")
  | None => VNum PrimFloat.nan
  end.

(** Binding a JavaScript value to a statement parameter: [NaN] is stored
    as [NULL]. *)
Definition bind_parameter (v : val) : sqlval :=
  match v with
  | VStr s => SqlText s
  | VNum n => if PrimFloat.is_nan n then SqlNull else SqlReal n
  | _ => SqlNull
  end.

(** [lastNum.toString()] on the values [plus_one] yields. *)
Definition toString (v : val) : M string :=
  match v with
  | VStr s => ret s
  | VNum n => if PrimFloat.is_nan n then ret "NaN" else throw Unmodelled
  | _ => throw Unmodelled
  end.

(** The getter [autonum]. *)
Definition autonum : M string :=
  row <- db_get_lastnum ;;
  let lastNum := plus_one row in
  m <- self ;;
  db_run (InsertAutonum (name m) (bind_parameter lastNum)) ;;
  toString lastNum.

(** *** Construction *)

(** The options the constructor reads ([dataDir], [wal] and [verbose] only
    select the database file and its pragmas). *)
Record EnmapOptions := {
  opt_name : option string;
  opt_fetchAll : option bool;
  opt_autoFetch : option bool;
  opt_default : val;
  opt_serializer : option (tree -> string -> tree);
  opt_deserializer : option (tree -> string -> tree);
}.

(** [name.replace(/[^a-z0-9]/gi, '_').toLowerCase()] *)
Definition sanitize (c : ascii) : ascii :=
  let n := nat_of_ascii c in
  if (48 <=? n)%nat && (n <=? 57)%nat then c
  else if (97 <=? n)%nat && (n <=? 122)%nat then c
  else if (65 <=? n)%nat && (n <=? 90)%nat then ascii_of_nat (n + 32)
  else "_"%char.

Fixpoint _validateName (n : string) : string :=
  match n with
  | EmptyString => EmptyString
  | String c r => String (sanitize c) (_validateName r)
  end.

Definition set_name (n : string) (m : EnhancedMap) : EnhancedMap :=
  {| entries := entries m; serializer := serializer m;
     deserializer := deserializer m; name := n;
     changedCB := changedCB m; default := default m; db := db m;
     persistent := persistent m; isDestroyed := isDestroyed m;
     autoFetch := autoFetch m; cloneLevel := cloneLevel m |}.

Fixpoint load_rows (rs : list (string * text)) : M unit :=
  match rs with
  | [] => ret tt
  | (key, value) :: r =>
      v <- _parseData value key ;;
      super_set key v ;;
      load_rows r
  end.

Definition fetchEverything : M unit :=
  _readyCheck ;;
  m <- self ;;
  match db m with
  | None => ret tt
  | Some d =>
      if is_open d then
        match rows d with
        | Some t => load_rows (map_to_list t)
        | None => throw SqliteError
        end
      else throw SqliteError
  end.

Definition _init (database : Database) (fetchAll : bool) : M unit :=
  (fun w => Return tt (set_this (set_db (Some database) (this w)) w)) ;;
  table <- (fun w => match table_count database with
                     | Some c => Return c w
                     | None => Throw SqliteError w
                     end) ;;
  (* [table.count]: the row has no property of that name (its column is
     named after the aggregate), so the property is [undefined] and the
     test [!table.count] passes whatever the row holds. *)
  let table_count_property : nat -> val := fun _ => VUndef in
  when (negb (truthy (table_count_property table))) (db_run CreateTable) ;;
  db_run CreateAutonumTable ;;
  when fetchAll fetchEverything ;;
  migrate <- has "internal::autonum" None ;;
  if migrate then
    v <- get "internal::autonum" None ;;
    m <- self ;;
    db_run (InsertAutonum (name m) (bind_parameter v)) ;;
    delete "internal::autonum" None
  else
    row <- db_get_lastnum ;;
    m <- self ;;
    match row with
    | Some _ => ret tt
    | None => db_run (InsertAutonum (name m) (SqlReal 0%float))
    end.

(** [new EnhancedMap(options)] in the heap [h] of the caller.  The clone
    level is ['deep'] whatever the options say; a persistent map always
    opens a database of its own in memory ([inMemory] is true whenever
    [persistent] is).  The form that takes an iterable is left out. *)
Definition new_EnhancedMap (options : EnmapOptions) (h : list obj)
  : outcome unit :=
  let '(dflt, h1) :=
    if isNil (opt_default options)
    then (VRef (length h), h ++ [OObject []])
    else (opt_default options, h) in
  let is_persistent :=
    match opt_name options with
    | Some n => negb (String.eqb n "")
    | None => false
    end in
  let m :=
    {| entries := ∅;
       serializer := match opt_serializer options with
                     | Some f => f
                     | None => fun data _ => data
                     end;
       deserializer := match opt_deserializer options with
                       | Some f => f
                       | None => fun data _ => data
                       end;
       name := match opt_name options with
               | Some n => n
               | None => "MemoryEnmap"
               end;
       changedCB := false;
       default := dflt;
       db := None;
       persistent := is_persistent;
       isDestroyed := false;
       autoFetch := is_persistent
                    && match opt_autoFetch options with
                       | Some b => b
                       | None => true
                       end;
       cloneLevel := "deep" |} in
  let w := {| heap := h1; this := m; trace := [] |} in
  if is_persistent then
    ((fun w0 => Return tt (set_this (set_name (_validateName (name m)) (this w0)) w0)) ;;
     _init fresh (match opt_fetchAll options with
                  | Some b => b
                  | None => true
                  end)) w
  else Return tt w.

(** *** Looking into and taking out of an array *)

(** [includes(key, val, path)]; the method shares its name with the
    array method [_check] uses, hence the prime. *)
Definition includes' (key : string) (x : val) (path : option string)
  : M bool :=
  _readyCheck ;;
  _fetchCheck key ;;
  _check key ["Array"; "Object"] None ;;
  data <- get key None ;;
  h <- the_heap ;;
  match path with
  | Some p =>
      let propValue := _get h data p in
      if Array_isArray h propValue then
        es <- elements propValue ;;
        ret (array_includes es x)
      else throw EnhancedMapTypeError
  | None =>
      if Array_isArray h data then
        es <- elements data ;;
        ret (array_includes es x)
      else throw EnhancedMapTypeError
  end.

(** [data.splice(index, 1)] *)
Definition splice_at (array : val) (index : nat) : M unit :=
  fun w =>
    match array with
    | VRef l =>
        match heap w !! l with
        | Some (OArray es) =>
            Return tt
              (set_heap (<[l := OArray (take index es ++ drop (S index) es)]>
                           (heap w)) w)
        | _ => Throw TypeError w
        end
    | _ => Throw TypeError w
    end.

(** [remove(key, val, path)] for a [val] that is not a function (the
    model has no function values): the criterion is [val === value].
    [findIndex] is a method of arrays only. *)
Definition remove (key : string) (x : val) (path : option string) : M unit :=
  _readyCheck ;;
  _fetchCheck key ;;
  _check key ["Array"; "Object"] None ;;
  data <- get key path ;;
  es <- elements data ;;
  match findIndex es x with
  | Some index => splice_at data index
  | None => ret tt
  end ;;
  set key data path.

(** The getter [indexes]: the empty array without a database. *)
Definition indexes : M (list string) :=
  fun w =>
    match db (this w) with
    | None => Return [] w
    | Some d =>
        match select_keys d with
        | Some ks => Return ks w
        | None => Throw SqliteError w
        end
    end.

End Enmap.

(** * Vocabulary of the statements *)

Module Spec.
Import JS Lodash Sqlite Enmap.

(** Induction on pictures that reaches through the lists of children. *)
Section tree_induction.
Variable P : tree -> Prop.
Hypothesis Hundef : P TUndef.
Hypothesis Hnull : P TNull.
Hypothesis Hbool : forall b, P (TBool b).
Hypothesis Hnum : forall n, P (TNum n).
Hypothesis Hstr : forall s, P (TStr s).
Hypothesis Hobject : forall ps, Forall (fun p => P p.2) ps -> P (TObject ps).
Hypothesis Harray : forall ts, Forall P ts -> P (TArray ts).

Fixpoint tree_nested_ind (t : tree) : P t :=
  match t with
  | TUndef => Hundef
  | TNull => Hnull
  | TBool b => Hbool b
  | TNum n => Hnum n
  | TStr s => Hstr s
  | TObject ps =>
      Hobject ps
        ((fix go (ps : list (string * tree)) : Forall (fun p => P p.2) ps :=
            match ps with
            | [] => @List.Forall_nil _ _
            | (k, t) :: r => @List.Forall_cons _ (fun p => P p.2) (k, t) r (tree_nested_ind t) (go r)
            end) ps)
  | TArray ts =>
      Harray ts
        ((fix go (ts : list tree) : Forall P ts :=
            match ts with
            | [] => @List.Forall_nil _ _
            | t :: r => @List.Forall_cons _ P t r (tree_nested_ind t) (go r)
            end) ts)
  end.
End tree_induction.

(** [build] only appends to the heap, one object per container, and the
    value it returns has the picture it was built from. *)
Definition build_ok (t : tree) : Prop :=
  forall h, exists h2,
    (build t h).2 = h ++ h2 /\ length h2 = nodes t /\
    forall m h3, nodes t <= m ->
      reify m ((build t h).2 ++ h3) (build t h).1 = Some t.

Abbreviation build_prop :=
  (fun (p : string * tree) (h0 : list obj) =>
     let '(v, h1) := build p.2 h0 in ((p.1, v), h1)).

(** A map that can be used: not destroyed, cloning deeply (as the
    constructor leaves it), and with an open database holding its table
    exactly when it is persistent. *)
Definition usable (w : World) : bool :=
  negb (isDestroyed (this w))
  && String.eqb (cloneLevel (this w)) "deep"
  && match db (this w) with
     | Some d => persistent (this w) && is_open d
                 && match rows d with Some _ => true | None => false end
     | None => negb (persistent (this w))
     end.

(** The options of the examples. *)
Definition options (n : option string) (d : val) : EnmapOptions :=
  {| opt_name := n; opt_fetchAll := None; opt_autoFetch := None;
     opt_default := d; opt_serializer := None; opt_deserializer := None |}.

(** Running a method after another, from an outcome. *)
Definition and_then {A B} (o : outcome A) (k : M B) : outcome B :=
  match o with
  | Return _ w => k w
  | Throw e w => Throw e w
  end.

(** The six operations the spec names and the one each spelling of
    [MathOps] stands for. *)
Inductive operation := Add | Sub | Mult | Div | Exp | Mod.

Definition meaning (op : MathOps) : operation :=
  match op with
  | Op_add | Op_addition | Op_plus => Add
  | Op_sub | Op_subtract | Op_minus => Sub
  | Op_mult | Op_multiply | Op_times => Mult
  | Op_div | Op_divide | Op_slash => Div
  | Op_exp | Op_exponent | Op_caret => Exp
  | Op_mod | Op_modulo | Op_percent => Mod
  end.

Definition apply (Math_pow remainder : float -> float -> float)
  (o : operation) (base opand : float) : float :=
  match o with
  | Add => PrimFloat.add base opand
  | Sub => PrimFloat.sub base opand
  | Mult => PrimFloat.mul base opand
  | Div => PrimFloat.div base opand
  | Exp => Math_pow base opand
  | Mod => remainder base opand
  end.

(** A map in memory backed by a database of its own, as the tests open
    it, with the given default. *)
Definition memory_enmap (d : val) (h : list obj) : outcome unit :=
  new_EnhancedMap (options (Some "::memory::") d) h.

(** The scenario of the tests on arithmetic: [set('integer', 42)], then
    [math('integer', '+', 5)], [inc('integer')] and [dec('integer')], with a
    [get('integer')] after each. *)
Definition integer_scenario (Math_pow remainder : float -> float -> float)
  : outcome (val * val * val) :=
  and_then (memory_enmap VUndef [])
    (set "integer" (VNum 42%float) None ;;
     math Math_pow remainder "integer" Op_plus 5%float None ;;
     x <- get "integer" None ;;
     inc "integer" None ;;
     y <- get "integer" None ;;
     dec "integer" None ;;
     z <- get "integer" None ;;
     ret (x, y, z))%js.

(** An assignment [object[key] = value] made by the caller on a value it
    holds. *)
Definition mutate (object : val) (key : string) (value : val) : M unit :=
  fun w => Return tt (set_heap (assignValue (heap w) object key value) w).

(** The picture of what [get(key)] returns. *)
Definition look (key : string) : M (option tree) :=
  (v <- get key None ;; h <- the_heap ;; ret (snapshot h v))%js.

(** A fresh map after [set(key, t)], for a literal [t] of the caller. *)
Definition world_with (key : string) (t : tree) : World :=
  final (and_then (memory_enmap VUndef (build t []).2)
           (set key (build t []).1 None)).

(** [{ a: 1, b: 2 }], [{ a: { b: 1 } }] and [[1, 2]] *)
Definition object_ab : tree :=
  TObject [("a", TNum 1%float); ("b", TNum 2%float)].

Definition object_nested : tree :=
  TObject [("a", TObject [("b", TNum 1%float)])].

Definition array_elements : list tree := [TNum 1%float; TNum 2%float].

Definition array_12 : tree := TArray array_elements.

(** [{ sub: { anInt: 5 } }] *)
Definition object_sub : tree :=
  TObject [("sub", TObject [("anInt", TNum 5%float)])].

(** [{ prop3: [1, 2, 3] }] *)
Definition object_prop3 : tree :=
  TObject [("prop3", TArray [TNum 1%float; TNum 2%float; TNum 3%float])].


(** Whether the value whose picture is [t] is strictly equal to the
    primitive [x]: a container never is. *)
Definition picture_eq (t : tree) (x : val) : bool :=
  strict_eq (build t []).1 x.

(** The row of a key and the counter row of the map, when the database
    holds them. *)
Definition row (key : string) (w : World) : option text :=
  match db (this w) with
  | Some d => match rows d with Some t => t !! key | None => None end
  | None => None
  end.

Definition counter (w : World) : option sqlval :=
  match db (this w) with
  | Some d =>
      match autonum_rows d with
      | Some c => c !! name (this w)
      | None => None
      end
  | None => None
  end.

(** The world after [set('integer', 42)] on a fresh map. *)
Definition integer_world : World :=
  final (and_then (memory_enmap VUndef []) (set "integer" (VNum 42%float) None)).

(** A map whose configured default is the caller's [{ a: 1, b: 2 }]. *)
Definition default_world : World :=
  final (memory_enmap (build object_ab []).1 (build object_ab []).2).


(** The events of a call that are not calls of the change callback. *)
Definition silent (e : event) : Prop :=
  match e with Changed _ _ _ => False | _ => True end.

(** A computation that, when it returns, has kept the registration of the
    callback and has only added silent events to the trace. *)
Definition quiet {A} (m : M A) : Prop :=
  forall w a w', m w = Return a w' ->
    changedCB (this w') = changedCB (this w) /\
    exists evs, trace w' = trace w ++ evs /\ Forall silent evs.

(** A computation that, when it returns, has changed the heap at most. *)
Definition heap_only {A} (m : M A) : Prop :=
  forall w a w', m w = Return a w' -> this w' = this w /\ trace w' = trace w.


(** The map that holds ['integer'], with a change callback registered. *)
Definition callback_world : World := final (changed integer_world).

(** *** Where [build] puts a picture *)

(** Laying out a sequence of children one after the other from an
    address on. *)
Definition laid_seq {A B} (P : A -> nat -> B -> Prop) (size : A -> nat)
  : list A -> nat -> list B -> Prop :=
  fix go xs a ys :=
    match xs, ys with
    | [], [] => True
    | x :: xr, y :: yr => P x a y /\ go xr (a + size x) yr
    | _, _ => False
    end.

(** [laid H t a v]: the value [v] is the picture [t] laid out in [H] from
    address [a] on, the way [build] lays it out: the children one after
    the other, then the container. *)
Fixpoint laid (H : list obj) (t : tree) (a : nat) (v : val) : Prop :=
  match t with
  | TUndef => v = VUndef
  | TNull => v = VNull
  | TBool b => v = VBool b
  | TNum n => v = VNum n
  | TStr s => v = VStr s
  | TArray ts =>
      exists vs,
        v = VRef (a + list_sum (map nodes ts)) /\
        H !! (a + list_sum (map nodes ts)) = Some (OArray vs) /\
        laid_seq (laid H) nodes ts a vs
  | TObject ps =>
      exists pvs,
        v = VRef (a + list_sum (map (fun p => nodes p.2) ps)) /\
        H !! (a + list_sum (map (fun p => nodes p.2) ps)) = Some (OObject pvs) /\
        laid_seq (fun (p : string * tree) a (q : string * val) =>
                    q.1 = p.1 /\ laid H p.2 a q.2)
          (fun p => nodes p.2) ps a pvs
  end.

Abbreviation laid_prop H :=
  (fun (p : string * tree) a (q : string * val) =>
     q.1 = p.1 /\ laid H p.2 a q.2).

(** What [build] returns is laid out from the end of the heap it was
    given, whatever is allocated afterwards. *)
Definition build_lays (t : tree) : Prop :=
  forall h post, laid ((build t h).2 ++ post) t (length h) (build t h).1.

(** *** Paths on pictures *)

(** The pictures of [isNil], [constructor.name], [object[key]],
    [key in object], [baseGet], [castPath] and [_get]: what these return
    on a value, read off its picture (lemmas [laid_isNil] to
    [laid_get]). *)
Fixpoint tassoc (k : string) (ps : list (string * tree)) : option tree :=
  match ps with
  | [] => None
  | (k', t) :: r => if String.eqb k' k then Some t else tassoc k r
  end.

Definition tis_nil (t : tree) : bool :=
  match t with TUndef | TNull => true | _ => false end.

Definition tkind (t : tree) : option string :=
  match t with
  | TUndef | TNull => None
  | TBool _ => Some "Boolean"
  | TNum _ => Some "Number"
  | TStr _ => Some "String"
  | TObject _ => Some "Object"
  | TArray _ => Some "Array"
  end.

Definition tget_prop (t : tree) (k : string) : tree :=
  match t with
  | TObject ps => from_option id TUndef (tassoc k ps)
  | TArray ts =>
      if String.eqb k "length"
      then TNum (PrimFloat.of_uint63 (Uint63.of_Z (Z.of_nat (length ts))))
      else match parse_index k with
           | Some i => from_option id TUndef (ts !! i)
           | None => TUndef
           end
  | _ => TUndef
  end.

Definition thas_prop (t : tree) (k : string) : bool :=
  match t with
  | TObject ps => match tassoc k ps with Some _ => true | None => false end
  | TArray ts =>
      String.eqb k "length" ||
      match parse_index k with
      | Some i => (i <? length ts)%nat
      | None => false
      end
  | _ => false
  end.

Fixpoint tbaseGet_loop (t : tree) (segs : list string) : tree :=
  match segs with
  | [] => t
  | k :: r => if tis_nil t then TUndef else tbaseGet_loop (tget_prop t k) r
  end.

Definition tcastPath (t : tree) (p : string) : list string :=
  if negb (has_dot p) || thas_prop t p then [p] else toPath p.

Definition t_get (t : tree) (p : string) : tree :=
  if tis_nil t then TUndef
  else match tcastPath t p with
       | [] => TUndef
       | segs => tbaseGet_loop t segs
       end.

(** The picture with [f] applied to the child the segments lead to. *)
Fixpoint tassoc_alter (f : tree -> tree) (k : string)
  (ps : list (string * tree)) : list (string * tree) :=
  match ps with
  | [] => []
  | (k', t) :: r =>
      if String.eqb k' k then (k', f t) :: r
      else (k', t) :: tassoc_alter f k r
  end.

Fixpoint talter (f : tree -> tree) (segs : list string) (t : tree) : tree :=
  match segs with
  | [] => f t
  | k :: r =>
      match t with
      | TObject ps => TObject (tassoc_alter (talter f r) k ps)
      | TArray ts =>
          match parse_index k with
          | Some i => TArray (alter (talter f r) i ts)
          | None => t
          end
      | _ => t
      end
  end.



(** *** Values a store into a copy changes in one place *)

(** The addresses [v] reaches in [h], one for each way to reach them. *)
Fixpoint reached (fuel : nat) (h : list obj) (v : val) : list nat :=
  match v with
  | VRef l =>
      match fuel with
      | O => [l]
      | S fuel' =>
          l :: match h !! l with
               | Some (OArray es) => flat_map (reached fuel' h) es
               | Some (OObject ps) =>
                   flat_map (fun p => reached fuel' h p.2) ps
               | None => []
               end
      end
  | _ => []
  end.

Fixpoint distinct (l : list nat) : bool :=
  match l with
  | [] => true
  | a :: r => negb (existsb (Nat.eqb a) r) && distinct r
  end.

(** No object of [v] is reached in two ways.  A store into a copy of such
    a value changes one slot of its picture; in a value that holds one
    object in two places, lodash's copy holds one object in those two
    places again, and a store into it shows in both. *)
Definition unshared (h : list obj) (v : val) : bool :=
  distinct (reached (S (length h)) h v).

(** The plain object has an own property named [constructor]: the
    [constructor.name] that [_check] reads of it is then not ['Object']. *)
Definition names_constructor (t : tree) : bool :=
  match t with
  | TObject ps =>
      match tassoc "constructor" ps with Some _ => true | None => false end
  | _ => false
  end.

(** *** Worlds whose values can be read *)

(** Every value the map holds, and its default, can be read out of the
    heap. *)
Definition readable (w : World) : bool :=
  forallb (fun kv : string * val =>
             match snapshot (heap w) kv.2 with Some _ => true | None => false end)
    (map_to_list (entries (this w)))
  && match snapshot (heap w) (default (this w)) with
     | Some _ => true
     | None => false
     end.

Definition sound (w : World) : bool := usable w && readable w.

(** What a miss of the cache fetches from the table. *)
Definition fetched (w : World) (key : string) : option tree :=
  if persistent (this w) && autoFetch (this w) then
    match row key w with
    | Some x => Some (deserializer (this w) (eval x) key)
    | None => None
    end
  else None.

(** The picture of what [get(key)] is to return: the entry, else the row
    when rows are fetched on a miss, else the default when it is truthy. *)
Definition reading (w : World) (key : string) : option tree :=
  match entries (this w) !! key with
  | Some v => snapshot (heap w) v
  | None =>
      match fetched w key with
      | Some t => Some t
      | None =>
          if truthy (default (this w))
          then snapshot (heap w) (default (this w))
          else Some TUndef
      end
  end.

(** The fields of the instance no method but the constructor, [changed]
    and [destroy] writes. *)
Definition same_config (m m' : EnhancedMap) : Prop :=
  serializer m' = serializer m /\ deserializer m' = deserializer m /\
  name m' = name m /\ changedCB m' = changedCB m /\
  default m' = default m /\ persistent m' = persistent m /\
  isDestroyed m' = isDestroyed m /\ autoFetch m' = autoFetch m /\
  cloneLevel m' = cloneLevel m.


(** A persistent map that does not fetch on a miss, with the default
    [{ a: 1, b: 2 }], after [set('k', 1)] and [evict('k')]. *)
Definition unfetching_world : World :=
  final
    (and_then
       (and_then
          (new_EnhancedMap
             {| opt_name := Some "::memory::"; opt_fetchAll := None;
                opt_autoFetch := Some false;
                opt_default := (build object_ab []).1;
                opt_serializer := None; opt_deserializer := None |}
             (build object_ab []).2)
          (set "k" (VNum 1%float) None))
       (evict "k")).

(** The map in memory only that holds ['array']. *)
Definition plain_world : World :=
  final (and_then (new_EnhancedMap (options None VUndef) [])
           (set "array" (build array_12 []).1 None)).

(** *** What the calls leave of the heap *)

(** A value that does not refer below the address [n], and a heap whose
    objects from [n] on hold such values only: what lodash's [set]
    reaches from such a value lies from [n] on. *)
Definition fresh_val (n : nat) (v : val) : Prop :=
  match v with VRef l => n <= l | _ => True end.

Definition cell_vals (o : obj) : list val :=
  match o with OObject ps => map snd ps | OArray es => es end.

Definition above (n : nat) (H : list obj) : Prop :=
  forall l o, n <= l -> H !! l = Some o -> Forall (fresh_val n) (cell_vals o).

(** What [build] allocates refers to what it allocates. *)
Definition build_closed (t : tree) : Prop :=
  forall n h, n <= length h -> above n h ->
    above n (build t h).2 /\ fresh_val n (build t h).1 /\
    length h <= length (build t h).2.

Definition deep (w : World) : Prop := cloneLevel (this w) = "deep".

(** The heap [h0] is still there, unchanged, at the bottom of the heap. *)
Definition grown (h0 : list obj) (w : World) : Prop :=
  deep w /\ take (length h0) (heap w) = h0.

(** Moreover the heap is closed from [n] on, an address past [h0]. *)
Definition kept (h0 : list obj) (n : nat) (w : World) : Prop :=
  grown h0 w /\ length h0 <= n /\ n <= length (heap w) /\ above n (heap w).

(** From a world in [P], the computation returns in [Q] or throws in
    [R]. *)
Definition triple {A} (P : World -> Prop) (m : M A)
  (Q : A -> World -> Prop) (R : World -> Prop) : Prop :=
  forall w, P w ->
    match m w with Return a w' => Q a w' | Throw _ w' => R w' end.

(** A computation that leaves the heap and the clone level alone. *)
Definition inert {A} (m : M A) : Prop :=
  forall w, heap (final (m w)) = heap w /\
            cloneLevel (this (final (m w))) = cloneLevel (this w).

(** A computation that keeps [kept]. *)
Definition tame {A} (m : M A) : Prop :=
  forall h0 n, triple (kept h0 n) m (fun _ => kept h0 n) (grown h0).

(** A computation that returns a value of its own, not referring below
    some address past the heap it started from. *)
Definition yields_fresh (m : M val) : Prop :=
  forall h0 n,
    triple (kept h0 n) m
      (fun v w => exists n', kept h0 n' w /\ fresh_val n' v) (grown h0).

(** The tail of [set] and of the other writers: nothing is stored into
    an object any more. *)
Definition settles {A} (m : M A) : Prop :=
  forall h0, triple (grown h0) m (fun _ => grown h0) (grown h0).

(** A computation that leaves the heap it started from in place. *)
Definition steady {A} (m : M A) : Prop :=
  forall h0 n, triple (kept h0 n) m (fun _ => grown h0) (grown h0).

(** A call of a method of the map with its arguments. *)
Inductive call :=
| CallGet (key : string) (path : option string)
| CallHas (key : string) (path : option string)
| CallSet (key : string) (value : val) (path : option string)
| CallPush (key : string) (x : val) (path : option string) (allowDupes : bool)
| CallMath (key : string) (op : MathOps) (operand : float)
    (path : option string)
| CallInc (key : string) (path : option string)
| CallDec (key : string) (path : option string)
| CallDelete (key : string) (path : option string)
| CallFetch (key : string)
| CallFetchEverything
| CallEvict (key : string)
| CallClear
| CallChanged
| CallClose
| CallDestroy
| CallAutonum.

(** The world a call leaves, returned or thrown: the caller goes on
    either way. *)
Definition perform (Math_pow remainder : float -> float -> float)
  (c : call) (w : World) : World :=
  match c with
  | CallGet key path => final (get key path w)
  | CallHas key path => final (has key path w)
  | CallSet key value path => final (set key value path w)
  | CallPush key x path allowDupes => final (push key x path allowDupes w)
  | CallMath key op operand path =>
      final (math Math_pow remainder key op operand path w)
  | CallInc key path => final (inc key path w)
  | CallDec key path => final (dec key path w)
  | CallDelete key path => final (delete key path w)
  | CallFetch key => final (fetch key w)
  | CallFetchEverything => final (fetchEverything w)
  | CallEvict key => final (evict key w)
  | CallClear => final (clear w)
  | CallChanged => final (changed w)
  | CallClose => final (close w)
  | CallDestroy => final (destroy w)
  | CallAutonum => final (autonum w)
  end.

Definition perform_all (Math_pow remainder : float -> float -> float)
  (cs : list call) (w : World) : World :=
  foldl (fun w c => perform Math_pow remainder c w) w cs.

(** With a path, the value pushed is a primitive. *)
Definition pushes_primitive (c : call) : bool :=
  match c with
  | CallPush _ x (Some _) _ => negb (isObject x)
  | _ => true
  end.

(** *** Arrays in pictures *)



(** The elements without the first one strictly equal to [x]. *)
Fixpoint remove_first (x : val) (ts : list tree) : list tree :=
  match ts with
  | [] => []
  | t :: r => if picture_eq t x then r else t :: remove_first x r
  end.

(** *** Paths that lead to a slot *)

(** [hasPath] and [_has] on pictures. *)
Fixpoint thasPath_loop (t : tree) (segs : list string) : bool :=
  match segs with
  | [] => true
  | k :: r =>
      negb (tis_nil t) && thas_prop t k && thasPath_loop (tget_prop t k) r
  end.

Definition t_has (t : tree) (p : string) : bool :=
  match tcastPath t p with
  | [] => false
  | segs => thasPath_loop t segs
  end.

(** The segments lead to a slot that is there: each names a safe own
    property of a plain object or an element of an array. *)
Fixpoint tleads (t : tree) (segs : list string) : bool :=
  match segs with
  | [] => true
  | k :: r =>
      negb (unsafe_key k) &&
      match t with
      | TObject ps =>
          match tassoc k ps with Some c => tleads c r | None => false end
      | TArray ts =>
          match parse_index k with
          | Some i =>
              match ts !! i with Some c => tleads c r | None => false end
          | None => false
          end
      | _ => false
      end
  end.

(** The segments lead to what is there to read: each names an own
    property of a plain object or an element of an array, or, as the
    last one, the [length] of an array.  Nothing is then looked up in a
    primitive or along the prototype chain. *)
Fixpoint tfound (t : tree) (segs : list string) : bool :=
  match segs with
  | [] => true
  | k :: r =>
      match t with
      | TObject ps =>
          match tassoc k ps with Some c => tfound c r | None => false end
      | TArray ts =>
          if String.eqb k "length"
          then match r with [] => true | _ :: _ => false end
          else match parse_index k with
               | Some i =>
                   match ts !! i with Some c => tfound c r | None => false end
               | None => false
               end
      | _ => false
      end
  end.

(** No segment is looked up in a string, whose [length] and characters
    are own properties that [thas_prop] leaves out. *)
Fixpoint tstringless (t : tree) (segs : list string) : bool :=
  match segs with
  | [] => true
  | k :: r =>
      match t with
      | TStr _ => false
      | _ => tstringless (tget_prop t k) r
      end
  end.

(** [w'] is [w] with the number [r] where the path leads in the value of
    the key, whose picture was [t]; the other keys read as before. *)
Definition number_at (w : World) (key : string) (t : tree) (p : string)
  (r : float) (w' : World) : Prop :=
  sound w' = true /\
  reading w' key = Some (talter (fun _ => TNum r) (tcastPath t p) t) /\
  forall k, k <> key -> reading w' k = reading w k.

(** *** Statements and names *)

(** The events that are statements run on the database. *)
Definition is_statement (e : event) : bool :=
  match e with Ran _ => true | _ => false end.

(** [w'] is reached from [w] without a database and without a
    statement. *)
Definition detached (w w' : World) : Prop :=
  db (this w') = None /\
  exists evs, trace w' = trace w ++ evs /\
              Forall (fun e => is_statement e = false) evs.

(** A computation that, on a map without a database, opens none and
    runs no statement, whether it returns or throws. *)
Definition offline {A} (m : M A) : Prop :=
  forall w, db (this w) = None -> detached w (final (m w)).

(** The characters a validated name is made of: the lower-case letters,
    the digits and the underscore. *)
Definition is_name_char (c : ascii) : bool :=
  let n := nat_of_ascii c in
  (48 <=? n)%nat && (n <=? 57)%nat
  || (97 <=? n)%nat && (n <=? 122)%nat
  || Ascii.eqb c "_".

End Spec.

(** * Properties *)

Import JS Lodash Sqlite Enmap Spec.
Local Open Scope js_scope.

(** ** Values, pictures and copies *)

(** A picture survives more fuel and a longer heap. *)
Lemma reify_mono n : forall h v t,
  reify n h v = Some t ->
  forall m h2, n <= m -> reify m (h ++ h2) v = Some t.
Proof.
  induction n as [|n IH]; intros h v t Hr m h2 Hle.
  - destruct v; simpl in *; try discriminate; destruct m; simpl; congruence.
  - destruct v; try (destruct m; simpl in *; congruence).
    destruct m as [|m]; [lia|]. simpl in *.
    destruct (h !! l) as [o|] eqn:Hl; [|done].
    rewrite (lookup_app_l_Some _ _ _ _ Hl).
    destruct o as [ps|es].
    + apply fmap_Some in Hr as (ts & Hm & ->).
      apply fmap_Some. exists ts. split; [|done].
      apply mapM_Some. apply mapM_Some in Hm.
      eapply Forall2_impl; [exact Hm|].
      intros p q Hp. simpl in *.
      apply fmap_Some in Hp as (t' & Ht' & ->).
      apply fmap_Some. exists t'. split; [|done].
      apply IH; [done|lia].
    + apply fmap_Some in Hr as (ts & Hm & ->).
      apply fmap_Some. exists ts. split; [|done].
      apply mapM_Some. apply mapM_Some in Hm.
      eapply Forall2_impl; [exact Hm|].
      intros p q Hp. apply IH; [done|lia].
Qed.

Lemma thread_build_array ts :
  Forall build_ok ts ->
  forall h, exists h2,
    (thread build ts h).2 = h ++ h2 /\
    length h2 = list_sum (map nodes ts) /\
    forall m h3, list_sum (map nodes ts) <= m ->
      Forall2 (fun v t => reify m ((thread build ts h).2 ++ h3) v = Some t)
        (thread build ts h).1 ts.
Proof.
  induction 1 as [|t r Ht Hr IH]; intros h.
  - exists []. simpl. rewrite app_nil_r. repeat split; auto.
  - simpl. destruct (Ht h) as (h2 & E1 & L1 & R1).
    destruct (build t h) as [y h1] eqn:Eb. simpl in *. subst h1.
    destruct (IH (h ++ h2)) as (h3 & E2 & L2 & R2).
    destruct (thread build r (h ++ h2)) as [ys h4] eqn:Et. simpl in *. subst h4.
    exists (h2 ++ h3). rewrite length_app, app_assoc.
    repeat split; [lia|].
    intros m h5 Hm. constructor.
    + rewrite <- app_assoc. apply R1. lia.
    + apply R2. lia.
Qed.

Lemma thread_build_object (ps : list (string * tree)) :
  Forall (fun p => build_ok p.2) ps ->
  forall h, exists h2,
    (thread build_prop ps h).2 = h ++ h2 /\
    length h2 = list_sum (map (fun p => nodes p.2) ps) /\
    forall m h3, list_sum (map (fun p => nodes p.2) ps) <= m ->
      Forall2 (fun (p : string * val) (q : string * tree) =>
                 pair p.1 <$> reify m ((thread build_prop ps h).2 ++ h3) p.2
                 = Some q)
        (thread build_prop ps h).1 ps.
Proof.
  induction 1 as [|[k t] r Ht Hr IH]; intros h.
  - exists []. simpl. rewrite app_nil_r. repeat split; auto.
  - simpl in *. destruct (Ht h) as (h2 & E1 & L1 & R1).
    destruct (build t h) as [y h1] eqn:Eb. simpl in *. subst h1.
    destruct (IH (h ++ h2)) as (h3 & E2 & L2 & R2).
    destruct (thread _ r (h ++ h2)) as [ys h4] eqn:Et. simpl in *. subst h4.
    exists (h2 ++ h3). rewrite length_app, app_assoc.
    repeat split; [lia|].
    intros m h5 Hm. constructor.
    + simpl. rewrite <- app_assoc, R1 by lia. done.
    + apply R2. lia.
Qed.

Lemma build_spec t : build_ok t.
Proof.
  induction t as [| | | | |ps IH|ts IH] using tree_nested_ind; intros h;
    try (exists []; simpl; rewrite app_nil_r; repeat split; auto;
         intros [|m] h3 _; reflexivity).
  - destruct (thread_build_object ps IH h) as (h2 & E & L & R).
    simpl. destruct (thread _ ps h) as [vs h'] eqn:Et. simpl in *. subst h'.
    exists (h2 ++ [OObject vs]). rewrite app_assoc, length_app. simpl.
    repeat split; [lia|].
    intros [|m] h3 Hm; [lia|]. simpl.
    rewrite <- app_assoc. simpl.
    rewrite list_lookup_middle by done. simpl.
    apply fmap_Some. exists ps. split; [|done].
    apply mapM_Some. apply (R m (OObject vs :: h3)). lia.
  - destruct (thread_build_array ts IH h) as (h2 & E & L & R).
    simpl. destruct (thread build ts h) as [vs h'] eqn:Et. simpl in *. subst h'.
    exists (h2 ++ [OArray vs]). rewrite app_assoc, length_app. simpl.
    repeat split; [lia|].
    intros [|m] h3 Hm; [lia|]. simpl.
    rewrite <- app_assoc. simpl.
    rewrite list_lookup_middle by done. simpl.
    apply fmap_Some. exists ts. split; [|done].
    apply mapM_Some. apply (R m (OArray vs :: h3)). lia.
Qed.

Lemma snapshot_build t h : snapshot (build t h).2 (build t h).1 = Some t.
Proof.
  destruct (build_spec t h) as (h2 & E & L & R).
  unfold snapshot. specialize (R (S (length (build t h).2)) []).
  rewrite app_nil_r in R. apply R. rewrite E, length_app. lia.
Qed.

Lemma snapshot_extend h h2 v t :
  snapshot h v = Some t -> snapshot (h ++ h2) v = Some t.
Proof.
  unfold snapshot. intros H. eapply reify_mono; [exact H|].
  rewrite length_app. lia.
Qed.

Lemma reify_primitive x px :
  reify 0 [] x = Some px -> forall n h, reify n h x = Some px.
Proof. intros H n h. apply (reify_mono 0 [] x px H n h). lia. Qed.

Lemma primitive_not_object x px : reify 0 [] x = Some px -> isObject x = false.
Proof. destruct x; simpl; congruence. Qed.

Lemma build_strict_eq t h x :
  isObject x = false -> strict_eq (build t h).1 x = picture_eq t x.
Proof.
  intros Hx. unfold picture_eq. destruct t; try reflexivity; simpl.
  - destruct (thread _ props h), (thread _ props []). simpl.
    destruct x; simpl in *; congruence.
  - destruct (thread build elems h), (thread build elems []). simpl.
    destruct x; simpl in *; congruence.
Qed.

Lemma thread_indexOf ts x :
  isObject x = false ->
  forall h, indexOf_found (thread build ts h).1 x
            = existsb (fun t => picture_eq t x) ts.
Proof.
  intros Hx. unfold indexOf_found. induction ts as [|t r IH]; intros h.
  - reflexivity.
  - simpl. pose proof (build_strict_eq t h x Hx) as E.
    destruct (build t h) as [y h1]. specialize (IH h1).
    destruct (thread build r h1) as [ys h2]. simpl in *.
    rewrite E, IH. reflexivity.
Qed.

Lemma picture_eq_primitive x px :
  reify 0 [] x = Some px -> picture_eq px x = strict_eq x x.
Proof. destruct x; simpl; intros [= <-]; reflexivity. Qed.

Lemma build_array ts h :
  build (TArray ts) h
  = (VRef (length (thread build ts h).2),
     (thread build ts h).2 ++ [OArray (thread build ts h).1]).
Proof. simpl. destruct (thread build ts h). reflexivity. Qed.

Lemma build_extends t h : exists ext, (build t h).2 = h ++ ext.
Proof. destruct (build_spec t h) as (ext & E & _). eauto. Qed.

(** An assignment to the value [build] returns stays in the part of the
    heap that [build] added. *)
Lemma assign_built t h k x :
  exists ext, assignValue (build t h).2 (build t h).1 k x = h ++ ext.
Proof.
  destruct t; simpl; try (exists []; rewrite app_nil_r; reflexivity).
  - destruct (thread_build_object props
                (Forall_true _ _ (fun p => build_spec p.2)) h)
      as (seg & E & _).
    destruct (thread _ props h) as [vs h'] eqn:Et. simpl in *. subst h'.
    rewrite list_lookup_middle by done.
    rewrite insert_app_r_alt by lia. rewrite Nat.sub_diag. simpl.
    rewrite <- app_assoc. eauto.
  - destruct (thread_build_array elems (Forall_true _ _ build_spec) h)
      as (seg & E & _).
    destruct (thread build elems h) as [vs h'] eqn:Et. simpl in *. subst h'.
    rewrite list_lookup_middle by done.
    destruct (parse_index k).
    + rewrite insert_app_r_alt by lia. rewrite Nat.sub_diag. simpl.
      rewrite <- app_assoc. eauto.
    + rewrite <- app_assoc. eauto.
Qed.

(** ** The layout of a built value *)

(** The layout only reads the addresses it covers. *)
Lemma laid_frame t : forall H H' a v,
  (forall i, a <= i < a + nodes t -> H' !! i = H !! i) ->
  laid H t a v -> laid H' t a v.
Proof.
  induction t as [| | | | |ps IH|ts IH] using tree_nested_ind;
    intros H H' a v Hag; try (simpl; auto; fail).
  - simpl. intros (pvs & E & L & G). exists pvs.
    split; [exact E|]. split; [rewrite Hag; [exact L|simpl; lia]|].
    assert (Hag' : forall i,
               a <= i < a + list_sum (map (fun p => nodes p.2) ps) ->
               H' !! i = H !! i) by (intros i Hi; apply Hag; simpl; lia).
    clear E L Hag. revert a pvs G Hag'.
    induction IH as [|[k t] r Ht Hr IHr]; intros a [|[k' y] ys]; simpl; auto.
    intros ((G0 & G1) & G2) Hag. split; [split; [exact G0|]|].
    + eapply Ht; [|exact G1]. intros i Hi. apply Hag. simpl in *. lia.
    + apply IHr; [exact G2|]. intros i Hi. apply Hag. simpl in *. lia.
  - simpl. intros (vs & E & L & G). exists vs.
    split; [exact E|]. split; [rewrite Hag; [exact L|simpl; lia]|].
    assert (Hag' : forall i, a <= i < a + list_sum (map nodes ts) ->
                             H' !! i = H !! i)
      by (intros i Hi; apply Hag; simpl; lia).
    clear E L Hag. revert a vs G Hag'.
    induction IH as [|t r Ht Hr IHr]; intros a [|y ys]; simpl; auto.
    intros (G1 & G2) Hag. split.
    + eapply Ht; [|exact G1]. intros i Hi. apply Hag. simpl in *. lia.
    + apply IHr; [exact G2|]. intros i Hi. apply Hag. simpl in *. lia.
Qed.

(** [build] allocates one object per container of the picture. *)
Lemma build_length t h : length (build t h).2 = length h + nodes t.
Proof.
  destruct (build_spec t h) as (seg & E & L & _). rewrite E, length_app. lia.
Qed.

Lemma thread_lays_array ts :
  Forall build_lays ts ->
  forall h post,
    laid_seq (laid ((thread build ts h).2 ++ post)) nodes ts (length h)
      (thread build ts h).1.
Proof.
  induction 1 as [|t r Ht Hr IH]; intros h post; simpl; [done|].
  pose proof (Ht h) as Hy. pose proof (build_length t h) as Hl.
  destruct (build t h) as [y h1]. simpl in *.
  specialize (IH h1 post).
  destruct (thread_build_array r (Forall_true _ _ build_spec) h1)
    as (seg & E & _).
  destruct (thread build r h1) as [ys h2]. simpl in *. subst h2.
  split.
  - rewrite <- app_assoc. apply Hy.
  - rewrite <- Hl. exact IH.
Qed.

Lemma thread_lays_object (ps : list (string * tree)) :
  Forall (fun p => build_lays p.2) ps ->
  forall h post,
    laid_seq (laid_prop ((thread build_prop ps h).2 ++ post))
      (fun p => nodes p.2) ps (length h) (thread build_prop ps h).1.
Proof.
  induction 1 as [|[k t] r Ht Hr IH]; intros h post; simpl; [done|].
  simpl in Ht.
  pose proof (Ht h) as Hy. pose proof (build_length t h) as Hl.
  destruct (build t h) as [y h1]. simpl in *.
  specialize (IH h1 post).
  destruct (thread_build_object r (Forall_true _ _ (fun p => build_spec p.2)) h1)
    as (seg & E & _).
  destruct (thread build_prop r h1) as [ys h2]. simpl in *. subst h2.
  split; [split; [reflexivity|]|].
  - rewrite <- app_assoc. apply Hy.
  - rewrite <- Hl. exact IH.
Qed.

(** [build] lays the picture out. *)
Lemma build_laid t : build_lays t.
Proof.
  induction t as [| | | | |ps IH|ts IH] using tree_nested_ind;
    intros h post; try reflexivity.
  - pose proof (thread_lays_object ps IH h (OObject (thread build_prop ps h).1
                                             :: post)) as G.
    destruct (thread_build_object ps (Forall_true _ _ (fun p => build_spec p.2)) h)
      as (seg & E & L & _).
    simpl. destruct (thread build_prop ps h) as [pvs h'] eqn:Et.
    simpl in *. subst h'. exists pvs.
    rewrite <- L, <- length_app, <- app_assoc. simpl.
    split; [reflexivity|]. split; [apply list_lookup_middle; reflexivity|].
    exact G.
  - pose proof (thread_lays_array ts IH h (OArray (thread build ts h).1
                                            :: post)) as G.
    destruct (thread_build_array ts (Forall_true _ _ build_spec) h)
      as (seg & E & L & _).
    simpl. destruct (thread build ts h) as [vs h'] eqn:Et.
    simpl in *. subst h'. exists vs.
    rewrite <- L, <- length_app, <- app_assoc. simpl.
    split; [reflexivity|]. split; [apply list_lookup_middle; reflexivity|].
    exact G.
Qed.

(** A laid-out value reads back as its picture. *)
Lemma laid_reify t : forall H a v m,
  laid H t a v -> nodes t <= m -> reify m H v = Some t.
Proof.
  induction t as [| | | | |ps IH|ts IH] using tree_nested_ind;
    intros H a v m; simpl; try (intros -> _; destruct m; reflexivity).
  - intros (pvs & -> & L & G) Hm. destruct m as [|m]; [lia|]. simpl.
    rewrite L. apply fmap_Some. exists ps. split; [|done].
    apply mapM_Some.
    assert (Hm' : list_sum (map (fun p => nodes p.2) ps) <= m) by lia.
    clear L Hm. revert a pvs G Hm'.
    induction IH as [|[k t] r Ht Hr IHr]; intros a [|[k' y] ys]; simpl;
      try done; try (intros _ _; constructor; fail).
    intros ((-> & G1) & G2) Hm. constructor.
    + simpl. rewrite (Ht H a y m G1) by (simpl in *; lia). done.
    + eapply IHr; [exact G2|]. simpl in *. lia.
  - intros (vs & -> & L & G) Hm. destruct m as [|m]; [lia|]. simpl.
    rewrite L. apply fmap_Some. exists ts. split; [|done].
    apply mapM_Some.
    assert (Hm' : list_sum (map nodes ts) <= m) by lia.
    clear L Hm. revert a vs G Hm'.
    induction IH as [|t r Ht Hr IHr]; intros a [|y ys]; simpl;
      try done; try (intros _ _; constructor; fail).
    intros (G1 & G2) Hm. constructor.
    + apply (Ht H a y m G1). simpl in *. lia.
    + eapply IHr; [exact G2|]. simpl in *. lia.
Qed.

(** On a laid-out value, the lodash functions follow the picture. *)
Lemma laid_isNil H t a v : laid H t a v -> isNil v = tis_nil t.
Proof. destruct t; simpl; try (intros ->; reflexivity); intros (? & -> & _); reflexivity. Qed.

Lemma laid_kind H t a v : laid H t a v -> constructor_name H v = tkind t.
Proof.
  destruct t; simpl; try (intros ->; reflexivity);
    intros (? & -> & L & _); unfold constructor_name; rewrite L; reflexivity.
Qed.

(** The children of a laid-out container are laid out inside it, below
    its own cell. *)
Lemma laid_seq_lookup H ts : forall a vs i t,
  laid_seq (laid H) nodes ts a vs ->
  ts !! i = Some t ->
  exists v a', vs !! i = Some v /\ laid H t a' v /\
    a <= a' /\ a' + nodes t <= a + list_sum (map nodes ts).
Proof.
  induction ts as [|t0 r IH]; intros a [|y ys] i t G Hi; simpl in *; try done.
  destruct G as [G1 G2]. destruct i as [|i]; simpl in *.
  - injection Hi as ->. exists y, a. repeat split; auto; lia.
  - destruct (IH _ _ _ _ G2 Hi) as (v & a' & E & L & B1 & B2).
    exists v, a'. repeat split; auto; lia.
Qed.

Lemma laid_seq_length H ts : forall a vs,
  laid_seq (laid H) nodes ts a vs -> length vs = length ts.
Proof.
  induction ts as [|t0 r IH]; intros a [|y ys] G; simpl in *; try done.
  destruct G as [_ G]. f_equal. eauto.
Qed.

Lemma laid_props_assoc H ps : forall a pvs k,
  laid_seq (laid_prop H) (fun p => nodes p.2) ps a pvs ->
  match tassoc k ps with
  | Some t =>
      exists v a', assoc_get k pvs = Some v /\ laid H t a' v /\
        a <= a' /\ a' + nodes t <= a + list_sum (map (fun p => nodes p.2) ps)
  | None => assoc_get k pvs = None
  end.
Proof.
  induction ps as [|[k0 t0] r IH]; intros a [|[k' y] ys] k G; simpl in *;
    try done.
  destruct G as [[-> G1] G2].
  destruct (String.eqb k0 k).
  - exists y, a. repeat split; auto; lia.
  - specialize (IH _ _ k G2). destruct (tassoc k r).
    + destruct IH as (v & a' & E & L & B1 & B2).
      exists v, a'. repeat split; auto; lia.
    + exact IH.
Qed.

Lemma laid_get_prop H t a v k :
  laid H t a v ->
  exists a', laid H (tget_prop t k) a' (get_prop H v k) /\
    a <= a' /\ a' + nodes (tget_prop t k) <= a + pred (nodes t).
Proof.
  destruct t; simpl; try (intros ->; exists a; simpl; auto).
  - intros (pvs & -> & L & G). unfold get_prop, has_prop. rewrite L.
    pose proof (laid_props_assoc H props a pvs k G) as Ha.
    destruct (tassoc k props) as [t|].
    + destruct Ha as (v & a' & -> & Lv & B1 & B2). simpl. eauto.
    + rewrite Ha. simpl. exists a. simpl. repeat split; auto; lia.
  - intros (vs & -> & L & G). unfold get_prop, has_prop. rewrite L.
    rewrite (laid_seq_length _ _ _ _ G).
    destruct (String.eqb k "length").
    + exists a. simpl. repeat split; auto; lia.
    + destruct (parse_index k) as [i|]; [|exists a; simpl; repeat split; auto; lia].
      destruct (elems !! i) as [t|] eqn:Ei.
      * destruct (laid_seq_lookup _ _ _ _ _ _ G Ei) as (v & a' & -> & Lv & B1 & B2).
        simpl. eauto.
      * assert (vs !! i = None) as ->.
        { apply lookup_ge_None. rewrite (laid_seq_length _ _ _ _ G).
          apply lookup_ge_None in Ei. exact Ei. }
        simpl. exists a. simpl. repeat split; auto; lia.
Qed.

Lemma laid_has_prop H t a v k : laid H t a v -> has_prop H v k = thas_prop t k.
Proof.
  destruct t; simpl; try (intros ->; reflexivity).
  - intros (pvs & -> & L & G). unfold get_prop, has_prop. rewrite L.
    pose proof (laid_props_assoc H props a pvs k G) as Ha.
    destruct (tassoc k props).
    + destruct Ha as (v & a' & -> & _). reflexivity.
    + rewrite Ha. reflexivity.
  - intros (vs & -> & L & G). unfold get_prop, has_prop. rewrite L.
    rewrite (laid_seq_length _ _ _ _ G). reflexivity.
Qed.

Lemma laid_baseGet_loop H segs : forall t a v,
  laid H t a v ->
  exists a', laid H (tbaseGet_loop t segs) a' (baseGet_loop H v segs) /\
    a <= a' /\ a' + nodes (tbaseGet_loop t segs) <= a + nodes t.
Proof.
  induction segs as [|k r IH]; intros t a v L; simpl.
  - exists a. auto.
  - rewrite (laid_isNil _ _ _ _ L). destruct (tis_nil t).
    + exists a. simpl. repeat split; auto; lia.
    + destruct (laid_get_prop H t a v k L) as (a1 & L1 & B1 & B2).
      destruct (IH _ _ _ L1) as (a' & L' & B3 & B4).
      exists a'. repeat split; auto; lia.
Qed.

Lemma laid_castPath H t a v p : laid H t a v -> castPath H p v = tcastPath t p.
Proof.
  intros L. unfold castPath, tcastPath.
  rewrite (laid_has_prop _ _ _ _ p L). reflexivity.
Qed.

Lemma laid_get H t a v p :
  laid H t a v -> exists a', laid H (t_get t p) a' (_get H v p).
Proof.
  intros L. unfold _get, t_get, baseGet.
  rewrite (laid_isNil _ _ _ _ L), (laid_castPath _ _ _ _ p L).
  destruct (tis_nil t); [exists a; reflexivity|].
  destruct (tcastPath t p) as [|k r]; [exists a; reflexivity|].
  destruct (laid_baseGet_loop H (k :: r) t a v L) as (a' & L' & _). eauto.
Qed.

Lemma laid_seq_impl {A B} (P Q : A -> nat -> B -> Prop) size xs :
  forall a ys,
    (forall x a' y, a <= a' -> a' + size x <= a + list_sum (map size xs) ->
                    P x a' y -> Q x a' y) ->
    laid_seq P size xs a ys -> laid_seq Q size xs a ys.
Proof.
  induction xs as [|x r IH]; intros a [|y ys] Hi G; simpl in *; try done.
  destruct G as [G1 G2]. split.
  - apply Hi; auto; lia.
  - apply IH; auto. intros x' a' y' B1 B2. apply Hi; lia.
Qed.


(** A store outside the cells of a picture leaves its layout alone. *)
Lemma laid_insert_frame H l o t a v :
  l < a \/ a + nodes t <= l -> laid H t a v -> laid (<[l := o]> H) t a v.
Proof.
  intros Hl. apply laid_frame. intros i Hi.
  apply list_lookup_insert_ne. lia.
Qed.

Lemma laid_props_alter H l o f ps : forall a pvs k c,
  laid_seq (laid_prop H) (fun p => nodes p.2) ps a pvs ->
  tassoc k ps = Some c ->
  (forall a' v, assoc_get k pvs = Some v -> laid H c a' v ->
     laid (<[l := o]> H) (f c) a' v /\ nodes (f c) = nodes c /\
     a' <= l < a' + nodes c) ->
  laid_seq (laid_prop (<[l := o]> H)) (fun p => nodes p.2)
    (tassoc_alter f k ps) a pvs /\
  list_sum (map (fun p => nodes p.2) (tassoc_alter f k ps))
  = list_sum (map (fun p => nodes p.2) ps) /\
  a <= l < a + list_sum (map (fun p => nodes p.2) ps).
Proof.
  induction ps as [|[k0 t0] r IH]; intros a [|[k' y] ys] k c G Hk Hc;
    simpl in *; try done.
  destruct G as [[-> G1] G2].
  revert Hk Hc. destruct (String.eqb k0 k); intros Hk Hc.
  - injection Hk as ->. destruct (Hc a y eq_refl G1) as (L1 & N1 & B1).
    simpl. rewrite N1.
    split; [split; [split; [reflexivity|exact L1]|]|split; [reflexivity|lia]].
    apply (laid_seq_impl (laid_prop H)); [|exact G2].
    intros [k1 t1] a' [k2 y2] B2 B3 [E1 L2]. split; [exact E1|].
    apply laid_insert_frame; [lia|exact L2].
  - destruct (IH _ _ _ _ G2 Hk Hc) as (L1 & N1 & B1). simpl. rewrite N1.
    split; [split; [split; [reflexivity|]|exact L1]|split; [reflexivity|lia]].
    apply laid_insert_frame; [lia|exact G1].
Qed.

Lemma laid_elems_alter H l o f ts : forall a vs i c,
  laid_seq (laid H) nodes ts a vs ->
  ts !! i = Some c ->
  (forall a' v, vs !! i = Some v -> laid H c a' v ->
     laid (<[l := o]> H) (f c) a' v /\ nodes (f c) = nodes c /\
     a' <= l < a' + nodes c) ->
  laid_seq (laid (<[l := o]> H)) nodes (alter f i ts) a vs /\
  list_sum (map nodes (alter f i ts)) = list_sum (map nodes ts) /\
  a <= l < a + list_sum (map nodes ts).
Proof.
  induction ts as [|t0 r IH]; intros a [|y ys] i c G Hi Hc;
    try (destruct i; done).
  destruct G as [G1 G2]. destruct i as [|i].
  - change (alter f 0 (t0 :: r)) with (f t0 :: r). simpl in *.
    injection Hi as ->. destruct (Hc a y eq_refl G1) as (L1 & N1 & B1).
    rewrite N1.
    split; [split; [exact L1|]|split; [reflexivity|lia]].
    apply (laid_seq_impl (laid H)); [|exact G2].
    intros t1 a' y1 B2 B3 L2. apply laid_insert_frame; [lia|exact L2].
  - change (alter f (S i) (t0 :: r)) with (t0 :: alter f i r).
    destruct (IH _ _ _ _ G2 Hi Hc) as (L1 & N1 & B1).
    cbn [laid_seq map].
    assert (Hs : forall n ns, list_sum (n :: ns) = n + list_sum ns)
      by reflexivity.
    rewrite !Hs, N1.
    split; [split; [|exact L1]|split; [reflexivity|lia]].
    apply laid_insert_frame; [lia|exact G1].
Qed.




Lemma laid_snapshot H t a v : laid H t a v -> snapshot H v = Some t.
Proof.
  intros L. apply (laid_reify t H a v _ L).
  destruct t; simpl in *; try lia.
  - destruct L as (? & _ & L & _). apply lookup_lt_Some in L. lia.
  - destruct L as (? & _ & L & _). apply lookup_lt_Some in L. lia.
Qed.

(** What [_get] returns on a built value has the picture [t_get] gives. *)
Lemma get_picture t h p :
  snapshot (build t h).2 (_get (build t h).2 (build t h).1 p)
  = Some (t_get t p).
Proof.
  pose proof (build_laid t h []) as L0. rewrite app_nil_r in L0.
  destruct (laid_get _ _ _ _ p L0) as (a' & L).
  exact (laid_snapshot _ _ _ _ L).
Qed.



Lemma assoc_set_get k v ps : assoc_get k ps = Some v -> assoc_set k v ps = ps.
Proof.
  induction ps as [|[k' v'] r IH]; simpl; [done|].
  destruct (String.eqb k' k); [intros [= ->]; reflexivity|].
  intros E. rewrite IH by exact E. reflexivity.
Qed.

(** Assigning to a property the object it holds changes nothing. *)
Lemma assignValue_get H v k u :
  isObject u = true -> get_prop H v k = u -> assignValue H v k u = H.
Proof.
  intros Hu E. destruct u; try discriminate. clear Hu.
  destruct v; try discriminate. simpl in *.
  destruct (H !! l0) as [[ps|es]|] eqn:El; [| |reflexivity].
  - destruct (assoc_get k ps) as [u|] eqn:Ek; [|discriminate].
    simpl in E. subst u. rewrite (assoc_set_get _ _ _ Ek).
    apply list_insert_id, El.
  - destruct (String.eqb k "length"); [discriminate|].
    destruct (parse_index k) as [i|]; [|reflexivity].
    destruct (es !! i) as [u|] eqn:Ei; [|discriminate].
    simpl in E. subst u. unfold array_store.
    pose proof (lookup_lt_Some _ _ _ Ei) as Hlt.
    apply Nat.ltb_lt in Hlt. rewrite Hlt.
    rewrite (list_insert_id _ _ _ Ei). apply list_insert_id, El.
Qed.




Lemma tassoc_alter_same f k ps c :
  tassoc k ps = Some c -> tassoc k (tassoc_alter f k ps) = Some (f c).
Proof.
  induction ps as [|[k' t] r IH]; simpl; [done|].
  destruct (String.eqb k' k) eqn:E; simpl; rewrite E;
    [intros [= ->]; reflexivity|exact IH].
Qed.

Lemma tassoc_alter_has f k ps k2 :
  match tassoc k2 (tassoc_alter f k ps) with Some _ => true | None => false end
  = match tassoc k2 ps with Some _ => true | None => false end.
Proof.
  induction ps as [|[k' t] r IH]; simpl; [done|].
  destruct (String.eqb k' k); simpl; destruct (String.eqb k' k2); auto.
Qed.


Lemma tcastPath_alter g k ps p :
  tcastPath (TObject (tassoc_alter g k ps)) p = tcastPath (TObject ps) p.
Proof. unfold tcastPath, thas_prop. rewrite tassoc_alter_has. reflexivity. Qed.

Lemma primitive_laid x px :
  reify 0 [] x = Some px -> nodes px = 0 /\ forall H a, laid H px a x.
Proof.
  destruct x; simpl; intros E; try discriminate; injection E as <-;
    simpl; auto.
Qed.

Lemma build_laid_here t h : laid (build t h).2 t (length h) (build t h).1.
Proof. pose proof (build_laid t h []) as L. rewrite app_nil_r in L. exact L. Qed.

Lemma includes_built t h n types :
  tkind t = Some n -> existsb (String.eqb n) types = true ->
  includes types (build t h).2 (build t h).1 = true.
Proof.
  intros Hk Hn. unfold includes.
  rewrite (laid_kind _ _ _ _ (build_laid_here t h)), Hk. exact Hn.
Qed.


(** ** Running the methods *)

Lemma usable_inv w :
  usable w = true ->
  isDestroyed (this w) = false /\ cloneLevel (this w) = "deep" /\
  ((persistent (this w) = false /\ db (this w) = None) \/
   (persistent (this w) = true /\
    exists d t, db (this w) = Some d /\ is_open d = true /\ rows d = Some t)).
Proof.
  unfold usable. intros H.
  apply andb_true_iff in H as [H H3]. apply andb_true_iff in H as [H1 H2].
  apply negb_true_iff in H1. apply String.eqb_eq in H2.
  repeat split; auto.
  destruct (db (this w)) as [d|].
  - right. apply andb_true_iff in H3 as [H3 H5].
    apply andb_true_iff in H3 as [H3 H4].
    destruct (rows d) as [t|] eqn:Ht; [|discriminate]. eauto 10.
  - left. apply negb_true_iff in H3. auto.
Qed.

(** The methods are unfolded down to the state they act on; the world is
    opened into its fields; what remains is rewritten with the facts at
    hand, splitting on the flags that are left undetermined. *)
Ltac unfold_methods :=
  repeat progress unfold get, get_key, get_body, has, has_key, has_body,
    _check, _check_key, _check_body, _fetchCheck, fetch, _readyCheck,
    _internalSet, _clone, encode, db_run, db_run_strict, db_get, super_has,
    super_get, super_set, super_delete, call_changedCB, when, self, the_heap,
    emit, bind, ret, throw in *.

Ltac open_world w :=
  let h := fresh "h" in
  let m := fresh "m" in
  let tr := fresh "tr" in
  destruct w as [h m tr];
  destruct m as [es ser deser nm cb dflt odb pers destroyed af lvl];
  simpl in *.

Ltac crunch :=
  repeat first
    [ progress simpl
    | match goal with
      | H : ?x = _ |- context [?x] => rewrite H
      | |- context [base.delete ?k ?m !! ?k] => rewrite (lookup_delete_eq m k)
      | |- context [<[?k := ?v]> ?m !! ?k] => rewrite (lookup_insert_eq m k v)
      | |- context [if ?b then _ else _] => is_var b; destruct b
      | |- context [negb ?b] => is_var b; destruct b
      | |- context [truthy ?d] => is_var d; destruct (truthy d) eqn:?
      end ].

(** A key the map holds is found and read without touching the map. *)
Lemma has_key_present w k v :
  isDestroyed (this w) = false ->
  entries (this w) !! k = Some v ->
  has_key k w = Return true w.
Proof.
  intros Hd He. unfold_methods. rewrite Hd, He. simpl. rewrite He. reflexivity.
Qed.

Lemma get_key_present w k v t :
  usable w = true ->
  entries (this w) !! k = Some v ->
  snapshot (heap w) v = Some t ->
  get_key k w = Return (build t (heap w)).1 (set_heap (build t (heap w)).2 w).
Proof.
  intros Hu He Hs. apply usable_inv in Hu as (Hd & Hc & _).
  open_world w. subst. unfold_methods. unfold cloneDeep.
  crunch; destruct (build t h); reflexivity.
Qed.

(** Stepping through a sequence. *)
Lemma bind_run {A B} (m : M A) (k : A -> M B) w a w1 :
  m w = Return a w1 -> bind m k w = k a w1.
Proof. unfold bind. intros ->. reflexivity. Qed.

Lemma get_None key : get key None = get_key key.
Proof. reflexivity. Qed.

Lemma usable_set_heap h w : usable (set_heap h w) = usable w.
Proof. reflexivity. Qed.

Lemma check_key_present w key v t types :
  usable w = true ->
  entries (this w) !! key = Some v ->
  snapshot (heap w) v = Some t ->
  includes types (build t (heap w)).2 (build t (heap w)).1 = true ->
  _check key types None w = Return tt (set_heap (build t (heap w)).2 w).
Proof.
  intros Hu He Hs Hi.
  unfold _check, _check_body.
  rewrite (bind_run _ _ _ _ _ (has_key_present w key v (proj1 (usable_inv w Hu)) He)).
  simpl.
  rewrite (bind_run _ _ _ _ _ (get_key_present w key v t Hu He Hs)).
  unfold the_heap, bind. simpl. rewrite Hi. reflexivity.
Qed.

Lemma includes_array ts h :
  includes ["Array"] (build (TArray ts) h).2 (build (TArray ts) h).1 = true.
Proof.
  rewrite build_array. unfold includes. simpl.
  rewrite list_lookup_middle by done. reflexivity.
Qed.

Lemma bind_Return {A B} (m : M A) (k : A -> M B) w b w' :
  bind m k w = Return b w' ->
  exists a w1, m w = Return a w1 /\ k a w1 = Return b w'.
Proof.
  unfold bind. destruct (m w) as [a w1|e w1]; [eauto|discriminate].
Qed.

Lemma clone_deep w v t :
  cloneLevel (this w) = "deep" ->
  snapshot (heap w) v = Some t ->
  _clone v w = Return (build t (heap w)).1 (set_heap (build t (heap w)).2 w).
Proof.
  intros Hc Hs. unfold _clone, cloneDeep. rewrite Hc, Hs. simpl.
  destruct (build t (heap w)). reflexivity.
Qed.

Lemma internalSet_returns w key value b t :
  usable w = true ->
  snapshot (heap w) value = Some t ->
  exists w',
    _internalSet key value b w = Return tt w' /\
    entries (this w')
    = (if b then <[key := value]> (entries (this w)) else entries (this w)) /\
    heap w' = heap w /\ usable w' = true /\
    (if persistent (this w)
     then row key w' = Some (serialize (serializer (this w) t key))
     else db (this w') = db (this w)).
Proof.
  intros Hu Hs. pose proof Hu as Hu'.
  apply usable_inv in Hu as (Hd & Hc & Hdb).
  open_world w. subst.
  destruct Hdb as [[-> ->]|(-> & d & t0 & -> & Ho & Hr)].
  - unfold _internalSet. unfold_methods. destruct b; simpl;
      (eexists; split; [reflexivity|]); simpl; auto.
  - unfold _internalSet. unfold_methods. unfold run. crunch;
      (eexists; split; [reflexivity|]); unfold row, usable; simpl;
      rewrite lookup_insert_eq; auto.
Qed.

(** A conjunction of closed equations is settled by evaluation. *)
Ltac evaluate :=
  repeat match goal with |- _ /\ _ => split end; vm_compute; reflexivity.

(** ** The default *)

Lemma get_absent_materializes w key t :
  usable w = true ->
  truthy (default (this w)) = true ->
  snapshot (heap w) (default (this w)) = Some t ->
  entries (this w) !! key = None ->
  (autoFetch (this w) = true -> row key w = None) ->
  exists v w',
    get key None w = Return v w' /\
    snapshot (heap w') v = Some t /\
    entries (this w') = <[key := default (this w)]> (entries (this w)) /\
    (persistent (this w) = true ->
     row key w' = Some (serialize (serializer (this w) t key))) /\
    usable w' = true /\
    default (this w') = default (this w) /\
    has key None w' = Return true w'.
Proof.
  intros Hu Ht Hs He Hrow. pose proof Hu as Hu'.
  apply usable_inv in Hu as (Hd & Hc & Hdb).
  pose proof (snapshot_build t (heap w)) as Hb.
  open_world w. subst.
  destruct Hdb as [[-> ->]|(-> & d & t0 & -> & Ho & Hr)].
  - unfold_methods. unfold cloneDeep. crunch.
    destruct (build t h) as [v' h'] eqn:Eb; simpl in Hb.
    do 2 eexists. split; [reflexivity|]. crunch.
    repeat split; auto; discriminate.
  - unfold row in Hrow. simpl in Hrow. rewrite Hr in Hrow.
    unfold_methods. unfold cloneDeep, run, select_row.
    destruct af.
    + specialize (Hrow eq_refl). crunch.
      destruct (build t h) as [v' h'] eqn:Eb; simpl in Hb.
      do 2 eexists. split; [reflexivity|]. unfold row, usable. crunch.
      repeat split; auto.
    + crunch.
      destruct (build t h) as [v' h'] eqn:Eb; simpl in Hb.
      do 2 eexists. split; [reflexivity|]. unfold row, usable. crunch.
      repeat split; auto.
Qed.






(** ** The order of notification and writes in [set] *)

Lemma quiet_bind {A B} (m : M A) (k : A -> M B) :
  quiet m -> (forall a, quiet (k a)) -> quiet (bind m k).
Proof.
  intros Hm Hk w b w' H. apply bind_Return in H as (a & w1 & H1 & H2).
  destruct (Hm _ _ _ H1) as (E1 & evs1 & T1 & S1).
  destruct (Hk a _ _ _ H2) as (E2 & evs2 & T2 & S2).
  split; [congruence|]. exists (evs1 ++ evs2).
  rewrite T2, T1, app_assoc. split; [done|]. apply Forall_app; auto.
Qed.

Lemma quiet_same {A} (m : M A) : heap_only m -> quiet m.
Proof.
  intros H w a w' E. destruct (H _ _ _ E) as [-> ->].
  split; [done|]. exists []. rewrite app_nil_r. auto.
Qed.

Lemma quiet_ret {A} (a : A) : quiet (ret a).
Proof. apply quiet_same. intros w a' w' [= <- <-]. done. Qed.

Lemma quiet_throw {A} e : quiet (@throw A e).
Proof. intros w a w' [=]. Qed.

Lemma quiet_when b m : quiet m -> quiet (when b m).
Proof. destruct b; simpl; auto using quiet_ret. Qed.

Lemma quiet_self : quiet self.
Proof. apply quiet_same. intros w a w' [= <- <-]. done. Qed.

Lemma quiet_the_heap : quiet the_heap.
Proof. apply quiet_same. intros w a w' [= <- <-]. done. Qed.

Lemma quiet_super_has key : quiet (super_has key).
Proof. apply quiet_same. intros w a w' [= <- <-]. done. Qed.

Lemma quiet_super_get key : quiet (super_get key).
Proof. apply quiet_same. intros w a w' [= <- <-]. done. Qed.

Lemma quiet_super_set key v : quiet (super_set key v).
Proof.
  intros w a w' [= <- <-]. split; [done|]. exists [MapSet key]. simpl.
  split; [done|]. repeat constructor.
Qed.

Lemma quiet_readyCheck : quiet _readyCheck.
Proof.
  apply quiet_bind; [apply quiet_self|]. intros m.
  destruct (isDestroyed m); auto using quiet_ret, quiet_throw.
Qed.

Lemma quiet_parseData data key : quiet (_parseData data key).
Proof.
  apply quiet_same. intros w a w'. unfold _parseData.
  destruct (build _ _). intros [= <- <-]. done.
Qed.

Lemma quiet_db_get key : quiet (db_get key).
Proof.
  apply quiet_same. intros w a w'. unfold db_get.
  destruct (db (this w)) as [d|]; [destruct (select_row d key)|];
    intros [= <- <-]; done.
Qed.

Lemma quiet_db_run st : quiet (db_run st).
Proof.
  intros w a w'. unfold db_run.
  destruct (db (this w)) as [d|]; [destruct (run d st)|]; intros [= <- <-].
  - split; [done|]. exists [Ran st]. split; [done|]. repeat constructor.
  - split; [done|]. exists []. rewrite app_nil_r. auto.
Qed.

Lemma quiet_encode v key : quiet (encode v key).
Proof.
  apply quiet_same. intros w a w'. unfold encode.
  destruct (snapshot _ _); intros [= <- <-]; done.
Qed.

Lemma heap_only_clone v : heap_only (_clone v).
Proof.
  intros w a w'. unfold _clone.
  repeat match goal with
         | |- context [if ?b then _ else _] => destruct b
         | |- context [let '(_, _) := ?p in _] => destruct p
         | |- context [match ?p with Some _ => _ | None => _ end] => destruct p
         end; intros [= <- <-]; done.
Qed.

Lemma quiet_clone v : quiet (_clone v).
Proof. apply quiet_same, heap_only_clone. Qed.

Create HintDb quiet.
#[local] Hint Resolve quiet_ret quiet_throw quiet_when quiet_self quiet_the_heap
  quiet_super_has quiet_super_get quiet_super_set quiet_readyCheck
  quiet_parseData quiet_db_get quiet_db_run quiet_encode quiet_clone : quiet.

Ltac quiet_steps :=
  repeat first
    [ apply quiet_bind; [|intros ?]
    | apply quiet_when
    | match goal with
      | |- quiet (if ?b then _ else _) => destruct b
      | |- quiet (match ?o with Some _ => _ | None => _ end) => destruct o
      end
    | solve [auto with quiet] ].

Lemma quiet_fetchCheck key : quiet (_fetchCheck key).
Proof. unfold _fetchCheck. quiet_steps. Qed.

Lemma quiet_internalSet key v b : quiet (_internalSet key v b).
Proof. unfold _internalSet. quiet_steps. Qed.

Lemma quiet_get_key key : quiet (get key None).
Proof. unfold get, get_body. quiet_steps. Qed.


(** [set(key, value)] on a key the map holds returns, and the map then
    holds a copy of the value. *)
Lemma set_present_returns w key v t value t' :
  usable w = true ->
  entries (this w) !! key = Some v ->
  snapshot (heap w) v = Some t ->
  snapshot (heap w) value = Some t' ->
  exists w' v',
    set key value None w = Return tt w' /\
    entries (this w') !! key = Some v' /\
    snapshot (heap w') v' = Some t' /\
    (persistent (this w) = true ->
     row key w' = Some (serialize (serializer (this w) t' key))).
Proof.
  intros Hu He Hs Hv.
  destruct (usable_inv w Hu) as (Hd & Hc & _).
  unfold set. rewrite get_None.
  rewrite (bind_run _ _ _ _ _ (get_key_present w key v t Hu He Hs)).
  set (w1 := set_heap (build t (heap w)).2 w).
  assert (Hhas : super_has key w1 = Return true w1)
    by (unfold super_has; simpl; rewrite He; reflexivity).
  rewrite (bind_run _ _ _ _ _ Hhas).
  rewrite (bind_run _ _ _ _ _
             (clone_deep w1 _ t Hc (snapshot_build t (heap w)))).
  set (w2 := set_heap (build t (heap w1)).2 w1).
  rewrite (bind_run _ _ _ _ _ (eq_refl : ret value w2 = Return value w2)).
  rewrite (bind_run _ _ _ _ _ (eq_refl : self w2 = Return (this w2) w2)).
  assert (Hv2 : snapshot (heap w2) value = Some t').
  { destruct (build_extends t (heap w)) as (e1 & E1).
    destruct (build_extends t (heap w1)) as (e2 & E2).
    simpl. unfold w1 in E2 |- *. simpl in E2 |- *.
    rewrite E2, E1, <- app_assoc. apply snapshot_extend, Hv. }
  assert (exists w3, when (changedCB (this w2))
                       (call_changedCB key (build t (heap w1)).1 value) w2
                     = Return tt w3 /\ heap w3 = heap w2 /\ this w3 = this w2)
    as (w3 & Hcb & Hh3 & Ht3).
  { destruct (changedCB (this w2)); simpl; eexists; split;
      try reflexivity; auto. }
  rewrite (bind_run _ _ _ _ _ Hcb).
  assert (Hu3 : usable w3 = true) by (unfold usable; rewrite Ht3; exact Hu).
  destruct (internalSet_returns w3 key value false t' Hu3)
    as (w4 & Hset & Hent & Hh4 & Hu4 & Hrow); [rewrite Hh3; exact Hv2|].
  rewrite (bind_run _ _ _ _ _ Hset).
  destruct (usable_inv w4 Hu4) as (_ & Hc4 & _).
  assert (Hv4 : snapshot (heap w4) value = Some t')
    by (rewrite Hh4, Hh3; exact Hv2).
  rewrite (bind_run _ _ _ _ _ (clone_deep w4 value t' Hc4 Hv4)).
  do 2 eexists. split; [reflexivity|]. simpl.
  rewrite lookup_insert_eq. split; [reflexivity|].
  split; [apply snapshot_build|].
  intros Hp. unfold row in *. simpl.
  rewrite Ht3 in Hrow. simpl in Hrow. rewrite Hp in Hrow. exact Hrow.
Qed.




(** ** Failure of the database *)

(** [_internalSet] commits to the map last: when it throws, the map is as
    it was. *)
Lemma internalSet_throw_keeps_entries key value updateCache w e w' :
  _internalSet key value updateCache w = Throw e w' ->
  entries (this w') = entries (this w).
Proof.
  unfold _internalSet, encode, db_run, super_set, when, self, bind, ret.
  destruct (persistent (this w)).
  - destruct (snapshot (heap w) value) as [t|].
    + destruct (db (this w)) as [d|] eqn:Ed; rewrite ?Ed.
      * destruct (run d (InsertOrReplace key (serialize (serializer (this w) t key)))) as [d'|].
        -- destruct updateCache; intros H; discriminate H.
        -- intros H. injection H as <- <-. reflexivity.
      * destruct updateCache; intros H; discriminate H.
    + intros H. injection H as <- <-. reflexivity.
  - destruct updateCache; intros H; discriminate H.
Qed.

(** C3.  On the map that holds ['integer'], once the connection is closed
    [delete('integer')] throws from the database, yet the entry has
    already left the map, while the row is still in the table. *)
Theorem delete_uncaches_before_persisting :
  exists w1 w2,
    entries (this integer_world) !! "integer" = Some (VNum 42%float) /\
    row "integer" integer_world = Some (serialize (TNum 42%float)) /\
    close integer_world = Return tt w1 /\
    delete "integer" None w1 = Throw SqliteError w2 /\
    entries (this w2) !! "integer" = None /\
    row "integer" w2 = Some (serialize (TNum 42%float)).
Proof.
  do 2 eexists. evaluate.
Qed.

(** ** Isolation of the values returned *)

(** What [get(key)] returns is a copy: after the caller assigns to it, a
    later [get(key)] returns what the first did. *)
Lemma get_copy_isolated w key v t k x :
  usable w = true ->
  entries (this w) !! key = Some v ->
  snapshot (heap w) v = Some t ->
  exists v' w1 w2 w3,
    get key None w = Return v' w1 /\
    snapshot (heap w1) v' = Some t /\
    mutate v' k x w1 = Return tt w2 /\
    look key w2 = Return (Some t) w3.
Proof.
  intros Hu He Hs.
  destruct (assign_built t (heap w) k x) as (ext & E).
  do 4 eexists.
  split; [rewrite get_None; apply (get_key_present w key v t Hu He Hs)|].
  split; [apply snapshot_build|].
  split; [reflexivity|].
  unfold look. rewrite get_None.
  erewrite bind_run; cycle 1.
  { eapply (get_key_present _ key v t); [exact Hu|exact He|].
    simpl. rewrite E. apply snapshot_extend, Hs. }
  unfold the_heap, bind, ret. simpl. rewrite snapshot_build. reflexivity.
Qed.

(** C4.  With ['k'] holding [{ a: { b: 1 } }] on a map that clones deeply,
    the object [get('k', 'a')] returns is the one the map retains: after
    the caller sets its field [b] to 2, [get('k')] returns
    [{ a: { b: 2 } }].  The same assignment on what [get('k')] returns
    leaves the later [get('k')] as it was. *)
Theorem get_path_aliases :
  cloneLevel (this (world_with "k" object_nested)) = "deep" /\
  (exists w',
     (x <- get "k" (Some "a") ;;
      mutate x "b" (VNum 2%float) ;;
      look "k") (world_with "k" object_nested)
     = Return (Some (TObject [("a", TObject [("b", TNum 2%float)])])) w') /\
  (exists w',
     (x <- get "k" None ;;
      mutate x "a" (VNum 2%float) ;;
      look "k") (world_with "k" object_nested)
     = Return (Some object_nested) w').
Proof.
  split; [vm_compute; reflexivity|].
  split; eexists; vm_compute; reflexivity.
Qed.

(** ** The counter *)

(** C5.  On a fresh persistent map, whose counter row holds 0, the first
    [autonum] returns ["[object Object]1"], not ["1"], writes that string
    to the counter row, and the second [autonum] returns the same key. *)
Theorem autonum_repeats :
  exists w0 w1 w2,
    memory_enmap VUndef [] = Return tt w0 /\
    counter w0 = Some (SqlReal 0%float) /\
    autonum w0 = Return "[object Object]1" w1 /\
    counter w1 = Some (SqlText "[object Object]1") /\
    autonum w1 = Return "[object Object]1" w2.
Proof.
  do 3 eexists. evaluate.
Qed.

(** ** Deleting a key *)

(** C6.  On a usable map that holds [key], [delete(key)] returns; the
    entry is gone from the map and, on a persistent map, the row is gone
    from the table; the events of the call are the removal from the map,
    followed on a persistent map by the [DELETE] statement and no call of
    the callback, and on a map in memory only by the call of the callback
    (when one is registered) with the old value and [null]; and [has(key)]
    then returns false, whatever the default. *)
Theorem delete_removes_entry w key v t :
  usable w = true ->
  entries (this w) !! key = Some v ->
  snapshot (heap w) v = Some t ->
  exists w',
    delete key None w = Return tt w' /\
    entries (this w') = base.delete key (entries (this w)) /\
    (forall d, db (this w) = Some d ->
       exists d', db (this w') = Some d' /\
                  rows d' = base.delete key <$> rows d) /\
    trace w' = trace w ++ MapDelete key ::
      (if persistent (this w) then [Ran (DeleteWhereKey key)]
       else if changedCB (this w) then [Changed key (Some t) (Some TNull)]
       else []) /\
    has key None w' = Return false w'.
Proof.
  intros Hu He Hs. apply usable_inv in Hu as (Hd & Hc & Hdb).
  pose proof (snapshot_build t (heap w)) as Hb.
  open_world w. subst.
  destruct Hdb as [[-> ->]|(-> & d & t0 & -> & Ho & Hr)].
  - unfold delete. unfold_methods. unfold cloneDeep.
    crunch; destruct (build t h) as [v' h'] eqn:Eb; simpl in Hb; crunch;
      (eexists; split; [reflexivity|]); crunch; repeat split; try done;
      rewrite <- app_assoc; reflexivity.
  - unfold delete. unfold_methods. unfold cloneDeep, run, select_row.
    crunch; destruct (build t h) as [v' h'] eqn:Eb; simpl in Hb; crunch;
      (eexists; split; [reflexivity|]); crunch; repeat split; try done;
      try (rewrite <- app_assoc; reflexivity);
      intros d0 [= <-]; eexists; (split; [reflexivity|]); simpl;
      rewrite Hr; done.
Qed.

Lemma delete_removes_entry_witness :
  exists w',
    delete "integer" None integer_world = Return tt w' /\
    entries (this w') = base.delete "integer" (entries (this integer_world)) /\
    (forall d, db (this integer_world) = Some d ->
       exists d', db (this w') = Some d' /\
                  rows d' = base.delete "integer" <$> rows d) /\
    trace w' = trace integer_world ++ MapDelete "integer" ::
      (if persistent (this integer_world)
       then [Ran (DeleteWhereKey "integer")]
       else if changedCB (this integer_world)
            then [Changed "integer" (Some (TNum 42%float)) (Some TNull)]
            else []) /\
    has "integer" None w' = Return false w'.
Proof.
  apply (delete_removes_entry integer_world "integer" (VNum 42%float)
           (TNum 42%float));
    vm_compute; reflexivity.
Defined.

(** C7.  [delete(key, path)] never returns: past the reads, the call
    evaluates the identifier [isArray], which the module does not bind.
    With ['obj'] holding [{ a: 1, b: 2 }], [delete('obj', 'a')] throws a
    [ReferenceError] and the entry is as before. *)
Theorem delete_path_throws :
  (forall w key path, exists e w', delete key (Some path) w = Throw e w') /\
  (exists w',
     delete "obj" (Some "a") (world_with "obj" object_ab)
     = Throw (ReferenceError "isArray") w' /\
     exists w'', look "obj" w' = Return (Some object_ab) w'').
Proof.
  split.
  - intros w key path. unfold delete, bind.
    destruct (_readyCheck w) as [? w1|]; [|eauto].
    destruct (_fetchCheck key w1) as [? w2|]; [|eauto].
    destruct (get key None w2) as [? w3|]; [|eauto].
    destruct (get key None w3) as [? w4|]; [|eauto].
    simpl. eauto.
  - eexists. split; [vm_compute; reflexivity|].
    eexists. vm_compute. reflexivity.
Qed.

(** ** After [destroy] *)

(** On a destroyed map every method that performs the ready check throws
    at that check, and the world is as it was. *)
Section Destroyed.
Variable w : World.
Hypothesis Hdestroyed : isDestroyed (this w) = true.

Lemma readyCheck_destroyed : _readyCheck w = Throw EnhancedMapDestroyedError w.
Proof. unfold _readyCheck, bind, self. rewrite Hdestroyed. reflexivity. Qed.

Lemma has_key_destroyed key : has_key key w = Throw EnhancedMapDestroyedError w.
Proof. unfold has_key, has_body, bind. rewrite readyCheck_destroyed. reflexivity. Qed.

Lemma get_destroyed key path : get key path w = Throw EnhancedMapDestroyedError w.
Proof. unfold get, get_body, bind. rewrite readyCheck_destroyed. reflexivity. Qed.

Lemma has_destroyed key path : has key path w = Throw EnhancedMapDestroyedError w.
Proof. unfold has, has_body, bind. rewrite readyCheck_destroyed. reflexivity. Qed.

Lemma check_destroyed key types path :
  _check key types path w = Throw EnhancedMapDestroyedError w.
Proof. unfold _check, _check_body, bind. rewrite has_key_destroyed. reflexivity. Qed.

Lemma set_destroyed key value path :
  set key value path w = Throw EnhancedMapDestroyedError w.
Proof. unfold set, bind. rewrite get_destroyed. reflexivity. Qed.

Lemma delete_destroyed key path :
  delete key path w = Throw EnhancedMapDestroyedError w.
Proof. unfold delete, bind. rewrite readyCheck_destroyed. reflexivity. Qed.

Lemma push_destroyed key x path allowDupes :
  push key x path allowDupes w = Throw EnhancedMapDestroyedError w.
Proof. unfold push, bind. rewrite get_destroyed. reflexivity. Qed.

Lemma math_destroyed pow rem key op operand path :
  math pow rem key op operand path w = Throw EnhancedMapDestroyedError w.
Proof. unfold math, bind. rewrite check_destroyed. reflexivity. Qed.

Lemma inc_dec_destroyed f key path :
  inc_dec f key path w = Throw EnhancedMapDestroyedError w.
Proof. unfold inc_dec, bind. rewrite check_destroyed. reflexivity. Qed.

Lemma deleteAll_destroyed : deleteAll w = Throw EnhancedMapDestroyedError w.
Proof. unfold deleteAll, bind. rewrite readyCheck_destroyed. reflexivity. Qed.

Lemma destroy_destroyed : destroy w = Throw EnhancedMapDestroyedError w.
Proof. unfold destroy, bind. rewrite deleteAll_destroyed. reflexivity. Qed.

Lemma close_destroyed : close w = Throw EnhancedMapDestroyedError w.
Proof. unfold close, bind. rewrite readyCheck_destroyed. reflexivity. Qed.

Lemma fetch_destroyed key : fetch key w = Throw EnhancedMapDestroyedError w.
Proof. unfold fetch, bind. rewrite readyCheck_destroyed. reflexivity. Qed.

Lemma fetchEverything_destroyed :
  fetchEverything w = Throw EnhancedMapDestroyedError w.
Proof.
  unfold fetchEverything, bind. rewrite readyCheck_destroyed. reflexivity.
Qed.

Lemma includes_destroyed key x path :
  includes' key x path w = Throw EnhancedMapDestroyedError w.
Proof. unfold includes', bind. rewrite readyCheck_destroyed. reflexivity. Qed.

Lemma remove_destroyed key x path :
  remove key x path w = Throw EnhancedMapDestroyedError w.
Proof. unfold remove, bind. rewrite readyCheck_destroyed. reflexivity. Qed.

End Destroyed.

Lemma destroy_marks w0 :
  usable w0 = true ->
  isDestroyed (this (final (destroy w0))) = true /\
  entries (this (final (destroy w0))) = ∅.
Proof.
  intros Hu. apply usable_inv in Hu as (Hd & Hc & Hdb).
  open_world w0. subst.
  destruct Hdb as [[-> ->]|(-> & d & t & -> & Ho & Hr)].
  - split; reflexivity.
  - unfold destroy, deleteAll, transaction. unfold_methods. unfold run. crunch.
    destruct (autonum_rows d); split; reflexivity.
Qed.

Lemma destroy_drops w0 d c :
  usable w0 = true ->
  db (this w0) = Some d ->
  autonum_rows d = Some c ->
  exists w d',
    destroy w0 = Return tt w /\ db (this w) = Some d' /\
    rows d' = None /\ autonum_rows d' = Some (base.delete (name (this w0)) c).
Proof.
  intros Hu Ed Ec. apply usable_inv in Hu as (Hd & Hc & Hdb).
  open_world w0. subst.
  destruct Hdb as [[-> [=]]|(-> & d0 & t & [= <-] & Ho & Hr)].
  unfold destroy, deleteAll, transaction. unfold_methods. unfold run. crunch.
  do 2 eexists. split; [reflexivity|]. simpl. auto.
Qed.

(** The getter [autonum] on a destroyed map: the row of the counter is
    gone, [undefined + 1] is [NaN], and [NaN] is written as the new
    counter. *)
Lemma autonum_after_destroy w0 d c :
  usable w0 = true ->
  db (this w0) = Some d ->
  autonum_rows d = Some c ->
  exists w',
    autonum (final (destroy w0)) = Return "NaN" w' /\
    counter w' = Some SqlNull /\
    isDestroyed (this w') = true /\
    trace w'
    = trace (final (destroy w0))
      ++ [Ran (InsertAutonum (name (this w0)) SqlNull)].
Proof.
  intros Hu Ed Ec. apply usable_inv in Hu as (Hd & Hc & Hdb).
  open_world w0. subst.
  destruct Hdb as [[-> [=]]|(-> & d0 & t & [= <-] & Ho & Hr)].
  unfold destroy, deleteAll, transaction, autonum, db_get_lastnum.
  unfold_methods. unfold run. crunch.
  eexists. split; [reflexivity|].
  split; [unfold counter; simpl; apply lookup_insert_eq|].
  split; reflexivity.
Qed.

Lemma autonum_after_destroy_cache w0 :
  usable w0 = true ->
  db (this w0) = None ->
  autonum (final (destroy w0)) = Return "NaN" (final (destroy w0)).
Proof.
  intros Hu Ed. apply usable_inv in Hu as (Hd & Hc & Hdb).
  open_world w0. subst.
  destruct Hdb as [[-> _]|(_ & d0 & t & [=] & _)].
  reflexivity.
Qed.

(** C8.  [destroy()] on a usable map empties it and marks it destroyed
    (on a persistent map whose counter table exists it returns, with the
    table dropped and the counter row deleted); from then on the methods
    that run the ready check throw a [DestroyedError] and change
    nothing: [get], [has], [set], [delete], [push], [math], [inc],
    [dec], [includes], [remove], [fetch], [fetchEverything],
    [deleteAll], [clear], [destroy] and [close].  [evict] and the getter
    [autonum] run no ready check, and do not fail: on the destroyed map
    [evict(key)] returns for every key, and [autonum] returns ['NaN'],
    having written, on a persistent map, a counter row for the destroyed
    map. *)
Theorem evict_and_autonum_ignore_destroy
  (Math_pow remainder : float -> float -> float) w0 w :
  usable w0 = true ->
  w = final (destroy w0) ->
  isDestroyed (this w) = true /\
  entries (this w) = ∅ /\
  (forall d c, db (this w0) = Some d -> autonum_rows d = Some c ->
     exists d', destroy w0 = Return tt w /\ db (this w) = Some d' /\
       rows d' = None /\
       autonum_rows d' = Some (base.delete (name (this w0)) c)) /\
  (forall key path, get key path w = Throw EnhancedMapDestroyedError w) /\
  (forall key path, has key path w = Throw EnhancedMapDestroyedError w) /\
  (forall key value path,
     set key value path w = Throw EnhancedMapDestroyedError w) /\
  (forall key path, delete key path w = Throw EnhancedMapDestroyedError w) /\
  (forall key x path allowDupes,
     push key x path allowDupes w = Throw EnhancedMapDestroyedError w) /\
  (forall key op operand path,
     math Math_pow remainder key op operand path w
     = Throw EnhancedMapDestroyedError w) /\
  (forall key path, inc key path w = Throw EnhancedMapDestroyedError w) /\
  (forall key path, dec key path w = Throw EnhancedMapDestroyedError w) /\
  (forall key x path,
     includes' key x path w = Throw EnhancedMapDestroyedError w) /\
  (forall key x path,
     remove key x path w = Throw EnhancedMapDestroyedError w) /\
  (forall key, fetch key w = Throw EnhancedMapDestroyedError w) /\
  fetchEverything w = Throw EnhancedMapDestroyedError w /\
  deleteAll w = Throw EnhancedMapDestroyedError w /\
  clear w = Throw EnhancedMapDestroyedError w /\
  destroy w = Throw EnhancedMapDestroyedError w /\
  close w = Throw EnhancedMapDestroyedError w /\
  (forall key,
     exists w', evict key w = Return tt w' /\
                isDestroyed (this w') = true /\
                trace w' = trace w ++ [MapDelete key]) /\
  (db (this w0) = None -> autonum w = Return "NaN" w) /\
  (forall d c, db (this w0) = Some d -> autonum_rows d = Some c ->
     exists w', autonum w = Return "NaN" w' /\
                counter w' = Some SqlNull /\
                isDestroyed (this w') = true /\
                trace w'
                = trace w ++ [Ran (InsertAutonum (name (this w0)) SqlNull)]).
Proof.
  intros Hu ->. destruct (destroy_marks w0 Hu) as [Hd He].
  split; [exact Hd|]. split; [exact He|].
  split.
  { intros d c Ed Ec.
    destruct (destroy_drops w0 d c Hu Ed Ec) as (w & d' & E & H1 & H2 & H3).
    rewrite E. simpl. eauto. }
  repeat match goal with |- _ /\ _ => split end; intros;
    eauto using get_destroyed, has_destroyed, set_destroyed, delete_destroyed,
      push_destroyed, math_destroyed, inc_dec_destroyed, fetch_destroyed,
      deleteAll_destroyed, destroy_destroyed, close_destroyed,
      includes_destroyed, remove_destroyed, fetchEverything_destroyed,
      autonum_after_destroy, autonum_after_destroy_cache.
Qed.

Lemma evict_and_autonum_ignore_destroy_witness :
  isDestroyed (this (final (destroy integer_world))) = true /\
  (exists w',
     evict "integer" (final (destroy integer_world)) = Return tt w' /\
     isDestroyed (this w') = true) /\
  (exists w',
     autonum (final (destroy integer_world)) = Return "NaN" w' /\
     counter w' = Some SqlNull /\
     isDestroyed (this w') = true).
Proof.
  destruct (evict_and_autonum_ignore_destroy (fun a _ => a) (fun a _ => a)
              integer_world (final (destroy integer_world)))
    as (H1 & _ & _ & _ & _ & _ & _ & _ & _ & _ & _ & _ & _ & _ & _ & _ & _
        & _ & _ & H2 & _ & H3);
    try (vm_compute; reflexivity).
  split; [exact H1|]. split.
  - destruct (H2 "integer") as (w' & E1 & E2 & _). exists w'. auto.
  - destruct (H3 (from_option id fresh (db (this integer_world)))
                (from_option id ∅
                   (autonum_rows
                      (from_option id fresh (db (this integer_world))))))
      as (w' & E1 & E2 & E3 & _); try (vm_compute; reflexivity).
    exists w'. auto.
Defined.

(** ** Pushing to an array *)

Section Push.
Variables (w : World) (key : string) (v x : val) (ts : list tree) (px : tree).
Hypothesis Hu : usable w = true.
Hypothesis He : entries (this w) !! key = Some v.
Hypothesis Hs : snapshot (heap w) v = Some (TArray ts).
Hypothesis Hx : reify 0 [] x = Some px.

Let h1a := (thread build ts (heap w)).2.
Let vs1 := (thread build ts (heap w)).1.
Let h1 := h1a ++ [OArray vs1].
Let h2 := (build (TArray ts) h1).2.

Lemma push_reads :
  push key x None false w
  = (es <- elements (VRef (length h1a)) ;;
     if negb false && indexOf_found es x then ret tt
     else (array_push (VRef (length h1a)) x ;;
           _internalSet key (VRef (length h1a)) true))
      (set_heap h2 w).
Proof.
  unfold push. rewrite get_None.
  rewrite (bind_run _ _ _ _ _ (get_key_present w key v _ Hu He Hs)).
  rewrite build_array. simpl fst. simpl snd. fold h1a vs1 h1.
  assert (Hs1 : snapshot (heap (set_heap h1 w)) v = Some (TArray ts)).
  { simpl. unfold h1, h1a.
    destruct (thread_build_array ts (Forall_true _ _ build_spec) (heap w))
      as (seg & E & _). rewrite E, <- app_assoc. apply snapshot_extend, Hs. }
  rewrite (bind_run _ _ _ _ _
             (check_key_present (set_heap h1 w) key v _ ["Array"] Hu He Hs1
                (includes_array ts h1))).
  reflexivity.
Qed.

Lemma push_heap :
  exists rest, h2 = h1a ++ OArray vs1 :: rest /\
    list_sum (map nodes ts) <= length h1a.
Proof.
  unfold h2. rewrite build_array.
  destruct (thread_build_array ts (Forall_true _ _ build_spec) h1)
    as (seg & E & _). simpl. rewrite E. unfold h1.
  exists (seg ++ [OArray (thread build ts (h1a ++ [OArray vs1])).1]).
  split; [rewrite <- !app_assoc; reflexivity|].
  destruct (thread_build_array ts (Forall_true _ _ build_spec) (heap w))
    as (seg0 & E0 & L0 & _). unfold h1a. rewrite E0, length_app. lia.
Qed.


Lemma push_appended_picture rest :
  list_sum (map nodes ts) <= length h1a ->
  snapshot (h1a ++ OArray (vs1 ++ [x]) :: rest) (VRef (length h1a))
  = Some (TArray (ts ++ [px])).
Proof.
  intros Hn. unfold snapshot. simpl.
  rewrite list_lookup_middle by done. simpl.
  apply fmap_Some. exists (ts ++ [px]). split; [|done].
  apply mapM_Some. apply Forall2_app.
  - destruct (thread_build_array ts (Forall_true _ _ build_spec) (heap w))
      as (seg & E & L & R).
    apply R. unfold h1a in *. rewrite length_app. lia.
  - constructor; [|constructor]. apply reify_primitive, Hx.
Qed.

Lemma push_not_found :
  existsb (fun t => picture_eq t x) ts = false ->
  exists rest,
    push key x None false w
    = _internalSet key (VRef (length h1a)) true
        (set_heap (h1a ++ OArray (vs1 ++ [x]) :: rest) w) /\
    snapshot (h1a ++ OArray (vs1 ++ [x]) :: rest) (VRef (length h1a))
    = Some (TArray (ts ++ [px])).
Proof.
  intros Hf. rewrite push_reads.
  destruct push_heap as (rest & E & Hn). exists rest.
  split; [|apply push_appended_picture, Hn].
  unfold elements, array_push, bind. simpl. rewrite E.
  rewrite list_lookup_middle by done.
  unfold vs1 at 1. rewrite thread_indexOf by (eapply primitive_not_object, Hx).
  rewrite Hf. simpl. rewrite list_lookup_middle by done.
  rewrite insert_app_r_alt by lia. rewrite Nat.sub_diag. reflexivity.
Qed.


End Push.

(** *** With a path *)

Lemma bind_the_heap {B} (k : list obj -> M B) w :
  bind the_heap k w = k (heap w) w.
Proof. reflexivity. Qed.

(** [_check(key, types, path)] returns when the key holds a plain object
    and the path leads in it to a value of one of the types. *)
Lemma check_path_present w key v t p n types :
  usable w = true ->
  entries (this w) !! key = Some v ->
  snapshot (heap w) v = Some t ->
  tkind t = Some "Object" ->
  tkind (t_get t p) = Some n ->
  existsb (String.eqb n) types = true ->
  _check key types (Some p) w
  = Return tt (set_heap (build t (build t (heap w)).2).2 w).
Proof.
  intros Hu He Hs Hk Hn Ht.
  destruct (usable_inv w Hu) as (Hd & _ & _).
  unfold _check, _check_body.
  rewrite (bind_run _ _ _ _ _ (has_key_present w key v Hd He)).
  cbn [negb].
  rewrite (bind_run _ _ _ _ _
             (check_key_present w key v t ["Object"] Hu He Hs
                (includes_built t (heap w) "Object" ["Object"] Hk eq_refl)
              : _check_key key ["Object"] w = Return tt _)).
  set (w2 := set_heap (build t (heap w)).2 w).
  assert (Hs2 : snapshot (heap w2) v = Some t).
  { destruct (build_extends t (heap w)) as (ext & E). unfold w2.
    cbn [heap set_heap]. rewrite E. apply snapshot_extend, Hs. }
  rewrite (bind_run _ _ _ _ _
             (get_key_present w2 key v t Hu He Hs2)).
  rewrite bind_the_heap. cbn [heap set_heap]. unfold w2. cbn [heap set_heap].
  destruct (laid_get _ _ _ _ p (build_laid_here t (build t (heap w)).2))
    as (a' & L).
  rewrite (laid_isNil _ _ _ _ L).
  unfold includes. rewrite (laid_kind _ _ _ _ L), Hn, Ht.
  destruct (t_get t p); try discriminate; reflexivity.
Qed.

Section PushPath.
Variables (w : World) (key : string) (v x : val) (t : tree) (p : string).
Variables (ts : list tree) (px : tree).
Hypothesis Hu : usable w = true.
Hypothesis He : entries (this w) !! key = Some v.
Hypothesis Hs : snapshot (heap w) v = Some t.
Hypothesis Hk : tkind t = Some "Object".
Hypothesis Hg : t_get t p = TArray ts.
Hypothesis Hx : reify 0 [] x = Some px.

Let d := (build t (heap w)).1.
Let h1 := (build t (heap w)).2.
Let h3 := (build t (build t h1).2).2.





End PushPath.








(** ** Arithmetic on a stored number *)

(** C10.  On a usable map whose key holds the number [n], [math] with any
    of the eighteen spellings and any operand is [set] of the key to the
    result of the operation the spelling stands for, applied to [n] and
    the operand; that [set] returns and leaves the result under the key;
    [inc] and [dec] return and leave [n + 1] and [n - 1].  On a fresh map,
    after [set('integer', 42)], [math('integer', '+', 5)] leaves 47, [inc]
    then 48 and [dec] then 47; and with a path, as in the documentation,
    adding 10 at ['sub.anInt'] of [{ sub: { anInt: 5 } }] leaves
    [{ sub: { anInt: 15 } }]. *)
Theorem math_applies_operation
  (Math_pow remainder : float -> float -> float) w key n :
  usable w = true ->
  entries (this w) !! key = Some (VNum n) ->
  (forall op operand,
     math Math_pow remainder key op operand None w
     = set key (VNum (apply Math_pow remainder (meaning op) n operand)) None w /\
     exists w',
       set key (VNum (apply Math_pow remainder (meaning op) n operand)) None w
       = Return tt w' /\
       entries (this w') !! key
       = Some (VNum (apply Math_pow remainder (meaning op) n operand))) /\
  (exists w', inc key None w = Return tt w' /\
     entries (this w') !! key = Some (VNum (PrimFloat.add n 1%float))) /\
  (exists w', dec key None w = Return tt w' /\
     entries (this w') !! key = Some (VNum (PrimFloat.sub n 1%float))) /\
  (exists w', integer_scenario Math_pow remainder
              = Return (VNum 47%float, VNum 48%float, VNum 47%float) w') /\
  (exists w',
     (math Math_pow remainder "numberInObject" Op_plus 10%float
        (Some "sub.anInt") ;;
      look "numberInObject") (world_with "numberInObject" object_sub)
     = Return (Some (TObject [("sub", TObject [("anInt", TNum 15%float)])]))
         w').
Proof.
  intros Hu He. apply usable_inv in Hu as (Hd & Hc & Hdb).
  open_world w. subst.
  assert (Hscenario :
            (exists w', integer_scenario Math_pow remainder
               = Return (VNum 47%float, VNum 48%float, VNum 47%float) w') /\
            (exists w',
               (math Math_pow remainder "numberInObject" Op_plus 10%float
                  (Some "sub.anInt") ;;
                look "numberInObject") (world_with "numberInObject" object_sub)
               = Return
                   (Some (TObject [("sub", TObject [("anInt", TNum 15%float)])]))
                   w'))
    by (split; eexists; vm_compute; reflexivity).
  destruct Hdb as [[-> ->]|(-> & d & t & -> & Ho & Hr)].
  - split; [|split; [|split]]; [| | |exact Hscenario].
    + intros op operand. split.
      * unfold math, _mathop, set. unfold_methods. unfold cloneDeep.
        destruct op; crunch; reflexivity.
      * unfold set. unfold_methods. unfold cloneDeep.
        crunch; eexists; (split; [reflexivity|]); simpl;
          apply lookup_insert_eq.
    + unfold inc, inc_dec, step. unfold_methods. unfold cloneDeep.
      crunch; eexists; (split; [reflexivity|]); simpl; apply lookup_insert_eq.
    + unfold dec, inc_dec, step. unfold_methods. unfold cloneDeep.
      crunch; eexists; (split; [reflexivity|]); simpl; apply lookup_insert_eq.
  - split; [|split; [|split]]; [| | |exact Hscenario].
    + intros op operand. split.
      * unfold math, _mathop, set. unfold_methods. unfold cloneDeep, run.
        destruct op; crunch; reflexivity.
      * unfold set. unfold_methods. unfold cloneDeep, run.
        crunch; eexists; (split; [reflexivity|]); simpl;
          apply lookup_insert_eq.
    + unfold inc, inc_dec, step. unfold_methods. unfold cloneDeep, run.
      crunch; eexists; (split; [reflexivity|]); simpl; apply lookup_insert_eq.
    + unfold dec, inc_dec, step. unfold_methods. unfold cloneDeep, run.
      crunch; eexists; (split; [reflexivity|]); simpl; apply lookup_insert_eq.
Qed.

Lemma math_applies_operation_witness :
  usable integer_world = true /\
  entries (this integer_world) !! "integer" = Some (VNum 42%float) /\
  exists w', inc "integer" None integer_world = Return tt w' /\
    entries (this w') !! "integer" = Some (VNum (PrimFloat.add 42 1)%float).
Proof.
  split; [vm_compute; reflexivity|].
  split; [vm_compute; reflexivity|].
  apply (math_applies_operation (fun a _ => a) (fun a _ => a)
           integer_world "integer" 42%float);
    vm_compute; reflexivity.
Defined.

(** * Further properties of the methods *)

Lemma readable_inv w :
  readable w = true ->
  (forall k v, entries (this w) !! k = Some v ->
               exists t, snapshot (heap w) v = Some t) /\
  exists td, snapshot (heap w) (default (this w)) = Some td.
Proof.
  unfold readable. intros H. apply andb_true_iff in H as [H1 H2]. split.
  - intros k v Hk. rewrite forallb_forall in H1.
    specialize (H1 (k, v)). simpl in H1.
    destruct (snapshot (heap w) v) as [t|]; [eauto|].
    discriminate H1. apply list_elem_of_In, elem_of_map_to_list, Hk.
  - destruct (snapshot (heap w) (default (this w))); [eauto|discriminate].
Qed.

Lemma readable_intro w :
  (forall k v, entries (this w) !! k = Some v ->
               exists t, snapshot (heap w) v = Some t) ->
  (exists td, snapshot (heap w) (default (this w)) = Some td) ->
  readable w = true.
Proof.
  intros H1 (td & H2). unfold readable. rewrite H2, andb_true_r.
  apply forallb_forall. intros [k v] Hin. simpl.
  apply list_elem_of_In, elem_of_map_to_list in Hin.
  destruct (H1 k v Hin) as (t & ->). reflexivity.
Qed.

Lemma same_config_refl m : same_config m m.
Proof. repeat split. Qed.

Lemma same_config_trans m1 m2 m3 :
  same_config m1 m2 -> same_config m2 m3 -> same_config m1 m3.
Proof.
  unfold same_config. intros (?&?&?&?&?&?&?&?&?) (?&?&?&?&?&?&?&?&?).
  repeat split; congruence.
Qed.

Lemma fetched_None_absent w key :
  usable w = true ->
  entries (this w) !! key = None ->
  fetched w key = None ->
  _fetchCheck key w = Return tt w /\ has_key key w = Return false w.
Proof.
  intros Hu He Hf. apply usable_inv in Hu as (Hd & Hc & Hdb).
  unfold fetched, row in Hf.
  open_world w. subst.
  destruct Hdb as [[-> ->]|(-> & d & t0 & -> & Ho & Hr)].
  - unfold_methods. crunch; auto.
  - rewrite Hr in Hf. unfold_methods. unfold select_row.
    destruct af; simpl in *.
    + destruct (t0 !! key) eqn:Et; [discriminate|]. crunch. auto.
    + crunch. auto.
Qed.

Lemma fetchCheck_present w key v :
  entries (this w) !! key = Some v -> _fetchCheck key w = Return tt w.
Proof. intros He. unfold_methods. rewrite He. reflexivity. Qed.

Lemma fetchCheck_fetches w key t :
  usable w = true ->
  entries (this w) !! key = None ->
  fetched w key = Some t ->
  exists w',
    _fetchCheck key w = Return tt w' /\
    heap w' = (build t (build t (heap w)).2).2 /\
    this w' = set_entries (<[key := (build t (heap w)).1]> (entries (this w)))
                (this w) /\
    trace w' = trace w ++ [MapSet key].
Proof.
  intros Hu He Hf. apply usable_inv in Hu as (Hd & Hc & Hdb).
  unfold fetched, row in Hf.
  open_world w. subst.
  destruct Hdb as [[-> ->]|(-> & d & t0 & -> & Ho & Hr)]; [discriminate|].
  rewrite Hr in Hf. destruct af; [|discriminate]. simpl in Hf.
  destruct (t0 !! key) as [x|] eqn:Et; [|discriminate].
  injection Hf as <-.
  unfold_methods. unfold select_row, _parseData. crunch.
  destruct (build (deser (eval x) key) h) as [v1 h1] eqn:E1. simpl.
  destruct (build (deser (eval x) key) h1) as [v2 h2] eqn:E2. simpl.
  eexists. split; [reflexivity|]. simpl. auto.
Qed.

(** [_internalSet] on a usable map, in full. *)
Lemma internalSet_spec w key value b t :
  usable w = true ->
  snapshot (heap w) value = Some t ->
  exists w',
    _internalSet key value b w = Return tt w' /\
    heap w' = heap w /\
    same_config (this w) (this w') /\
    usable w' = true /\
    entries (this w')
    = (if b then <[key := value]> (entries (this w)) else entries (this w)) /\
    row key w' = (if persistent (this w)
                  then Some (serialize (serializer (this w) t key))
                  else None) /\
    (forall k, k <> key -> row k w' = row k w) /\
    counter w' = counter w /\
    trace w' = trace w
               ++ (if persistent (this w)
                   then [Ran (InsertOrReplace key
                                (serialize (serializer (this w) t key)))]
                   else [])
               ++ (if b then [MapSet key] else []).
Proof.
  intros Hu Hs. pose proof Hu as Hu'.
  apply usable_inv in Hu as (Hd & Hc & Hdb).
  open_world w. subst.
  destruct Hdb as [[-> ->]|(-> & d & t0 & -> & Ho & Hr)].
  - unfold _internalSet. unfold_methods. destruct b; simpl;
      (eexists; split; [reflexivity|]); simpl;
      rewrite ?app_nil_r; repeat split; auto.
  - unfold _internalSet. unfold_methods. unfold run.
    crunch; (eexists; split; [reflexivity|]);
      unfold row, usable, counter; simpl; rewrite ?Hr, lookup_insert_eq;
      (repeat split; auto);
      try (intros k Hk; rewrite lookup_insert_ne by congruence; reflexivity);
      rewrite <- ?app_assoc; reflexivity.
Qed.

Lemma readable_step w w' :
  readable w = true ->
  (exists ext, heap w' = heap w ++ ext) ->
  default (this w') = default (this w) ->
  (forall k v, entries (this w') !! k = Some v ->
     entries (this w) !! k = Some v \/
     exists t, snapshot (heap w') v = Some t) ->
  readable w' = true.
Proof.
  intros Hr (ext & Hh) Hd He.
  apply readable_inv in Hr as [Hr1 (td & Hr2)].
  apply readable_intro.
  - intros k v Hk. destruct (He k v Hk) as [Hk'|H]; [|exact H].
    destruct (Hr1 k v Hk') as (t & Ht). exists t.
    rewrite Hh. apply snapshot_extend, Ht.
  - exists td. rewrite Hd, Hh. apply snapshot_extend, Hr2.
Qed.

(** A reading stays as it is when the entry and the row of the key do. *)
Lemma reading_step w w' k :
  readable w = true ->
  (exists ext, heap w' = heap w ++ ext) ->
  same_config (this w) (this w') ->
  entries (this w') !! k = entries (this w) !! k ->
  row k w' = row k w ->
  reading w' k = reading w k.
Proof.
  intros Hr (ext & Hh) (_ & Hde & _ & _ & Hd & Hp & _ & Ha & _) He Hrow.
  apply readable_inv in Hr as [Hr1 (td & Hr2)].
  unfold reading, fetched. rewrite He, Hrow, Hde, Hd, Hp, Ha, Hh.
  destruct (entries (this w) !! k) as [v|] eqn:Ek.
  - destruct (Hr1 k v Ek) as (t & Ht). rewrite Ht.
    apply snapshot_extend, Ht.
  - destruct (persistent (this w) && autoFetch (this w));
      [destruct (row k w); [reflexivity|]|];
      (destruct (truthy (default (this w))); [|reflexivity]);
      rewrite Hr2; apply snapshot_extend, Hr2.
Qed.

Lemma get_after_fetchCheck w w1 key :
  isDestroyed (this w) = false ->
  _fetchCheck key w = Return tt w1 ->
  isDestroyed (this w1) = false ->
  _fetchCheck key w1 = Return tt w1 ->
  get_key key w = get_key key w1.
Proof.
  intros Hd Hf Hd1 Hf1. unfold get_key, get_body.
  assert (Hr : _readyCheck w = Return tt w)
    by (unfold_methods; rewrite Hd; reflexivity).
  assert (Hr1 : _readyCheck w1 = Return tt w1)
    by (unfold_methods; rewrite Hd1; reflexivity).
  rewrite (bind_run _ _ _ _ _ Hr), (bind_run _ _ _ _ _ Hf).
  rewrite (bind_run _ _ _ _ _ Hr1), (bind_run _ _ _ _ _ Hf1).
  reflexivity.
Qed.

Lemma get_absent_undefined w key :
  usable w = true ->
  entries (this w) !! key = None ->
  fetched w key = None ->
  truthy (default (this w)) = false ->
  get key None w = Return VUndef w.
Proof.
  intros Hu He Hf Ht.
  destruct (fetched_None_absent w key Hu He Hf) as [Hfc _].
  apply usable_inv in Hu as (Hd & Hc & _).
  rewrite get_None. unfold get_key, get_body.
  assert (Hr : _readyCheck w = Return tt w)
    by (unfold_methods; rewrite Hd; reflexivity).
  rewrite (bind_run _ _ _ _ _ Hr), (bind_run _ _ _ _ _ Hfc).
  unfold self, bind at 1. rewrite Ht. simpl when.
  unfold_methods. rewrite He, Hc. simpl. destruct w; reflexivity.
Qed.

Lemma sound_inv w :
  sound w = true -> usable w = true /\ readable w = true.
Proof. unfold sound. intros H. apply andb_true_iff in H. exact H. Qed.

Lemma usable_same w w' :
  usable w = true ->
  same_config (this w) (this w') ->
  db (this w') = db (this w) ->
  usable w' = true.
Proof.
  unfold usable. intros Hu (_ & _ & _ & _ & _ & Hp & Hd & _ & Hc) Hdb.
  rewrite Hdb, Hp, Hd, Hc. exact Hu.
Qed.

Lemma row_same w w' k : db (this w') = db (this w) -> row k w' = row k w.
Proof. unfold row. intros ->. reflexivity. Qed.

Lemma counter_same w w' :
  db (this w') = db (this w) -> name (this w') = name (this w) ->
  counter w' = counter w.
Proof. unfold counter. intros -> ->. reflexivity. Qed.

(** [get(key)] on a usable map with readable values: it returns a value
    with the picture [reading] gives, and no reading changes. *)
Lemma get_reads w key :
  sound w = true ->
  exists v w',
    get key None w = Return v w' /\
    snapshot (heap w') v = reading w key /\
    sound w' = true /\
    (exists ext, heap w' = heap w ++ ext) /\
    same_config (this w) (this w') /\
    (forall k, reading w' k = reading w k) /\
    (forall k, k <> key ->
       entries (this w') !! k = entries (this w) !! k /\
       row k w' = row k w) /\
    counter w' = counter w.
Proof.
  intros Hs. destruct (sound_inv w Hs) as [Hu Hr].
  destruct (readable_inv w Hr) as [Hr1 (td & Hr2)].
  destruct (usable_inv w Hu) as (Hd & Hc & _).
  assert (Hrc : _readyCheck w = Return tt w)
    by (unfold_methods; rewrite Hd; reflexivity).
  destruct (entries (this w) !! key) as [v|] eqn:He.
  - destruct (Hr1 key v He) as (t & Ht).
    exists (build t (heap w)).1, (set_heap (build t (heap w)).2 w).
    split; [rewrite get_None; apply (get_key_present w key v t Hu He Ht)|].
    split; [unfold reading; rewrite He, Ht; apply snapshot_build|].
    assert (Hx : exists ext, heap (set_heap (build t (heap w)).2 w)
                             = heap w ++ ext) by apply build_extends.
    split.
    { unfold sound. rewrite usable_set_heap, Hu. simpl.
      apply (readable_step w); auto. }
    split; [exact Hx|]. split; [apply same_config_refl|].
    split; [intros k; apply reading_step; auto using same_config_refl|].
    split; [auto|reflexivity].
  - destruct (fetched w key) as [t|] eqn:Hf.
    + destruct (fetchCheck_fetches w key t Hu He Hf)
        as (w1 & Hfc & Hh1 & Ht1 & _).
      set (v1 := (build t (heap w)).1) in *.
      assert (He1 : entries (this w1) !! key = Some v1)
        by (rewrite Ht1; simpl; apply lookup_insert_eq).
      assert (Hu1 : usable w1 = true)
        by (apply (usable_same w); [exact Hu|rewrite Ht1; repeat split
                                   |rewrite Ht1; reflexivity]).
      assert (Hs1 : snapshot (heap w1) v1 = Some t).
      { rewrite Hh1. destruct (build_extends t (build t (heap w)).2)
          as (e & ->). apply snapshot_extend, snapshot_build. }
      assert (Hx1 : exists ext, heap w1 = heap w ++ ext).
      { rewrite Hh1. destruct (build_extends t (heap w)) as (e1 & E1).
        destruct (build_extends t (build t (heap w)).2) as (e2 & E2).
        rewrite E2, E1, <- app_assoc. eauto. }
      destruct (usable_inv w1 Hu1) as (Hd1 & _ & _).
      exists (build t (heap w1)).1, (set_heap (build t (heap w1)).2 w1).
      split.
      { rewrite get_None.
        rewrite (get_after_fetchCheck w w1 key Hd Hfc Hd1
                   (fetchCheck_present w1 key v1 He1)).
        apply (get_key_present w1 key v1 t Hu1 He1 Hs1). }
      split; [unfold reading; rewrite He, Hf; apply snapshot_build|].
      assert (Hx : exists ext, heap (set_heap (build t (heap w1)).2 w1)
                               = heap w ++ ext).
      { destruct Hx1 as (e1 & E1).
        destruct (build_extends t (heap w1)) as (e2 & E2).
        simpl. rewrite E2, E1, <- app_assoc. eauto. }
      assert (Hcfg : same_config (this w)
                       (this (set_heap (build t (heap w1)).2 w1)))
        by (simpl; rewrite Ht1; repeat split).
      assert (Hother : forall k, k <> key ->
                entries (this (set_heap (build t (heap w1)).2 w1)) !! k
                = entries (this w) !! k /\
                row k (set_heap (build t (heap w1)).2 w1) = row k w).
      { intros k Hk. simpl. unfold row. simpl. rewrite Ht1. simpl.
        rewrite lookup_insert_ne by congruence. auto. }
      split.
      { unfold sound. rewrite usable_set_heap, Hu1. simpl.
        apply (readable_step w); auto.
        - simpl. rewrite Ht1. reflexivity.
        - intros k v Hk. simpl in Hk. rewrite Ht1 in Hk. simpl in Hk.
          destruct (decide (k = key)) as [->|Hne].
          + rewrite lookup_insert_eq in Hk. injection Hk as <-. right.
            exists t. simpl.
            destruct (build_extends t (heap w1)) as (e2 & ->).
            apply snapshot_extend, Hs1.
          + rewrite lookup_insert_ne in Hk by congruence. auto. }
      split; [exact Hx|]. split; [exact Hcfg|].
      split; [|split; [exact Hother|]].
      * intros k. destruct (decide (k = key)) as [->|Hne].
        -- unfold reading at 1. simpl. rewrite He1.
           unfold reading. rewrite He, Hf.
           destruct (build_extends t (heap w1)) as (e2 & ->).
           apply snapshot_extend, Hs1.
        -- apply reading_step; auto; apply Hother; exact Hne.
      * apply counter_same; simpl; rewrite Ht1; reflexivity.
    + destruct (fetched_None_absent w key Hu He Hf) as [Hfc Hhas].
      destruct (truthy (default (this w))) eqn:Htr.
      * destruct (internalSet_spec w key (default (this w)) true td Hu Hr2)
          as (w2 & Hset & Hh2 & Hcfg2 & Hu2 & He2 & Hrow2 & Hrows2 & Hcnt2 & _).
        assert (Hd2 : default (this w2) = default (this w)) by apply Hcfg2.
        assert (Hc2 : cloneLevel (this w2) = "deep")
          by (destruct (usable_inv w2 Hu2) as (_ & ? & _); assumption).
        assert (Hs2 : snapshot (heap w2) (default (this w)) = Some td)
          by (rewrite Hh2; exact Hr2).
        exists (build td (heap w2)).1, (set_heap (build td (heap w2)).2 w2).
        split.
        { rewrite get_None. unfold get_key, get_body.
          rewrite (bind_run _ _ _ _ _ Hrc), (bind_run _ _ _ _ _ Hfc).
          rewrite (bind_run _ _ _ _ _ (eq_refl : self w = Return (this w) w)).
          rewrite Htr. simpl when.
          assert (Hm : (present <- has_key key ;;
                        when (negb present)
                          (_internalSet key (default (this w)) true)) w
                       = Return tt w2)
            by (unfold bind at 1; rewrite Hhas; exact Hset).
          rewrite (bind_run _ _ _ _ _ Hm).
          assert (Hg : super_get key w2 = Return (default (this w)) w2)
            by (unfold super_get; rewrite He2, lookup_insert_eq; reflexivity).
          rewrite (bind_run _ _ _ _ _ Hg).
          apply (clone_deep w2 _ td Hc2 Hs2). }
        split; [unfold reading; rewrite He, Hf, Htr, Hr2; apply snapshot_build|].
        assert (Hx : exists ext, heap (set_heap (build td (heap w2)).2 w2)
                                 = heap w ++ ext)
          by (simpl; rewrite Hh2; apply build_extends).
        assert (Hother : forall k, k <> key ->
                  entries (this (set_heap (build td (heap w2)).2 w2)) !! k
                  = entries (this w) !! k /\
                  row k (set_heap (build td (heap w2)).2 w2) = row k w).
        { intros k Hk. simpl. rewrite He2.
          rewrite lookup_insert_ne by congruence. split; [reflexivity|].
          exact (Hrows2 k Hk). }
        split.
        { unfold sound. rewrite usable_set_heap, Hu2. simpl.
          apply (readable_step w); auto.
          intros k v Hk. simpl in Hk. rewrite He2 in Hk.
          destruct (decide (k = key)) as [->|Hne].
          - rewrite lookup_insert_eq in Hk. injection Hk as <-. right.
            exists td. simpl.
            destruct (build_extends td (heap w2)) as (e2 & ->).
            apply snapshot_extend, Hs2.
          - rewrite lookup_insert_ne in Hk by congruence. auto. }
        split; [exact Hx|]. split; [exact Hcfg2|].
        split; [|split; [exact Hother|exact Hcnt2]].
        intros k. destruct (decide (k = key)) as [->|Hne].
        -- unfold reading at 1. simpl. rewrite He2, lookup_insert_eq.
           unfold reading. rewrite He, Hf, Htr, Hr2.
           destruct (build_extends td (heap w2)) as (e2 & ->).
           apply snapshot_extend, Hs2.
        -- apply reading_step; auto; apply Hother; exact Hne.
      * exists VUndef, w.
        split; [apply get_absent_undefined; auto|].
        split; [unfold reading; rewrite He, Hf, Htr; reflexivity|].
        split; [exact Hs|]. split; [exists []; rewrite app_nil_r; reflexivity|].
        split; [apply same_config_refl|]. auto.
Qed.

Lemma has_reads w key :
  sound w = true ->
  exists w',
    has key None w
    = Return (match entries (this w) !! key, fetched w key with
              | None, None => false
              | _, _ => true
              end) w' /\
    sound w' = true /\
    (exists ext, heap w' = heap w ++ ext) /\
    same_config (this w) (this w') /\
    (forall k, reading w' k = reading w k) /\
    db (this w') = db (this w).
Proof.
  intros Hs. destruct (sound_inv w Hs) as [Hu Hr].
  destruct (usable_inv w Hu) as (Hd & Hc & _).
  assert (Hrc : _readyCheck w = Return tt w)
    by (unfold_methods; rewrite Hd; reflexivity).
  change (has key None) with (has_key key).
  destruct (entries (this w) !! key) as [v|] eqn:He.
  - exists w. split; [apply (has_key_present w key v Hd He)|].
    split; [exact Hs|]. split; [exists []; rewrite app_nil_r; reflexivity|].
    split; [apply same_config_refl|]. auto.
  - destruct (fetched w key) as [t|] eqn:Hf.
    + destruct (fetchCheck_fetches w key t Hu He Hf)
        as (w1 & Hfc & Hh1 & Ht1 & _).
      set (v1 := (build t (heap w)).1) in *.
      assert (He1 : entries (this w1) !! key = Some v1)
        by (rewrite Ht1; simpl; apply lookup_insert_eq).
      assert (Hs1 : snapshot (heap w1) v1 = Some t).
      { rewrite Hh1. destruct (build_extends t (build t (heap w)).2)
          as (e & ->). apply snapshot_extend, snapshot_build. }
      assert (Hx1 : exists ext, heap w1 = heap w ++ ext).
      { rewrite Hh1. destruct (build_extends t (heap w)) as (e1 & E1).
        destruct (build_extends t (build t (heap w)).2) as (e2 & E2).
        rewrite E2, E1, <- app_assoc. eauto. }
      assert (Hcfg : same_config (this w) (this w1))
        by (rewrite Ht1; repeat split).
      assert (Hdb : db (this w1) = db (this w)) by (rewrite Ht1; reflexivity).
      exists w1. split.
      { unfold has_key, has_body.
        rewrite (bind_run _ _ _ _ _ Hrc), (bind_run _ _ _ _ _ Hfc).
        unfold super_has. rewrite He1. reflexivity. }
      split.
      { unfold sound. rewrite (usable_same w w1 Hu Hcfg Hdb). simpl.
        apply (readable_step w); auto.
        - rewrite Ht1. reflexivity.
        - intros k v Hk. rewrite Ht1 in Hk. simpl in Hk.
          destruct (decide (k = key)) as [->|Hne].
          + rewrite lookup_insert_eq in Hk. injection Hk as <-. eauto.
          + rewrite lookup_insert_ne in Hk by congruence. auto. }
      split; [exact Hx1|]. split; [exact Hcfg|]. split; [|exact Hdb].
      intros k. destruct (decide (k = key)) as [->|Hne].
      * unfold reading at 1. rewrite He1, Hs1.
        unfold reading. rewrite He, Hf. reflexivity.
      * apply reading_step; auto.
        -- rewrite Ht1. simpl. apply lookup_insert_ne. congruence.
        -- apply row_same, Hdb.
    + destruct (fetched_None_absent w key Hu He Hf) as [_ Hhas].
      exists w. split; [exact Hhas|].
      split; [exact Hs|]. split; [exists []; rewrite app_nil_r; reflexivity|].
      split; [apply same_config_refl|]. auto.
Qed.

(** [set(key, value)] on a usable map with readable values. *)
Lemma set_writes w key value t :
  sound w = true ->
  snapshot (heap w) value = Some t ->
  exists w',
    set key value None w = Return tt w' /\
    sound w' = true /\
    (exists ext, heap w' = heap w ++ ext) /\
    same_config (this w) (this w') /\
    reading w' key = Some t /\
    (forall k, k <> key -> reading w' k = reading w k) /\
    (exists copy, entries (this w') !! key = Some copy /\
                  snapshot (heap w') copy = Some t) /\
    (forall k, k <> key ->
       entries (this w') !! k = entries (this w) !! k /\
       row k w' = row k w) /\
    row key w' = (if persistent (this w)
                  then Some (serialize (serializer (this w) t key))
                  else None) /\
    counter w' = counter w.
Proof.
  intros Hs Hv.
  destruct (get_reads w key Hs)
    as (v & w1 & Hget & Hsv & Hs1 & (e1 & Hx1) & Hcfg1 & Hread1 & Hoth1 & Hcnt1).
  destruct (sound_inv w Hs) as [Hu Hr].
  destruct (sound_inv w1 Hs1) as [Hu1 Hr1].
  destruct (usable_inv w1 Hu1) as (Hd1 & Hc1 & _).
  unfold set. rewrite (bind_run _ _ _ _ _ Hget).
  rewrite (bind_run _ _ _ _ _
             (eq_refl : super_has key w1
                        = Return (match entries (this w1) !! key with
                                  | Some _ => true | None => false end) w1)).
  assert (exists old w2,
             (if match entries (this w1) !! key with
                 | Some _ => true | None => false end
              then _clone v else ret VNull) w1 = Return old w2 /\
             this w2 = this w1 /\ trace w2 = trace w1 /\
             exists ext, heap w2 = heap w1 ++ ext)
    as (old & w2 & Hold & Ht2 & _ & (e2 & Hx2)).
  { destruct (entries (this w1) !! key).
    - destruct (reading w key) as [tv|] eqn:Hrd.
      + do 2 eexists. split; [apply (clone_deep w1 v tv Hc1 Hsv)|].
        simpl. repeat split. apply build_extends.
      + exfalso. clear -Hrd Hr Hu. unfold reading in Hrd.
        destruct (readable_inv w Hr) as [Hr1 (td & Hr2)].
        destruct (entries (this w) !! key) as [v0|] eqn:E.
        * destruct (Hr1 key v0 E) as (? & ?). congruence.
        * destruct (fetched w key); [discriminate|].
          destruct (truthy (default (this w))); congruence.
    - do 2 eexists. split; [reflexivity|]. repeat split.
      exists []. rewrite app_nil_r. reflexivity. }
  rewrite (bind_run _ _ _ _ _ Hold).
  rewrite (bind_run _ _ _ _ _ (eq_refl : ret value w2 = Return value w2)).
  rewrite (bind_run _ _ _ _ _ (eq_refl : self w2 = Return (this w2) w2)).
  assert (exists w3, when (changedCB (this w2))
                       (call_changedCB key old value) w2 = Return tt w3 /\
                     heap w3 = heap w2 /\ this w3 = this w2)
    as (w3 & Hcb & Hh3 & Ht3).
  { destruct (changedCB (this w2)); simpl; eexists; split;
      try reflexivity; auto. }
  rewrite (bind_run _ _ _ _ _ Hcb).
  assert (Hu3 : usable w3 = true)
    by (unfold usable; rewrite Ht3, Ht2; exact Hu1).
  assert (Hv3 : snapshot (heap w3) value = Some t).
  { rewrite Hh3, Hx2, Hx1, <- app_assoc. apply snapshot_extend, Hv. }
  destruct (internalSet_spec w3 key value false t Hu3 Hv3)
    as (w4 & Hset & Hh4 & Hcfg4 & Hu4 & He4 & Hrow4 & Hrows4 & Hcnt4 & _).
  rewrite (bind_run _ _ _ _ _ Hset).
  destruct (usable_inv w4 Hu4) as (_ & Hc4 & _).
  assert (Hv4 : snapshot (heap w4) value = Some t)
    by (rewrite Hh4; exact Hv3).
  rewrite (bind_run _ _ _ _ _ (clone_deep w4 value t Hc4 Hv4)).
  set (copy := (build t (heap w4)).1).
  set (h5 := (build t (heap w4)).2).
  eexists. split; [reflexivity|].
  assert (Hcfg : same_config (this w) (this w4)).
  { apply (same_config_trans _ (this w1)); [exact Hcfg1|].
    rewrite <- Ht2, <- Ht3. exact Hcfg4. }
  assert (He5 : forall k, k <> key ->
            (<[key := copy]> (entries (this w4))) !! k
            = entries (this w) !! k).
  { intros k Hk. rewrite lookup_insert_ne by congruence.
    rewrite He4, Ht3, Ht2. apply Hoth1, Hk. }
  assert (Hrow5 : forall k, k <> key -> row k w4 = row k w).
  { intros k Hk. rewrite (Hrows4 k Hk).
    rewrite (row_same w1 w3) by (rewrite Ht3, Ht2; reflexivity).
    apply Hoth1, Hk. }
  assert (Hx : exists ext, h5 = heap w ++ ext).
  { unfold h5. destruct (build_extends t (heap w4)) as (e5 & ->).
    rewrite Hh4, Hh3, Hx2, Hx1, <- !app_assoc. eauto. }
  assert (Hcopy : snapshot h5 copy = Some t) by apply snapshot_build.
  cbn [heap this trace set_heap set_this log set_entries entries
         serializer deserializer name changedCB default db persistent
         isDestroyed autoFetch cloneLevel].
  split.
  { unfold sound. apply andb_true_iff. split.
    - apply (usable_same w4); [exact Hu4|repeat split|reflexivity].
    - apply (readable_step w); auto.
      + simpl. apply Hcfg.
      + intros k v0 Hk. simpl in Hk.
        destruct (decide (k = key)) as [->|Hne].
        * rewrite lookup_insert_eq in Hk. injection Hk as <-. eauto.
        * rewrite (He5 k Hne) in Hk. auto. }
  split; [exact Hx|]. split; [exact Hcfg|].
  split.
  { unfold reading. simpl. rewrite lookup_insert_eq. exact Hcopy. }
  split.
  { intros k Hk. apply reading_step;
      [exact Hr|exact Hx|exact Hcfg|simpl; apply He5, Hk|].
    unfold row. simpl. apply Hrow5, Hk. }
  split; [exists copy; simpl; rewrite lookup_insert_eq; auto|].
  split.
  { intros k Hk. split; [simpl; apply He5, Hk|].
    unfold row. simpl. apply Hrow5, Hk. }
  split.
  { unfold row in *. simpl. rewrite Hrow4, Ht3, Ht2.
    destruct Hcfg1 as (-> & _ & _ & _ & _ & -> & _). reflexivity. }
  unfold counter in *. simpl. rewrite Hcnt4.
  rewrite <- Hcnt1. unfold counter. rewrite Ht3, Ht2. reflexivity.
Qed.

Lemma fetchCheck_reads w key :
  sound w = true ->
  exists w',
    _fetchCheck key w = Return tt w' /\
    sound w' = true /\
    (exists ext, heap w' = heap w ++ ext) /\
    same_config (this w) (this w') /\
    (forall k, reading w' k = reading w k) /\
    db (this w') = db (this w) /\
    (forall k, k <> key -> entries (this w') !! k = entries (this w) !! k).
Proof.
  intros Hs. destruct (sound_inv w Hs) as [Hu Hr].
  assert (Hsame :
            _fetchCheck key w = Return tt w ->
            exists w',
              _fetchCheck key w = Return tt w' /\ sound w' = true /\
              (exists ext, heap w' = heap w ++ ext) /\
              same_config (this w) (this w') /\
              (forall k, reading w' k = reading w k) /\
              db (this w') = db (this w) /\
              (forall k, k <> key ->
                 entries (this w') !! k = entries (this w) !! k)).
  { intros H. exists w. split; [exact H|]. split; [exact Hs|].
    split; [exists []; rewrite app_nil_r; reflexivity|].
    split; [apply same_config_refl|]. auto. }
  destruct (entries (this w) !! key) as [v|] eqn:He.
  - apply Hsame, (fetchCheck_present w key v He).
  - destruct (fetched w key) as [t|] eqn:Hf.
    + destruct (fetchCheck_fetches w key t Hu He Hf)
        as (w1 & Hfc & Hh1 & Ht1 & _).
      set (v1 := (build t (heap w)).1) in *.
      assert (He1 : entries (this w1) !! key = Some v1)
        by (rewrite Ht1; simpl; apply lookup_insert_eq).
      assert (Hs1 : snapshot (heap w1) v1 = Some t).
      { rewrite Hh1. destruct (build_extends t (build t (heap w)).2)
          as (e & ->). apply snapshot_extend, snapshot_build. }
      assert (Hx1 : exists ext, heap w1 = heap w ++ ext).
      { rewrite Hh1. destruct (build_extends t (heap w)) as (e1 & E1).
        destruct (build_extends t (build t (heap w)).2) as (e2 & E2).
        rewrite E2, E1, <- app_assoc. eauto. }
      assert (Hcfg : same_config (this w) (this w1))
        by (rewrite Ht1; repeat split).
      assert (Hdb : db (this w1) = db (this w)) by (rewrite Ht1; reflexivity).
      assert (Hoth : forall k, k <> key ->
                entries (this w1) !! k = entries (this w) !! k).
      { intros k Hk. rewrite Ht1. simpl. apply lookup_insert_ne. congruence. }
      exists w1. split; [exact Hfc|]. split.
      { unfold sound. rewrite (usable_same w w1 Hu Hcfg Hdb). simpl.
        apply (readable_step w); auto.
        - rewrite Ht1. reflexivity.
        - intros k v Hk. destruct (decide (k = key)) as [->|Hne].
          + rewrite He1 in Hk. injection Hk as <-. eauto.
          + rewrite (Hoth k Hne) in Hk. auto. }
      split; [exact Hx1|]. split; [exact Hcfg|].
      split; [|split; [exact Hdb|exact Hoth]].
      intros k. destruct (decide (k = key)) as [->|Hne].
      * unfold reading at 1. rewrite He1, Hs1.
        unfold reading. rewrite He, Hf. reflexivity.
      * apply reading_step; auto. apply row_same, Hdb.
    + apply Hsame, (fetched_None_absent w key Hu He Hf).
Qed.

Lemma delete_row w key :
  usable w = true ->
  persistent (this w) = true ->
  exists w',
    db_run_strict (DeleteWhereKey key) w = Return tt w' /\
    heap w' = heap w /\
    same_config (this w) (this w') /\
    usable w' = true /\
    entries (this w') = entries (this w) /\
    row key w' = None /\
    (forall k, k <> key -> row k w' = row k w) /\
    counter w' = counter w /\
    trace w' = trace w ++ [Ran (DeleteWhereKey key)].
Proof.
  intros Hu Hp. pose proof Hu as Hu'.
  apply usable_inv in Hu as (Hd & Hc & Hdb).
  open_world w. subst.
  destruct Hdb as [[? ?]|(_ & d & t0 & -> & Ho & Hr)]; [discriminate|].
  unfold db_run_strict, db_run, run. simpl. rewrite Ho, Hr.
  eexists. split; [reflexivity|].
  unfold row, usable, counter. simpl. rewrite ?Hr, lookup_delete_eq.
  repeat split; auto.
  intros k Hk. apply lookup_delete_ne. congruence.
Qed.

(** [delete(key)] on a usable map with readable values, whether or not
    it holds the key. *)
Lemma delete_forgets w key :
  sound w = true ->
  exists w',
    delete key None w = Return tt w' /\
    sound w' = true /\
    (exists ext, heap w' = heap w ++ ext) /\
    same_config (this w) (this w') /\
    entries (this w') !! key = None /\
    row key w' = None /\
    (forall k, k <> key ->
       entries (this w') !! k = entries (this w) !! k /\
       row k w' = row k w) /\
    (forall k, k <> key -> reading w' k = reading w k) /\
    counter w' = counter w.
Proof.
  intros Hs. destruct (sound_inv w Hs) as [Hu Hr].
  destruct (usable_inv w Hu) as (Hd & _ & _).
  assert (Hrc : _readyCheck w = Return tt w)
    by (unfold_methods; rewrite Hd; reflexivity).
  destruct (fetchCheck_reads w key Hs)
    as (w0 & Hfc & Hs0 & (e0 & Hx0) & Hcfg0 & Hread0 & Hdb0 & Hoth0).
  destruct (get_reads w0 key Hs0)
    as (v & w1 & Hget & _ & Hs1 & (e1 & Hx1) & Hcfg1 & Hread1 & Hoth1 & Hcnt1).
  destruct (sound_inv w1 Hs1) as [Hu1 Hr1].
  unfold delete.
  rewrite (bind_run _ _ _ _ _ Hrc), (bind_run _ _ _ _ _ Hfc),
    (bind_run _ _ _ _ _ Hget).
  set (w2 := log (MapDelete key)
               (set_this (set_entries (base.delete key (entries (this w1)))
                            (this w1)) w1)).
  rewrite (bind_run _ _ _ _ _ (eq_refl : super_delete key w1 = Return tt w2)).
  rewrite (bind_run _ _ _ _ _ (eq_refl : self w2 = Return (this w2) w2)).
  assert (Hu2 : usable w2 = true) by exact Hu1.
  assert (Hcfg2 : same_config (this w) (this w2)).
  { apply (same_config_trans _ (this w0)); [exact Hcfg0|].
    apply (same_config_trans _ (this w1)); [exact Hcfg1|]. repeat split. }
  assert (Hx2 : exists ext, heap w2 = heap w ++ ext)
    by (simpl; rewrite Hx1, Hx0, <- app_assoc; eauto).
  assert (He2 : forall k, k <> key ->
            entries (this w2) !! k = entries (this w) !! k).
  { intros k Hk. simpl. rewrite lookup_delete_ne by congruence.
    rewrite (proj1 (Hoth1 k Hk)). apply Hoth0, Hk. }
  assert (Hrow2 : forall k, k <> key -> row k w2 = row k w).
  { intros k Hk. change (row k w2) with (row k w1).
    rewrite (proj2 (Hoth1 k Hk)). apply row_same, Hdb0. }
  assert (Hcnt2 : counter w2 = counter w).
  { change (counter w2) with (counter w1). rewrite Hcnt1.
    apply counter_same; [exact Hdb0|apply Hcfg0]. }
  assert (Hfinish : forall w',
            heap w' = heap w2 -> same_config (this w2) (this w') ->
            usable w' = true -> entries (this w') = entries (this w2) ->
            row key w' = None ->
            (forall k, k <> key -> row k w' = row k w2) ->
            counter w' = counter w2 ->
            sound w' = true /\
            (exists ext, heap w' = heap w ++ ext) /\
            same_config (this w) (this w') /\
            entries (this w') !! key = None /\
            row key w' = None /\
            (forall k, k <> key ->
               entries (this w') !! k = entries (this w) !! k /\
               row k w' = row k w) /\
            (forall k, k <> key -> reading w' k = reading w k) /\
            counter w' = counter w).
  { intros w' Hh' Hcfg' Hu' He' Hrow' Hrows' Hcnt'.
    assert (Hx' : exists ext, heap w' = heap w ++ ext)
      by (rewrite Hh'; exact Hx2).
    assert (Hc' : same_config (this w) (this w'))
      by (apply (same_config_trans _ (this w2)); assumption).
    assert (Ho' : forall k, k <> key ->
              entries (this w') !! k = entries (this w) !! k /\
              row k w' = row k w).
    { intros k Hk. rewrite He', (Hrows' k Hk). auto. }
    split.
    { unfold sound. rewrite Hu'. simpl. apply (readable_step w); auto.
      - apply Hc'.
      - intros k v0 Hk. destruct (decide (k = key)) as [->|Hne].
        + rewrite He' in Hk. simpl in Hk.
          rewrite lookup_delete_eq in Hk. discriminate.
        + rewrite (proj1 (Ho' k Hne)) in Hk. auto. }
    split; [exact Hx'|]. split; [exact Hc'|].
    split; [rewrite He'; simpl; apply lookup_delete_eq|].
    split; [exact Hrow'|]. split; [exact Ho'|].
    split; [|rewrite Hcnt'; exact Hcnt2].
    intros k Hk. apply reading_step; auto; apply Ho', Hk. }
  destruct (persistent (this w2)) eqn:Hp.
  - destruct (delete_row w2 key Hu2 Hp)
      as (w3 & Hrun & Hh3 & Hcfg3 & Hu3 & He3 & Hrow3 & Hrows3 & Hcnt3 & _).
    exists w3. split; [exact Hrun|]. apply Hfinish; auto.
  - assert (Hnone : forall k, row k w2 = None).
    { intros k. unfold row.
      destruct (usable_inv w2 Hu2) as (_ & _ & [[_ ->]|(? & _)]);
        [reflexivity|congruence]. }
    destruct (changedCB (this w2)); simpl when;
      (eexists; split; [reflexivity|]);
      (apply Hfinish;
       [reflexivity|apply same_config_refl|exact Hu2|reflexivity
       |apply Hnone|reflexivity|reflexivity]).
Qed.

Lemma bind_run_throw {A B} (m : M A) (k : A -> M B) w e w1 :
  m w = Throw e w1 -> bind m k w = Throw e w1.
Proof. unfold bind. intros ->. reflexivity. Qed.

(** X1.  On a usable map whose values can be read, [get(key)] returns,
    for every key: the copy it returns has the picture of the entry, else
    of the row it fetches, else of the default when that is truthy, else
    it is [undefined]; the map stays usable and readable, and every key
    reads afterwards as it did before. *)
Theorem get_returns_reading w key :
  sound w = true ->
  exists v w',
    get key None w = Return v w' /\
    snapshot (heap w') v = reading w key /\
    sound w' = true /\
    forall k, reading w' k = reading w k.
Proof.
  intros Hs.
  destruct (get_reads w key Hs) as (v & w' & H1 & H2 & H3 & _ & _ & H4 & _).
  eauto 10.
Qed.

Lemma get_returns_reading_witness :
  exists v w',
    get "integer" None integer_world = Return v w' /\
    snapshot (heap w') v = reading integer_world "integer" /\
    sound w' = true /\
    forall k, reading w' k = reading integer_world k.
Proof.
  apply (get_returns_reading integer_world "integer").
  vm_compute. reflexivity.
Defined.

(** X2.  On a usable map whose values can be read, [set(key, value)]
    returns for every key and every readable value; [has(key)] is then
    true and [get(key)] returns a copy with the picture of the value; on
    a persistent map the row holds the encoding of what the serializer
    made of it. *)
Theorem set_then_get w key value t :
  sound w = true ->
  snapshot (heap w) value = Some t ->
  exists w1 v w2,
    set key value None w = Return tt w1 /\
    sound w1 = true /\
    has key None w1 = Return true w1 /\
    get key None w1 = Return v w2 /\
    snapshot (heap w2) v = Some t /\
    row key w1 = (if persistent (this w)
                  then Some (serialize (serializer (this w) t key))
                  else None).
Proof.
  intros Hs Hv.
  destruct (set_writes w key value t Hs Hv)
    as (w1 & Hset & Hs1 & _ & _ & Hrd & _ & (copy & Hc & _) & _ & Hrow & _).
  destruct (get_reads w1 key Hs1) as (v & w2 & Hget & Hsv & _).
  exists w1, v, w2. split; [exact Hset|]. split; [exact Hs1|].
  split.
  { destruct (sound_inv w1 Hs1) as [Hu1 _].
    apply (has_key_present w1 key copy (proj1 (usable_inv w1 Hu1)) Hc). }
  split; [exact Hget|]. split; [rewrite Hsv; exact Hrd|exact Hrow].
Qed.

Lemma set_then_get_witness :
  exists w1 v w2,
    set "integer" (VNum 7%float) None integer_world = Return tt w1 /\
    sound w1 = true /\
    has "integer" None w1 = Return true w1 /\
    get "integer" None w1 = Return v w2 /\
    snapshot (heap w2) v = Some (TNum 7%float) /\
    row "integer" w1
    = (if persistent (this integer_world)
       then Some (serialize (serializer (this integer_world)
                               (TNum 7%float) "integer"))
       else None).
Proof.
  apply (set_then_get integer_world "integer" (VNum 7%float) (TNum 7%float));
    vm_compute; reflexivity.
Defined.

(** X3.  [set(key, value)] leaves every other key alone: its entry, its
    row and what it reads as, and the counter row. *)
Theorem set_keeps_other_keys w key value t k :
  sound w = true ->
  snapshot (heap w) value = Some t ->
  k <> key ->
  exists w1,
    set key value None w = Return tt w1 /\
    entries (this w1) !! k = entries (this w) !! k /\
    row k w1 = row k w /\
    reading w1 k = reading w k /\
    counter w1 = counter w.
Proof.
  intros Hs Hv Hk.
  destruct (set_writes w key value t Hs Hv)
    as (w1 & Hset & _ & _ & _ & _ & Hrd & _ & Hoth & _ & Hcnt).
  exists w1. split; [exact Hset|].
  split; [apply Hoth, Hk|]. split; [apply Hoth, Hk|].
  split; [apply Hrd, Hk|exact Hcnt].
Qed.

Lemma set_keeps_other_keys_witness :
  exists w1,
    set "other" (VNum 7%float) None integer_world = Return tt w1 /\
    entries (this w1) !! "integer" = entries (this integer_world) !! "integer" /\
    row "integer" w1 = row "integer" integer_world /\
    reading w1 "integer" = reading integer_world "integer" /\
    counter w1 = counter integer_world.
Proof.
  apply (set_keeps_other_keys integer_world "other" (VNum 7%float)
           (TNum 7%float) "integer");
    [vm_compute; reflexivity|vm_compute; reflexivity|discriminate].
Defined.

(** X4.  On a usable map whose values can be read, [delete(key)] returns
    whether or not the map holds the key; the entry and the row are then
    gone, [has(key)] is false, [get(key)] returns a copy of the default
    when that is truthy and [undefined] otherwise, and every other key
    reads as before. *)
Theorem delete_then_get w key :
  sound w = true ->
  exists w1 v w2,
    delete key None w = Return tt w1 /\
    sound w1 = true /\
    entries (this w1) !! key = None /\
    row key w1 = None /\
    has key None w1 = Return false w1 /\
    get key None w1 = Return v w2 /\
    snapshot (heap w2) v
    = (if truthy (default (this w))
       then snapshot (heap w1) (default (this w))
       else Some TUndef) /\
    forall k, k <> key -> reading w1 k = reading w k.
Proof.
  intros Hs.
  destruct (delete_forgets w key Hs)
    as (w1 & Hdel & Hs1 & _ & Hcfg & He & Hrow & _ & Hrd & _).
  destruct (get_reads w1 key Hs1) as (v & w2 & Hget & Hsv & _).
  destruct (sound_inv w1 Hs1) as [Hu1 _].
  assert (Hf : fetched w1 key = None).
  { unfold fetched. rewrite Hrow.
    destruct (persistent (this w1) && autoFetch (this w1)); reflexivity. }
  exists w1, v, w2. split; [exact Hdel|]. split; [exact Hs1|].
  split; [exact He|]. split; [exact Hrow|].
  split; [apply (fetched_None_absent w1 key Hu1 He Hf)|].
  split; [exact Hget|]. split; [|exact Hrd].
  rewrite Hsv. unfold reading. rewrite He, Hf.
  destruct Hcfg as (_ & _ & _ & _ & -> & _). reflexivity.
Qed.

Lemma delete_then_get_witness :
  exists w1 v w2,
    delete "missing" None default_world = Return tt w1 /\
    sound w1 = true /\
    entries (this w1) !! "missing" = None /\
    row "missing" w1 = None /\
    has "missing" None w1 = Return false w1 /\
    get "missing" None w1 = Return v w2 /\
    snapshot (heap w2) v
    = (if truthy (default (this default_world))
       then snapshot (heap w1) (default (this default_world))
       else Some TUndef) /\
    forall k, k <> "missing" -> reading w1 k = reading default_world k.
Proof.
  apply (delete_then_get default_world "missing").
  vm_compute. reflexivity.
Defined.

Lemma sound_evict w key :
  sound w = true -> sound (final (evict key w)) = true.
Proof.
  intros Hs. destruct (sound_inv w Hs) as [Hu Hr].
  unfold sound. apply andb_true_iff. split; [exact Hu|].
  apply (readable_step w); auto.
  - exists []. simpl. rewrite app_nil_r. reflexivity.
  - intros k v Hk. simpl in Hk. left.
    apply lookup_delete_Some in Hk. apply Hk.
Qed.



(** X6.  On a persistent map that does not fetch on a miss, a row whose
    key is not in the map is not seen: [has(key)] is false, and
    [get(key)], when the default is truthy, returns a copy of the default
    and replaces the row by the encoding of the default.  [fetch(key)]
    reads the row into the map and returns a second copy of what it
    holds. *)
Theorem miss_without_autoFetch w key x td :
  usable w = true ->
  persistent (this w) = true ->
  autoFetch (this w) = false ->
  entries (this w) !! key = None ->
  row key w = Some x ->
  truthy (default (this w)) = true ->
  snapshot (heap w) (default (this w)) = Some td ->
  has key None w = Return false w /\
  (exists v w',
     get key None w = Return v w' /\
     snapshot (heap w') v = Some td /\
     row key w' = Some (serialize (serializer (this w) td key))) /\
  (exists v w' v',
     fetch key w = Return v w' /\
     snapshot (heap w') v = Some (deserializer (this w) (eval x) key) /\
     entries (this w') !! key = Some v' /\
     snapshot (heap w') v' = Some (deserializer (this w) (eval x) key) /\
     row key w' = Some x).
Proof.
  intros Hu Hp Ha He Hrow Ht Hd.
  assert (Hf : fetched w key = None)
    by (unfold fetched; rewrite Ha, andb_false_r; reflexivity).
  split; [apply (fetched_None_absent w key Hu He Hf)|]. split.
  - destruct (get_absent_materializes w key td Hu Ht Hd He)
      as (v & w' & H1 & H2 & _ & H4 & _); [rewrite Ha; discriminate|].
    exists v, w'. auto.
  - pose proof Hu as Hu'. apply usable_inv in Hu as (Hds & Hc & Hdb).
    unfold row in Hrow.
    open_world w. subst.
    destruct Hdb as [[? ?]|(_ & d & t0 & -> & Ho & Hr)]; [discriminate|].
    rewrite Hr in Hrow.
    unfold fetch. unfold_methods. unfold select_row, _parseData.
    crunch.
    pose proof (snapshot_build (deser (eval x) key) h) as S1.
    destruct (build_extends (deser (eval x) key) h) as (e1 & E1).
    destruct (build (deser (eval x) key) h) as [v1 h1]. simpl in *.
    pose proof (snapshot_build (deser (eval x) key) h1) as S2.
    destruct (build_extends (deser (eval x) key) h1) as (e2 & E2).
    destruct (build (deser (eval x) key) h1) as [v2 h2]. simpl in *.
    exists v2. eexists. exists v1. split; [reflexivity|]. simpl.
    rewrite lookup_insert_eq. unfold row. simpl. rewrite Hr.
    repeat split; auto. rewrite E2. apply snapshot_extend, S1.
Qed.

Lemma miss_without_autoFetch_witness :
  has "k" None unfetching_world = Return false unfetching_world /\
  (exists v w',
     get "k" None unfetching_world = Return v w' /\
     snapshot (heap w') v = Some object_ab /\
     row "k" w'
     = Some (serialize (serializer (this unfetching_world) object_ab "k"))) /\
  (exists v w' v',
     fetch "k" unfetching_world = Return v w' /\
     snapshot (heap w') v
     = Some (deserializer (this unfetching_world)
               (eval (serialize (TNum 1%float))) "k") /\
     entries (this w') !! "k" = Some v' /\
     snapshot (heap w') v'
     = Some (deserializer (this unfetching_world)
               (eval (serialize (TNum 1%float))) "k") /\
     row "k" w' = Some (serialize (TNum 1%float))).
Proof.
  apply (miss_without_autoFetch unfetching_world "k"
           (serialize (TNum 1%float)) object_ab); vm_compute; reflexivity.
Defined.

(** X7.  [clear()] on a usable map returns; the map and the table are
    then empty, [has] is false for every key, the counter row is as it
    was, and the callback has not been called: the events of the call
    are the [DELETE] of all rows, on a persistent map, and the clearing
    of the map. *)
Theorem clear_empties w :
  usable w = true ->
  exists w',
    clear w = Return tt w' /\
    usable w' = true /\
    entries (this w') = ∅ /\
    (forall k, row k w' = None) /\
    counter w' = counter w /\
    trace w' = trace w
               ++ (if persistent (this w) then [Ran DeleteAllRows] else [])
               ++ [MapClear] /\
    forall k, has k None w' = Return false w'.
Proof.
  intros Hu.
  assert (exists w',
             clear w = Return tt w' /\ usable w' = true /\
             entries (this w') = ∅ /\ (forall k, row k w' = None) /\
             counter w' = counter w /\
             trace w' = trace w
                        ++ (if persistent (this w)
                            then [Ran DeleteAllRows] else [])
                        ++ [MapClear])
    as (w' & H1 & H2 & H3 & H4 & H5 & H6).
  { pose proof Hu as Hu'. apply usable_inv in Hu as (Hd & Hc & Hdb).
    open_world w. subst.
    destruct Hdb as [[-> ->]|(-> & d & t0 & -> & Ho & Hr)].
    - eexists. split; [reflexivity|]. simpl. repeat split; auto.
    - unfold clear, deleteAll. unfold_methods. unfold run. crunch.
      eexists. split; [reflexivity|].
      unfold usable, row, counter. simpl. repeat split; auto.
      rewrite <- app_assoc. reflexivity. }
  exists w'. repeat (split; [assumption|]).
  intros k. apply (fetched_None_absent w' k H2).
  - rewrite H3. apply lookup_empty.
  - unfold fetched. rewrite H4.
    destruct (persistent (this w') && autoFetch (this w')); reflexivity.
Qed.

Lemma clear_empties_witness :
  exists w',
    clear integer_world = Return tt w' /\
    usable w' = true /\
    entries (this w') = ∅ /\
    (forall k, row k w' = None) /\
    counter w' = counter integer_world /\
    trace w' = trace integer_world
               ++ (if persistent (this integer_world)
                   then [Ran DeleteAllRows] else [])
               ++ [MapClear] /\
    forall k, has k None w' = Return false w'.
Proof.
  apply (clear_empties integer_world). vm_compute. reflexivity.
Defined.





(** X9.  [destroy()] on a usable map without a database throws a
    [TypeError], the transaction being [undefined]; the map has been
    emptied and marked destroyed all the same, and [get] then throws a
    [DestroyedError]. *)
Theorem destroy_without_database w :
  usable w = true ->
  db (this w) = None ->
  exists w',
    destroy w = Throw TypeError w' /\
    isDestroyed (this w') = true /\
    entries (this w') = ∅ /\
    forall key path, get key path w' = Throw EnhancedMapDestroyedError w'.
Proof.
  intros Hu Hdb. apply usable_inv in Hu as (Hd & Hc & Hp).
  destruct Hp as [[Hp _]|(_ & d & ? & ? & _)]; [|congruence].
  open_world w. subst.
  eexists. split; [reflexivity|]. simpl. repeat split.
Qed.

Lemma destroy_without_database_witness :
  exists w',
    destroy plain_world = Throw TypeError w' /\
    isDestroyed (this w') = true /\
    entries (this w') = ∅ /\
    forall key path, get key path w' = Throw EnhancedMapDestroyedError w'.
Proof.
  apply (destroy_without_database plain_world); vm_compute; reflexivity.
Defined.

(** X10.  The getter [autonum] on a map without a database returns
    ["NaN"] and changes nothing. *)
Theorem autonum_without_database w :
  db (this w) = None -> autonum w = Return "NaN" w.
Proof.
  intros Hdb. unfold autonum, db_get_lastnum, db_run, toString, self, bind.
  rewrite Hdb. simpl. rewrite Hdb. reflexivity.
Qed.

Lemma autonum_without_database_witness :
  autonum plain_world = Return "NaN" plain_world.
Proof.
  apply (autonum_without_database plain_world). vm_compute. reflexivity.
Defined.

(** [_check(key, 'Object')] on a key that holds a value of another
    kind. *)
Lemma check_object_fails w key v t :
  usable w = true ->
  entries (this w) !! key = Some v ->
  snapshot (heap w) v = Some t ->
  tkind t <> Some "Object" ->
  _check_key key ["Object"] w
  = Throw EnhancedMapKeyTypeError (set_heap (build t (heap w)).2 w).
Proof.
  intros Hu He Hs Hk.
  unfold _check_key, _check_body.
  rewrite (bind_run _ _ _ _ _
             (has_key_present w key v (proj1 (usable_inv w Hu)) He)).
  cbn [negb].
  rewrite (bind_run _ _ _ _ _ (get_key_present w key v t Hu He Hs)).
  rewrite bind_the_heap. cbn [heap set_heap].
  unfold includes.
  rewrite (laid_kind _ _ _ _ (build_laid_here t (heap w))).
  destruct t; simpl in *; try reflexivity. congruence.
Qed.

Lemma check_path_fails w key v t types p :
  usable w = true ->
  entries (this w) !! key = Some v ->
  snapshot (heap w) v = Some t ->
  tkind t <> Some "Object" ->
  _check key types (Some p) w
  = Throw EnhancedMapKeyTypeError (set_heap (build t (heap w)).2 w).
Proof.
  intros Hu He Hs Hk. unfold _check, _check_body.
  rewrite (bind_run _ _ _ _ _
             (has_key_present w key v (proj1 (usable_inv w Hu)) He)).
  cbn [negb].
  apply bind_run_throw, (check_object_fails w key v t Hu He Hs Hk).
Qed.

(** X11.  With a path, [has], [push], [math], [inc] and [dec] first
    require the whole value to be a plain object: on a key that holds an
    array, or any value that is not a plain object, each throws a
    [KeyTypeError] and leaves the map, the database and the trace as
    they were. *)
Theorem path_needs_plain_object
  (Math_pow remainder : float -> float -> float) w key v t p :
  usable w = true ->
  entries (this w) !! key = Some v ->
  snapshot (heap w) v = Some t ->
  tkind t <> Some "Object" ->
  (exists w', has key (Some p) w = Throw EnhancedMapKeyTypeError w' /\
              this w' = this w /\ trace w' = trace w) /\
  (forall x allowDupes,
     exists w', push key x (Some p) allowDupes w
                = Throw EnhancedMapKeyTypeError w' /\
                this w' = this w /\ trace w' = trace w) /\
  (forall op operand,
     exists w', math Math_pow remainder key op operand (Some p) w
                = Throw EnhancedMapKeyTypeError w' /\
                this w' = this w /\ trace w' = trace w) /\
  (exists w', inc key (Some p) w = Throw EnhancedMapKeyTypeError w' /\
              this w' = this w /\ trace w' = trace w) /\
  (exists w', dec key (Some p) w = Throw EnhancedMapKeyTypeError w' /\
              this w' = this w /\ trace w' = trace w).
Proof.
  intros Hu He Hs Hk.
  pose proof (check_path_fails w key v t) as Hc.
  destruct (usable_inv w Hu) as (Hd & _ & _).
  assert (Hrc : _readyCheck w = Return tt w)
    by (unfold_methods; rewrite Hd; reflexivity).
  set (w1 := set_heap (build t (heap w)).2 w).
  assert (Hs1 : snapshot (heap w1) v = Some t).
  { destruct (build_extends t (heap w)) as (e & E). simpl. rewrite E.
    apply snapshot_extend, Hs. }
  split; [|split; [|split; [|split]]].
  - exists w1. split; [|split; reflexivity].
    unfold has, has_body.
    rewrite (bind_run _ _ _ _ _ Hrc),
      (bind_run _ _ _ _ _ (fetchCheck_present w key v He)).
    apply bind_run_throw, (check_object_fails w key v t Hu He Hs Hk).
  - intros x allowDupes.
    exists (set_heap (build t (heap w1)).2 w1). split; [|split; reflexivity].
    unfold push. rewrite get_None.
    rewrite (bind_run _ _ _ _ _ (get_key_present w key v t Hu He Hs)).
    apply bind_run_throw.
    apply (check_path_fails w1 key v t); auto.
  - intros op operand. exists w1. split; [|split; reflexivity].
    unfold math. apply bind_run_throw, Hc; auto.
  - exists w1. split; [|split; reflexivity].
    unfold inc, inc_dec. apply bind_run_throw, Hc; auto.
  - exists w1. split; [|split; reflexivity].
    unfold dec, inc_dec. apply bind_run_throw, Hc; auto.
Qed.

Lemma path_needs_plain_object_witness :
  exists w', push "array" (VNum 3%float) (Some "0") false
               (world_with "array" array_12)
             = Throw EnhancedMapKeyTypeError w' /\
             this w' = this (world_with "array" array_12) /\
             trace w' = trace (world_with "array" array_12).
Proof.
  destruct (path_needs_plain_object (fun a _ => a) (fun a _ => a)
              (world_with "array" array_12) "array" (VRef 4) array_12 "0")
    as (_ & H & _); try (vm_compute; reflexivity); [discriminate|].
  apply H.
Defined.

Lemma quiet_has_key key : quiet (has_key key).
Proof.
  unfold has_key, has_body. apply quiet_bind; [apply quiet_readyCheck|].
  intros _. apply quiet_bind; [apply quiet_fetchCheck|].
  intros _. apply quiet_super_has.
Qed.

Lemma quiet_check_key key types : quiet (_check_key key types).
Proof.
  unfold _check_key, _check_body.
  apply quiet_bind; [apply quiet_has_key|]. intros present.
  destruct (negb present); [apply quiet_throw|].
  apply quiet_bind; [apply quiet_get_key|]. intros v.
  apply quiet_bind; [apply quiet_the_heap|]. intros h.
  destruct (negb _); auto using quiet_throw, quiet_ret.
Qed.

Lemma quiet_check key types path : quiet (_check key types path).
Proof.
  unfold _check, _check_body.
  apply quiet_bind; [apply quiet_has_key|]. intros present.
  destruct (negb present); [apply quiet_throw|].
  destruct path as [p|].
  - apply quiet_bind; [apply quiet_check_key|]. intros _.
    apply quiet_bind; [apply quiet_get_key|]. intros v.
    apply quiet_bind; [apply quiet_the_heap|]. intros h.
    destruct (isNil _); [apply quiet_throw|].
    destruct (negb _); auto using quiet_throw, quiet_ret.
  - apply quiet_bind; [apply quiet_get_key|]. intros v.
    apply quiet_bind; [apply quiet_the_heap|]. intros h.
    destruct (negb _); auto using quiet_throw, quiet_ret.
Qed.

Lemma quiet_elements v : quiet (elements v).
Proof.
  apply quiet_same. intros w a w'. unfold elements.
  destruct v; try discriminate.
  destruct (heap w !! l) as [[|]|]; try discriminate.
  intros [= <- <-]. done.
Qed.

Lemma quiet_array_push v x : quiet (array_push v x).
Proof.
  apply quiet_same. intros w a w'. unfold array_push.
  destruct v; try discriminate.
  destruct (heap w !! l) as [[|]|]; try discriminate.
  intros [= <- <-]. done.
Qed.

Lemma quiet_lodash_set v p x : quiet (lodash_set v p x).
Proof. apply quiet_same. intros w a w' [= <- <-]. done. Qed.

Lemma quiet_step f v : quiet (step f v).
Proof. destruct v; simpl; auto using quiet_throw, quiet_ret. Qed.

Lemma quiet_push key x path allowDupes : quiet (push key x path allowDupes).
Proof.
  unfold push.
  apply quiet_bind; [apply quiet_get_key|]. intros data.
  apply quiet_bind; [apply quiet_check|]. intros _.
  destruct path as [p|].
  - apply quiet_bind; [apply quiet_the_heap|]. intros h.
    apply quiet_bind; [apply quiet_elements|]. intros es.
    destruct (_ && _); [apply quiet_ret|].
    apply quiet_bind; [apply quiet_array_push|]. intros _.
    apply quiet_bind; [apply quiet_lodash_set|]. intros _.
    apply quiet_internalSet.
  - apply quiet_bind; [apply quiet_elements|]. intros es.
    destruct (_ && _); [apply quiet_ret|].
    apply quiet_bind; [apply quiet_array_push|]. intros _.
    apply quiet_internalSet.
Qed.

Lemma quiet_inc_dec f key path : quiet (inc_dec f key path).
Proof.
  unfold inc_dec.
  apply quiet_bind; [apply quiet_check|]. intros _.
  destruct path as [p|].
  - apply quiet_bind; [apply quiet_get_key|]. intros data.
    apply quiet_bind; [apply quiet_the_heap|]. intros h.
    apply quiet_bind; [apply quiet_step|]. intros v.
    apply quiet_bind; [apply quiet_lodash_set|]. intros _.
    apply quiet_internalSet.
  - apply quiet_bind; [apply quiet_get_key|]. intros v.
    apply quiet_bind; [apply quiet_step|]. intros v'.
    apply quiet_internalSet.
Qed.

(** X12.  [push], [inc] and [dec] write through [_internalSet] and never
    call the change callback: whenever one of them returns, the events
    it has added to the trace are writes only.  [math], which writes
    through [set], does call it: on the map that holds ['integer'] with
    a callback registered, [inc('integer')] adds the statement and the
    write to the map, and [math('integer', '+', 1)] adds the call of the
    callback before them. *)
Theorem push_inc_dec_never_notify
  (Math_pow remainder : float -> float -> float) :
  (forall key x path allowDupes, quiet (push key x path allowDupes)) /\
  (forall key path, quiet (inc key path)) /\
  (forall key path, quiet (dec key path)) /\
  (exists w',
     inc "integer" None callback_world = Return tt w' /\
     trace w' = trace callback_world
                ++ [Ran (InsertOrReplace "integer" (serialize (TNum 43%float)));
                    MapSet "integer"]) /\
  (exists w',
     math Math_pow remainder "integer" Op_plus 1%float None callback_world
     = Return tt w' /\
     trace w' = trace callback_world
                ++ [Changed "integer" (Some (TNum 42%float))
                      (Some (TNum 43%float));
                    Ran (InsertOrReplace "integer" (serialize (TNum 43%float)));
                    MapSet "integer"]).
Proof.
  split; [exact quiet_push|]. split; [intros; apply quiet_inc_dec|].
  split; [intros; apply quiet_inc_dec|].
  split; eexists; split; vm_compute; reflexivity.
Qed.

Lemma fresh_val_mono n m v : n <= m -> fresh_val m v -> fresh_val n v.
Proof. destruct v; simpl; auto. lia. Qed.

Lemma fresh_primitive n x : isObject x = false -> fresh_val n x.
Proof. destruct x; simpl; auto. discriminate. Qed.

Lemma assoc_get_elem k ps v :
  assoc_get k ps = Some v -> v ∈ map snd ps.
Proof.
  induction ps as [|[k' v'] r IH]; simpl; [done|].
  destruct (String.eqb k' k).
  - intros [= ->]. apply list_elem_of_here.
  - intros H. apply list_elem_of_further, IH, H.
Qed.

Lemma get_prop_fresh n H v k :
  above n H -> fresh_val n v -> fresh_val n (get_prop H v k).
Proof.
  intros Ha Hv. destruct v; simpl; auto.
  destruct (H !! l) as [[ps|es]|] eqn:El; simpl; auto.
  - destruct (assoc_get k ps) as [u|] eqn:Ek; simpl; auto.
    pose proof (Ha l _ Hv El) as Hf. simpl in Hf.
    rewrite Forall_forall in Hf. apply Hf, (assoc_get_elem _ _ _ Ek).
  - destruct (String.eqb k "length"); simpl; auto.
    destruct (parse_index k) as [i|]; simpl; auto.
    destruct (es !! i) as [u|] eqn:Ei; simpl; auto.
    pose proof (Ha l _ Hv El) as Hf. simpl in Hf.
    rewrite Forall_lookup in Hf. apply (Hf i), Ei.
Qed.

Lemma baseGet_loop_fresh n H segs : forall v,
  above n H -> fresh_val n v -> fresh_val n (baseGet_loop H v segs).
Proof.
  induction segs as [|k r IH]; intros v Ha Hv; simpl; auto.
  destruct (isNil v); simpl; auto.
  apply IH; auto. apply get_prop_fresh; auto.
Qed.

Lemma get_fresh_val n H v p :
  above n H -> fresh_val n v -> fresh_val n (_get H v p).
Proof.
  intros Ha Hv. unfold _get, baseGet. destruct (isNil v); simpl; auto.
  destruct (castPath H p v); simpl; auto.
  apply (baseGet_loop_fresh n H (s :: l)); auto.
Qed.

Lemma assoc_set_vals n k x ps :
  Forall (fresh_val n) (map snd ps) -> fresh_val n x ->
  Forall (fresh_val n) (map snd (assoc_set k x ps)).
Proof.
  intros Hps Hx. induction ps as [|[k' v'] r IH]; simpl.
  - constructor; auto.
  - simpl in Hps. apply Forall_cons in Hps as [H1 H2].
    destruct (String.eqb k' k); simpl; constructor; auto.
Qed.

Lemma array_store_vals n es i x :
  Forall (fresh_val n) es -> fresh_val n x ->
  Forall (fresh_val n) (array_store es i x).
Proof.
  intros Hes Hx. unfold array_store. destruct (i <? length es)%nat.
  - apply Forall_insert; auto.
  - apply Forall_app. split; [exact Hes|]. apply Forall_app. split.
    + apply Forall_replicate. exact I.
    + constructor; auto.
Qed.

(** A store into an object from [n] on leaves the heap below [n] alone
    and keeps it closed from [n] on. *)
Lemma above_insert n H l o :
  above n H -> Forall (fresh_val n) (cell_vals o) -> above n (<[l := o]> H).
Proof.
  intros Ha Ho l' o' Hl' E.
  apply list_lookup_insert_Some in E as [(-> & <- & _)|(_ & E)]; eauto.
Qed.

Lemma above_app n H o :
  above n H -> Forall (fresh_val n) (cell_vals o) -> above n (H ++ [o]).
Proof.
  intros Ha Ho l' o' Hl' E.
  apply lookup_app_Some in E as [E|(_ & E)]; [eauto|].
  destruct (l' - length H) as [|?]; simpl in E; [|discriminate].
  injection E as <-. exact Ho.
Qed.

Lemma assignValue_frame n H v k x :
  fresh_val n v ->
  take n (assignValue H v k x) = take n H /\
  length (assignValue H v k x) = length H.
Proof.
  intros Hv. unfold assignValue. destruct v; auto.
  destruct (H !! l) as [[ps|es]|]; auto.
  - rewrite take_insert_ge, length_insert by exact Hv. auto.
  - destruct (parse_index k); auto.
    rewrite take_insert_ge, length_insert by exact Hv. auto.
Qed.

Lemma assignValue_above n H v k x :
  above n H -> fresh_val n v -> fresh_val n x ->
  above n (assignValue H v k x).
Proof.
  intros Ha Hv Hx. unfold assignValue. destruct v; auto.
  destruct (H !! l) as [[ps|es]|] eqn:El; auto.
  - apply above_insert; auto. simpl.
    apply assoc_set_vals; auto. exact (Ha l _ Hv El).
  - destruct (parse_index k); auto. apply above_insert; auto. simpl.
    apply array_store_vals; auto. exact (Ha l _ Hv El).
Qed.

(** [baseSet] from a value that does not refer below [n], in a heap closed
    from [n] on: the heap below [n] stays as it is.  The value stored is
    not looked into. *)
Lemma baseSet_frame n value segs : forall nested H,
  above n H -> fresh_val n nested -> n <= length H ->
  take n (baseSet_loop segs nested value H) = take n H /\
  length H <= length (baseSet_loop segs nested value H) /\
  (fresh_val n value -> above n (baseSet_loop segs nested value H)).
Proof.
  induction segs as [|k rest IH]; intros nested H Ha Hn Hl; simpl; auto.
  destruct (isNil nested); auto.
  destruct (unsafe_key k); auto.
  destruct rest as [|k2 rest'].
  - destruct (assignValue_frame n H nested k value Hn) as [-> ->].
    split; [reflexivity|]. split; [lia|].
    intros Hv. apply assignValue_above; auto.
  - set (objValue := get_prop H nested k).
    assert (Ho : fresh_val n objValue) by (apply get_prop_fresh; auto).
    assert (Hstep : forall newValue h1,
               above n h1 -> fresh_val n newValue ->
               take n h1 = take n H -> length H <= length h1 ->
               let h2 := assignValue h1 nested k newValue in
               take n (baseSet_loop (k2 :: rest') (get_prop h2 nested k)
                         value h2)
               = take n H /\
               length H
               <= length (baseSet_loop (k2 :: rest') (get_prop h2 nested k)
                            value h2) /\
               (fresh_val n value ->
                above n (baseSet_loop (k2 :: rest') (get_prop h2 nested k)
                           value h2))).
    { intros newValue h1 Ha1 Hnv Ht1 Hl1 h2.
      pose proof (assignValue_above n h1 nested k newValue Ha1 Hn Hnv) as Ha2.
      destruct (assignValue_frame n h1 nested k newValue Hn) as [Ht2 Hl2].
      destruct (IH (get_prop h2 nested k) h2) as (Ht3 & Hl3 & Ha3); auto.
      - apply get_prop_fresh; auto.
      - unfold h2. lia.
      - unfold h2 in *. split; [congruence|]. split; [lia|exact Ha3]. }
    destruct (isObject objValue).
    + apply Hstep; auto.
    + destruct (isIndex k2).
      * apply Hstep;
          [apply above_app; auto; constructor | simpl; lia
          |apply take_app_le; lia | rewrite length_app; lia].
      * apply Hstep;
          [apply above_app; auto; constructor | simpl; lia
          |apply take_app_le; lia | rewrite length_app; lia].
Qed.

Lemma set_frame n H v p value :
  above n H -> fresh_val n v -> n <= length H ->
  take n (_set H v p value) = take n H /\
  length H <= length (_set H v p value) /\
  (fresh_val n value -> above n (_set H v p value)).
Proof.
  intros Ha Hv Hl. unfold _set. destruct (isObject v); auto.
  apply baseSet_frame; auto.
Qed.

Lemma thread_build_closed ts :
  Forall build_closed ts ->
  forall n h, n <= length h -> above n h ->
    above n (thread build ts h).2 /\
    Forall (fresh_val n) (thread build ts h).1 /\
    length h <= length (thread build ts h).2.
Proof.
  induction 1 as [|t r Ht Hr IH]; intros n h Hl Ha; simpl; auto.
  destruct (Ht n h Hl Ha) as (A1 & F1 & L1).
  destruct (build t h) as [y h1]. simpl in *.
  destruct (IH n h1) as (A2 & F2 & L2); [lia|auto|].
  destruct (thread build r h1) as [ys h2]. simpl in *.
  split; [auto|]. split; [constructor; auto|lia].
Qed.

Lemma thread_build_prop_closed (ps : list (string * tree)) :
  Forall (fun p => build_closed p.2) ps ->
  forall n h, n <= length h -> above n h ->
    above n (thread build_prop ps h).2 /\
    Forall (fresh_val n) (map snd (thread build_prop ps h).1) /\
    length h <= length (thread build_prop ps h).2.
Proof.
  induction 1 as [|[k t] r Ht Hr IH]; intros n h Hl Ha; simpl; auto.
  simpl in Ht. destruct (Ht n h Hl Ha) as (A1 & F1 & L1).
  destruct (build t h) as [y h1]. simpl in *.
  destruct (IH n h1) as (A2 & F2 & L2); [lia|auto|].
  destruct (thread _ r h1) as [ys h2]. simpl in *.
  split; [auto|]. split; [constructor; auto|lia].
Qed.

Lemma build_above t : build_closed t.
Proof.
  induction t as [| | | | |ps IH|ts IH] using tree_nested_ind;
    intros a h Hl Ha; try (simpl; auto; fail).
  - destruct (thread_build_prop_closed ps IH a h Hl Ha) as (A & F & L).
    simpl. destruct (thread _ ps h) as [vs h']. simpl in *.
    split; [apply above_app; auto|]. split; [lia|].
    rewrite length_app. lia.
  - destruct (thread_build_closed ts IH a h Hl Ha) as (A & F & L).
    simpl. destruct (thread build ts h) as [vs h']. simpl in *.
    split; [apply above_app; auto|]. split; [lia|].
    rewrite length_app. lia.
Qed.

(** ** What a run leaves of the heap it started from *)

Lemma triple_bind {A B} P (m : M A) Q R (k : A -> M B) Q' :
  triple P m Q R -> (forall a, triple (Q a) (k a) Q' R) ->
  triple P (bind m k) Q' R.
Proof.
  intros Hm Hk w Hw. unfold bind. specialize (Hm w Hw).
  destruct (m w) as [a w1|e w1]; [apply Hk, Hm|exact Hm].
Qed.

Lemma triple_weaken {A} (P P' : World -> Prop) (m : M A)
  (Q Q' : A -> World -> Prop) (R R' : World -> Prop) :
  triple P m Q R ->
  (forall w, P' w -> P w) -> (forall a w, Q a w -> Q' a w) ->
  (forall w, R w -> R' w) -> triple P' m Q' R'.
Proof.
  intros H HP HQ HR w Hw. specialize (H w (HP w Hw)).
  destruct (m w); auto.
Qed.

Lemma triple_exists {A X} (P : X -> World -> Prop) (m : M A) Q R :
  (forall x, triple (P x) m Q R) -> triple (fun w => exists x, P x w) m Q R.
Proof. intros H w [x Hx]. exact (H x w Hx). Qed.

Lemma triple_pure {A} (P : World -> Prop) (phi : Prop) (m : M A) Q R :
  (phi -> triple P m Q R) -> triple (fun w => P w /\ phi) m Q R.
Proof. intros H w [Hw Hphi]. exact (H Hphi w Hw). Qed.

Lemma kept_grown h0 n w : kept h0 n w -> grown h0 w.
Proof. intros [H _]. exact H. Qed.

Lemma grown_same h0 w w' :
  heap w' = heap w -> cloneLevel (this w') = cloneLevel (this w) ->
  grown h0 w -> grown h0 w'.
Proof. unfold grown, deep. intros -> ->. auto. Qed.

Lemma kept_same h0 n w w' :
  heap w' = heap w -> cloneLevel (this w') = cloneLevel (this w) ->
  kept h0 n w -> kept h0 n w'.
Proof.
  intros Hh Hc (G & K). split; [eapply grown_same; eauto|].
  rewrite Hh. exact K.
Qed.

Lemma inert_tame {A} (m : M A) : inert m -> tame m.
Proof.
  intros H h0 n w Hw. destruct (H w) as [Hh Hc].
  destruct (m w) as [a w'|e w']; simpl in *.
  - eapply kept_same; eauto.
  - eapply grown_same; eauto using kept_grown.
Qed.

Lemma inert_bind {A B} (m : M A) (k : A -> M B) :
  inert m -> (forall a, inert (k a)) -> inert (bind m k).
Proof.
  intros Hm Hk w. unfold bind. destruct (Hm w) as [Hh Hc].
  destruct (m w) as [a w1|e w1]; simpl in *; [|auto].
  destruct (Hk a w1) as [Hh' Hc']. split; congruence.
Qed.

Lemma inert_ret {A} (a : A) : inert (ret a).
Proof. intros w. auto. Qed.

Lemma inert_throw {A} e : inert (@throw A e).
Proof. intros w. auto. Qed.

Lemma inert_when b m : inert m -> inert (when b m).
Proof. destruct b; simpl; auto using inert_ret. Qed.

Lemma inert_self : inert self.
Proof. intros w. auto. Qed.

Lemma inert_the_heap : inert the_heap.
Proof. intros w. auto. Qed.

Lemma inert_super_has key : inert (super_has key).
Proof. intros w. auto. Qed.

Lemma inert_super_get key : inert (super_get key).
Proof. intros w. auto. Qed.

Lemma inert_super_set key v : inert (super_set key v).
Proof. intros w. auto. Qed.

Lemma inert_super_delete key : inert (super_delete key).
Proof. intros w. auto. Qed.

Lemma inert_super_clear : inert super_clear.
Proof. intros w. auto. Qed.

Lemma inert_db_run st : inert (db_run st).
Proof.
  intros w. unfold db_run. destruct (db (this w)); [|auto].
  destruct (run _ _); auto.
Qed.

Lemma inert_db_run_strict st : inert (db_run_strict st).
Proof.
  intros w. unfold db_run_strict.
  pose proof (inert_db_run st w). destruct (db (this w)); auto.
Qed.

Lemma inert_db_get key : inert (db_get key).
Proof.
  intros w. unfold db_get. destruct (db (this w)); [|auto].
  destruct (select_row _ _); auto.
Qed.

Lemma inert_db_get_lastnum : inert db_get_lastnum.
Proof.
  intros w. unfold db_get_lastnum. destruct (db (this w)); [|auto].
  destruct (select_lastnum _ _); auto.
Qed.

Lemma inert_transaction sts : inert (transaction sts).
Proof.
  intros w. unfold transaction. destruct (db (this w)); [|auto].
  destruct (foldl _ _ _); auto.
Qed.

Lemma inert_encode v key : inert (encode v key).
Proof. intros w. unfold encode. destruct (snapshot _ _); auto. Qed.

Lemma inert_call_changedCB key o n : inert (call_changedCB key o n).
Proof. intros w. auto. Qed.

Lemma inert_elements v : inert (elements v).
Proof.
  intros w. unfold elements. destruct v; auto.
  destruct (heap w !! l) as [[|]|]; auto.
Qed.

Lemma inert_resolve x : inert (resolve x).
Proof.
  unfold resolve. destruct (scope_lookup _ _); auto using inert_ret, inert_throw.
Qed.

Lemma inert_step f v : inert (step f v).
Proof. destruct v; simpl; auto using inert_ret, inert_throw. Qed.

Lemma inert_mathop pw rm base op opand : inert (_mathop pw rm base op opand).
Proof.
  unfold _mathop. destruct (isNil base); [apply inert_throw|].
  destruct base; auto using inert_ret, inert_throw.
Qed.

Lemma inert_toString v : inert (toString v).
Proof.
  destruct v; simpl; auto using inert_ret, inert_throw.
  destruct (PrimFloat.is_nan _); auto using inert_ret, inert_throw.
Qed.

Lemma inert_readyCheck : inert _readyCheck.
Proof.
  unfold _readyCheck. apply inert_bind; [apply inert_self|].
  intros m. destruct (isDestroyed m); auto using inert_ret, inert_throw.
Qed.

Lemma inert_internalSet key v b : inert (_internalSet key v b).
Proof.
  unfold _internalSet. apply inert_bind; [apply inert_self|]. intros m.
  apply inert_bind.
  - apply inert_when, inert_bind; [apply inert_encode|].
    intros ?. apply inert_db_run.
  - intros _. apply inert_when, inert_super_set.
Qed.

Lemma inert_deleteAll : inert deleteAll.
Proof.
  unfold deleteAll. apply inert_bind; [apply inert_readyCheck|]. intros _.
  apply inert_bind; [apply inert_self|]. intros m.
  apply inert_bind; [apply inert_when, inert_db_run|]. intros _.
  apply inert_super_clear.
Qed.

Lemma inert_destroy : inert destroy.
Proof.
  unfold destroy. apply inert_bind; [apply inert_deleteAll|]. intros _.
  apply inert_bind; [intros w; auto|]. intros _.
  apply inert_bind; [apply inert_self|]. intros m.
  apply inert_transaction.
Qed.

Lemma inert_close : inert close.
Proof.
  unfold close. intros w.
  change (_readyCheck;; _)
    with (bind _readyCheck (fun _ : unit => fun w0 =>
            Return tt (set_this (set_db (option_map Sqlite.close (db (this w0)))
                                   (this w0)) w0))).
  revert w. apply inert_bind; [apply inert_readyCheck|].
  intros _ w. auto.
Qed.

Lemma inert_autonum : inert autonum.
Proof.
  unfold autonum. apply inert_bind; [apply inert_db_get_lastnum|]. intros r.
  apply inert_bind; [apply inert_self|]. intros m.
  apply inert_bind; [apply inert_db_run|]. intros _.
  apply inert_toString.
Qed.

Lemma inert_evict_all keys : inert (evict_all keys).
Proof.
  induction keys; simpl; [apply inert_ret|].
  apply inert_bind; [apply inert_super_delete|]. auto.
Qed.

(** *** The computations that allocate *)

Lemma tame_bind {A B} (m : M A) (k : A -> M B) :
  tame m -> (forall a, tame (k a)) -> tame (bind m k).
Proof.
  intros Hm Hk h0 n. eapply triple_bind; [apply Hm|].
  intros a. apply Hk.
Qed.

Lemma tame_ret {A} (a : A) : tame (ret a).
Proof. apply inert_tame, inert_ret. Qed.

Lemma tame_throw {A} e : tame (@throw A e).
Proof. apply inert_tame, inert_throw. Qed.

Lemma tame_when b m : tame m -> tame (when b m).
Proof. destruct b; simpl; auto using tame_ret. Qed.

Lemma take_prefix_trans (h0 h1 h2 : list obj) n :
  length h0 <= n -> take n h2 = take n h1 ->
  take (length h0) h1 = h0 -> take (length h0) h2 = h0.
Proof.
  intros Hl H2 H1.
  rewrite <- (Nat.min_l (length h0) n) by lia.
  rewrite <- take_take, H2, take_take, Nat.min_l by lia. exact H1.
Qed.

(** Building a picture on top of the heap. *)
Lemma kept_build h0 n w t :
  kept h0 n w ->
  kept h0 n (set_heap (build t (heap w)).2 w) /\
  kept h0 (length (heap w)) (set_heap (build t (heap w)).2 w) /\
  fresh_val (length (heap w)) (build t (heap w)).1.
Proof.
  intros ((Hd & Ht) & L0 & L1 & Ha).
  destruct (build_extends t (heap w)) as (ext & E).
  destruct (build_above t n (heap w) L1 Ha) as (A1 & _ & L2).
  assert (Ha0 : above (length (heap w)) (heap w)).
  { intros l o Hl Hlo. apply lookup_lt_Some in Hlo. lia. }
  destruct (build_above t (length (heap w)) (heap w) (le_n _) Ha0)
    as (A2 & F2 & _).
  assert (G : grown h0 (set_heap (build t (heap w)).2 w)).
  { split; [exact Hd|]. simpl. rewrite E, take_app_le by lia. exact Ht. }
  split; [|split; [|exact F2]].
  - split; [exact G|]. simpl. split; [lia|]. split; [lia|exact A1].
  - split; [exact G|]. simpl. split; [lia|]. split; [lia|exact A2].
Qed.

Lemma tame_parseData data key : tame (_parseData data key).
Proof.
  intros h0 n w Hw. unfold _parseData.
  destruct (kept_build h0 n w (deserializer (this w) (eval data) key) Hw)
    as (K & _).
  destruct (build _ (heap w)). exact K.
Qed.

Lemma deep_clone w data :
  deep w ->
  _clone data w
  = match snapshot (heap w) data with
    | Some t => Return (build t (heap w)).1 (set_heap (build t (heap w)).2 w)
    | None => Throw Unmodelled w
    end.
Proof.
  unfold deep, _clone, cloneDeep. intros ->.
  change (String.eqb "deep" "none") with false.
  change (String.eqb "deep" "shallow") with false.
  change (String.eqb "deep" "deep") with true. cbv iota.
  destruct (snapshot (heap w) data); [|reflexivity].
  destruct (build t (heap w)). reflexivity.
Qed.

Lemma fresh_clone data : yields_fresh (_clone data).
Proof.
  intros h0 n w Hw. rewrite deep_clone by apply Hw.
  destruct (snapshot (heap w) data) as [t|]; [|apply Hw].
  destruct (kept_build h0 n w t Hw) as (_ & K & F).
  exists (length (heap w)). auto.
Qed.

Lemma tame_clone data : tame (_clone data).
Proof.
  intros h0 n w Hw. rewrite deep_clone by apply Hw.
  destruct (snapshot (heap w) data) as [t|]; [|apply Hw].
  apply (kept_build h0 n w t Hw).
Qed.

Lemma fresh_bind {A} (m : M A) (k : A -> M val) :
  tame m -> (forall a, yields_fresh (k a)) -> yields_fresh (bind m k).
Proof.
  intros Hm Hk h0 n. eapply triple_bind; [apply Hm|].
  intros a. apply Hk.
Qed.

Create HintDb tame.
#[local] Hint Resolve inert_tame tame_ret tame_throw tame_clone tame_parseData
  inert_self inert_the_heap inert_super_has inert_super_get inert_super_set
  inert_super_delete inert_super_clear inert_db_run inert_db_run_strict
  inert_db_get inert_db_get_lastnum inert_transaction inert_encode
  inert_call_changedCB inert_elements inert_resolve inert_step inert_mathop
  inert_toString inert_readyCheck inert_internalSet inert_deleteAll
  inert_destroy inert_close inert_autonum inert_evict_all : tame.

Ltac tame_steps :=
  repeat first
    [ apply tame_bind; [|intros ?]
    | apply tame_when
    | match goal with
      | |- tame (if ?b then _ else _) => destruct b
      | |- tame (match ?o with Some _ => _ | None => _ end) => destruct o
      end
    | solve [auto with tame] ].

Lemma tame_fetch key : tame (fetch key).
Proof. unfold fetch. tame_steps. Qed.

Lemma tame_fetchCheck key : tame (_fetchCheck key).
Proof. unfold _fetchCheck. tame_steps. Qed.

Lemma tame_has_key key : tame (has_key key).
Proof. unfold has_key, has_body. tame_steps. Qed.

Lemma tame_get_body c key path : tame c -> tame (get_body c key path).
Proof.
  intros Hc. unfold get_body. tame_steps; auto.
Qed.

Lemma tame_get_key key : tame (get_key key).
Proof. apply tame_get_body, tame_ret. Qed.

Lemma fresh_get_key key : yields_fresh (get_key key).
Proof.
  unfold get_key, get_body.
  apply fresh_bind; [auto with tame|]. intros _.
  apply fresh_bind; [apply tame_fetchCheck|]. intros _.
  apply fresh_bind; [auto with tame|]. intros m.
  apply fresh_bind.
  { tame_steps. }
  intros _. apply fresh_bind; [auto with tame|]. intros data.
  apply fresh_clone.
Qed.

Lemma tame_check_body c key types path :
  tame c -> tame (_check_body c key types path).
Proof.
  intros Hc. unfold _check_body.
  apply tame_bind; [apply tame_has_key|]. intros present.
  destruct (negb present); [apply tame_throw|].
  destruct path as [p|].
  - apply tame_bind; [exact Hc|]. intros _.
    apply tame_bind; [apply tame_get_key|]. intros data.
    apply tame_bind; [auto with tame|]. intros h.
    destruct (isNil _); [apply tame_throw|].
    destruct (negb _); auto with tame.
  - apply tame_bind; [apply tame_get_key|]. intros data.
    apply tame_bind; [auto with tame|]. intros h.
    destruct (negb _); auto with tame.
Qed.

Lemma tame_check_key key types : tame (_check_key key types).
Proof. apply tame_check_body, tame_ret. Qed.

Lemma tame_check key types path : tame (_check key types path).
Proof. apply tame_check_body, tame_check_key. Qed.

Lemma tame_get key path : tame (get key path).
Proof. apply tame_get_body, tame_check_key. Qed.

Lemma tame_has key path : tame (has key path).
Proof.
  unfold has, has_body.
  apply tame_bind; [auto with tame|]. intros _.
  apply tame_bind; [apply tame_fetchCheck|]. intros _.
  destruct path as [p|]; [|auto with tame].
  apply tame_bind; [apply tame_check_key|]. intros _.
  apply tame_bind; [apply tame_get_key|]. intros data.
  apply tame_bind; auto with tame.
Qed.

Lemma tame_load_rows rs : tame (load_rows rs).
Proof.
  induction rs as [|[key value] r IH]; simpl; [apply tame_ret|].
  apply tame_bind; [apply tame_parseData|]. intros v.
  apply tame_bind; auto with tame.
Qed.

Lemma tame_fetchEverything : tame fetchEverything.
Proof.
  unfold fetchEverything.
  apply tame_bind; [auto with tame|]. intros _.
  apply tame_bind; [auto with tame|]. intros m.
  destruct (db m) as [d|]; [|apply tame_ret].
  destruct (is_open d); [|apply tame_throw].
  destruct (rows d); [apply tame_load_rows|apply tame_throw].
Qed.

(** *** The computations that store into an object *)

Lemma kept_lodash_set h0 n data p value :
  fresh_val n data ->
  triple (kept h0 n) (lodash_set data p value)
    (fun _ w => grown h0 w /\ (fresh_val n value -> kept h0 n w))
    (grown h0).
Proof.
  intros Hd w ((Hdeep & Ht) & L0 & L1 & Ha). unfold lodash_set.
  destruct (set_frame n (heap w) data p value Ha Hd L1) as (T & L & A).
  assert (G : grown h0 (set_heap (_set (heap w) data p value) w)).
  { split; [exact Hdeep|]. simpl.
    apply (take_prefix_trans h0 (heap w) _ n); auto. }
  split; [exact G|]. intros Hv.
  split; [exact G|]. simpl. split; [lia|]. split; [lia|auto].
Qed.

Lemma kept_array_push h0 n array x :
  fresh_val n array ->
  triple (kept h0 n) (array_push array x)
    (fun _ w => grown h0 w /\ (fresh_val n x -> kept h0 n w))
    (grown h0).
Proof.
  intros Hf w ((Hdeep & Ht) & L0 & L1 & Ha). unfold array_push.
  destruct array; try (split; assumption).
  destruct (heap w !! l) as [[ps|es]|] eqn:El; try (split; assumption).
  simpl in Hf.
  assert (G : grown h0 (set_heap (<[l:=OArray (es ++ [x])]> (heap w)) w)).
  { split; [exact Hdeep|]. simpl.
    apply (take_prefix_trans h0 (heap w) _ n); auto.
    apply take_insert_ge. exact Hf. }
  split; [exact G|]. intros Hx.
  split; [exact G|]. simpl. rewrite length_insert.
  split; [lia|]. split; [lia|].
  apply above_insert; auto. simpl.
  apply Forall_app. split; [exact (Ha l _ Hf El)|]. constructor; auto.
Qed.

Lemma fresh_new_object : yields_fresh new_object.
Proof.
  intros h0 n w ((Hdeep & Ht) & L0 & L1 & Ha). unfold new_object.
  exists n. split; [|simpl; lia].
  split; [split; [exact Hdeep|]|]; simpl.
  - rewrite take_app_le by lia. exact Ht.
  - rewrite length_app. simpl. split; [lia|]. split; [lia|].
    apply above_app; auto.
Qed.

Lemma tame_settles {A} (m : M A) : tame m -> settles m.
Proof.
  intros H h0 w (Hd & Ht).
  assert (K : kept (heap w) (length (heap w)) w).
  { split; [split; [exact Hd|apply firstn_all]|].
    split; [lia|]. split; [lia|].
    intros l o Hl Hlo. apply lookup_lt_Some in Hlo. lia. }
  specialize (H (heap w) (length (heap w)) w K).
  assert (L : length h0 <= length (heap w)).
  { rewrite <- Ht at 1. rewrite length_take. lia. }
  assert (E : forall w', grown (heap w) w' -> grown h0 w').
  { intros w' (Hd' & Ht'). split; [exact Hd'|].
    apply (take_prefix_trans h0 (heap w) _ (length (heap w))); auto.
    rewrite Ht'. symmetry. apply firstn_all. }
  destruct (m w) as [a w'|e w']; [apply E, H|apply E, H].
Qed.

Lemma settles_bind {A B} (m : M A) (k : A -> M B) :
  settles m -> (forall a, settles (k a)) -> settles (bind m k).
Proof.
  intros Hm Hk h0. eapply triple_bind; [apply Hm|].
  intros a. apply Hk.
Qed.

Lemma tame_steady {A} (m : M A) : tame m -> steady m.
Proof.
  intros H h0 n. eapply triple_weaken; [apply (H h0 n)|auto..].
  intros a w. apply kept_grown.
Qed.

Lemma steady_bind {A B} (m : M A) (k : A -> M B) :
  tame m -> (forall a, steady (k a)) -> steady (bind m k).
Proof.
  intros Hm Hk h0 n. eapply triple_bind; [apply Hm|].
  intros a. apply Hk.
Qed.

Lemma steady_settles {A} (m : M A) : steady m -> settles m.
Proof.
  intros H h0 w (Hd & Ht).
  assert (K : kept (heap w) (length (heap w)) w).
  { split; [split; [exact Hd|apply firstn_all]|].
    split; [lia|]. split; [lia|].
    intros l o Hl Hlo. apply lookup_lt_Some in Hlo. lia. }
  specialize (H (heap w) (length (heap w)) w K).
  assert (L : length h0 <= length (heap w)).
  { rewrite <- Ht at 1. rewrite length_take. lia. }
  assert (E : forall w', grown (heap w) w' -> grown h0 w').
  { intros w' (Hd' & Ht'). split; [exact Hd'|].
    apply (take_prefix_trans h0 (heap w) _ (length (heap w))); auto.
    rewrite Ht'. symmetry. apply firstn_all. }
  destruct (m w) as [a w'|e w']; [apply E, H|apply E, H].
Qed.

Lemma steady_set key value path : steady (set key value path).
Proof.
  intros h0 n. unfold set.
  eapply triple_bind; [apply (fresh_get_key key)|]. intros data.
  apply triple_exists. intros n'. apply triple_pure. intros Hf.
  eapply triple_bind; [apply (inert_tame _ (inert_super_has key))|].
  intros present.
  eapply triple_bind with (Q := fun _ => kept h0 n').
  { destruct present; [apply tame_clone|apply tame_ret]. }
  intros oldValue.
  eapply triple_bind with (Q := fun _ => grown h0).
  - destruct path as [p|].
    + eapply triple_bind
        with (Q := fun d w => exists n2, kept h0 n2 w /\ fresh_val n2 d).
      * destruct (isNil data); [apply fresh_new_object|].
        intros w Hw. exists n'. auto.
      * intros d. apply triple_exists. intros n2.
        apply triple_pure. intros Hd.
        eapply triple_bind; [apply (kept_lodash_set h0 n2 d p value Hd)|].
        intros ? w [G _]. exact G.
    + intros w Hw. apply Hw.
  - intros d. apply tame_settles. tame_steps.
Qed.

(** [push] after its checks, on the array [propValue] of the copy
    [data]. *)
Lemma steady_push_tail key x p data propValue allowDupes h0 n :
  fresh_val n data -> fresh_val n propValue -> isObject x = false ->
  triple (kept h0 n)
    (es <- elements propValue ;;
     if negb allowDupes && indexOf_found es x then ret tt
     else
       array_push propValue x ;;
       lodash_set data p propValue ;;
       _internalSet key data true)
    (fun _ => grown h0) (grown h0).
Proof.
  intros Hd Hp Hx.
  eapply triple_bind; [apply (inert_tame _ (inert_elements propValue))|].
  intros es. destruct (_ && _); [apply tame_steady, tame_ret|].
  eapply triple_bind with (Q := fun _ => kept h0 n).
  { eapply triple_weaken; [apply (kept_array_push h0 n propValue x Hp)|auto..].
    intros ? w [_ K]. apply K, fresh_primitive, Hx. }
  intros ?.
  eapply triple_bind with (Q := fun _ => grown h0).
  { eapply triple_weaken;
      [apply (kept_lodash_set h0 n data p propValue Hd)|auto..].
    intros ? w [G _]. exact G. }
  intros ?. apply tame_settles. auto with tame.
Qed.

Lemma steady_push key x path allowDupes :
  path = None \/ isObject x = false ->
  steady (push key x path allowDupes).
Proof.
  intros Hx h0 n. unfold push.
  eapply triple_bind; [apply (fresh_get_key key)|]. intros data.
  apply triple_exists. intros n'. apply triple_pure. intros Hf.
  eapply triple_bind; [apply (tame_check key ["Array"] path h0 n')|]. intros ?.
  destruct path as [p|].
  - destruct Hx as [Hx|Hx]; [discriminate|].
    intros w Hw. rewrite bind_the_heap.
    apply (steady_push_tail key x p data _ allowDupes h0 n'); auto.
    apply get_fresh_val; auto. apply Hw.
  - eapply triple_bind; [apply (inert_tame _ (inert_elements data))|].
    intros es. destruct (_ && _); [apply tame_steady, tame_ret|].
    eapply triple_bind with (Q := fun _ => grown h0).
    { eapply triple_weaken; [apply (kept_array_push h0 n' data x Hf)|auto..].
      intros ? w [G _]. exact G. }
    intros ?. apply tame_settles. auto with tame.
Qed.

Lemma steady_inc_dec f key path : steady (inc_dec f key path).
Proof.
  unfold inc_dec. apply steady_bind; [apply tame_check|]. intros ?.
  destruct path as [p|].
  - intros h0 n.
    eapply triple_bind; [apply (fresh_get_key key)|]. intros data.
    apply triple_exists. intros n'. apply triple_pure. intros Hf.
    eapply triple_bind; [apply (inert_tame _ inert_the_heap)|]. intros h.
    eapply triple_bind; [apply (inert_tame _ (inert_step f _))|].
    intros propValue.
    eapply triple_bind with (Q := fun _ => grown h0).
    { eapply triple_weaken;
        [apply (kept_lodash_set h0 n' data p propValue Hf)|auto..].
      intros ? w [G _]. exact G. }
    intros ?. apply tame_settles. auto with tame.
  - apply tame_steady. tame_steps.
Qed.

Lemma steady_math pw rm key op operand path :
  steady (math pw rm key op operand path).
Proof.
  unfold math. apply steady_bind; [apply tame_check|]. intros ?.
  apply steady_bind; [apply tame_get|]. intros data.
  apply steady_bind; [auto with tame|]. intros result.
  apply steady_set.
Qed.

Lemma resolve_isArray :
  resolve "isArray" = throw (ReferenceError "isArray").
Proof. reflexivity. Qed.

Lemma steady_delete key path : steady (delete key path).
Proof.
  unfold delete. apply steady_bind; [auto with tame|]. intros ?.
  apply steady_bind; [apply tame_fetchCheck|]. intros ?.
  apply steady_bind; [apply tame_get_key|]. intros oldValue.
  destruct path as [p|].
  - apply steady_bind; [apply tame_get_key|]. intros data.
    apply steady_bind; [auto with tame|]. intros h.
    rewrite resolve_isArray. apply tame_steady.
    intros h0 n w Hw. apply Hw.
  - apply tame_steady. tame_steps.
Qed.

(** *** Calls of the methods, one after the other *)

Lemma inert_changed : inert changed.
Proof. intros w. auto. Qed.

Lemma settles_final {A} (m : M A) h0 w :
  settles m -> grown h0 w -> grown h0 (final (m w)).
Proof.
  intros H Hw. specialize (H h0 w Hw). destruct (m w); exact H.
Qed.

Lemma inert_evict key : inert (evict key).
Proof. apply inert_super_delete. Qed.

Lemma inert_clear : inert clear.
Proof. apply inert_deleteAll. Qed.

Lemma perform_grown pw rm c h0 w :
  pushes_primitive c = true -> grown h0 w -> grown h0 (perform pw rm c w).
Proof.
  intros Hc Hw.
  destruct c; unfold perform; apply settles_final; auto.
  - apply tame_settles, tame_get.
  - apply tame_settles, tame_has.
  - apply steady_settles, steady_set.
  - apply steady_settles, steady_push.
    destruct path; [right|left; reflexivity].
    simpl in Hc. destruct (isObject x); [discriminate|reflexivity].
  - apply steady_settles, steady_math.
  - apply steady_settles, steady_inc_dec.
  - apply steady_settles, steady_inc_dec.
  - apply steady_settles, steady_delete.
  - apply tame_settles, tame_fetch.
  - apply tame_settles, tame_fetchEverything.
  - apply tame_settles, inert_tame, inert_evict.
  - apply tame_settles, inert_tame, inert_clear.
  - apply tame_settles, inert_tame, inert_changed.
  - apply tame_settles, inert_tame, inert_close.
  - apply tame_settles, inert_tame, inert_destroy.
  - apply tame_settles, inert_tame, inert_autonum.
Qed.

Lemma perform_all_grown pw rm cs : forall h0 w,
  forallb pushes_primitive cs = true -> grown h0 w ->
  grown h0 (perform_all pw rm cs w).
Proof.
  induction cs as [|c r IH]; intros h0 w Hc Hw; [exact Hw|].
  simpl in Hc. apply andb_prop in Hc as [H1 H2].
  apply (IH h0 (perform pw rm c w)); auto using perform_grown.
Qed.

(** X13.  A map that clones deeply, as the constructor leaves every map,
    never writes into an object that existed before a call: whatever
    calls of [get], [has], [set], [push], [math], [inc], [dec], [delete],
    [fetch], [fetchEverything], [evict], [clear], [changed], [close],
    [destroy] and [autonum] are made one after the other, returning or
    throwing, the heap is only extended, so every value the caller holds
    keeps its picture (what the test 'supports deep clones by default'
    expects of [baseObj]).  A [push] with a path is covered for a
    primitive value. *)
Theorem calls_leave_objects_alone
  (Math_pow remainder : float -> float -> float) cs w :
  cloneLevel (this w) = "deep" ->
  forallb pushes_primitive cs = true ->
  exists ext,
    heap (perform_all Math_pow remainder cs w) = heap w ++ ext /\
    forall v t,
      snapshot (heap w) v = Some t ->
      snapshot (heap (perform_all Math_pow remainder cs w)) v = Some t.
Proof.
  intros Hd Hc.
  destruct (perform_all_grown Math_pow remainder cs (heap w) w Hc) as [_ Ht].
  { split; [exact Hd|apply firstn_all]. }
  exists (drop (length (heap w)) (heap (perform_all Math_pow remainder cs w))).
  assert (E : heap (perform_all Math_pow remainder cs w)
              = heap w
                ++ drop (length (heap w))
                     (heap (perform_all Math_pow remainder cs w))).
  { pose proof (take_drop (length (heap w))
                  (heap (perform_all Math_pow remainder cs w))) as E.
    rewrite Ht in E. symmetry. exact E. }
  split; [exact E|].
  intros v t Hs. rewrite E. apply snapshot_extend, Hs.
Qed.

Lemma calls_leave_objects_alone_witness :
  let w := final (memory_enmap VUndef (build object_prop3 []).2) in
  let cs := [CallSet "foo" (build object_prop3 []).1 None;
             CallSet "foo" (VStr "other") (Some "prop2");
             CallPush "foo" (VNum 4%float) (Some "prop3") false] in
  exists ext,
    heap (perform_all (fun a _ => a) (fun a _ => a) cs w) = heap w ++ ext /\
    forall v t,
      snapshot (heap w) v = Some t ->
      snapshot (heap (perform_all (fun a _ => a) (fun a _ => a) cs w)) v
      = Some t.
Proof.
  intros w cs.
  apply (calls_leave_objects_alone (fun a _ => a) (fun a _ => a) cs w);
    vm_compute; reflexivity.
Defined.

(** ** [includes] *)

















(** ** [remove] *)

Lemma SFeqb_sym a b : SFeqb a b = SFeqb b a.
Proof.
  unfold SFeqb, SFcompare.
  destruct a as [[]|[]| |[] m e], b as [[]|[]| |[] m' e']; try reflexivity;
    change (PosDef.Pos.compare_cont Eq m m') with (Pos.compare m m');
    change (PosDef.Pos.compare_cont Eq m' m) with (Pos.compare m' m);
    pose proof (Z.compare_antisym e e') as A;
    pose proof (Pos.compare_antisym m m') as B;
    destruct (e ?= e')%Z, (e' ?= e)%Z, (m ?= m')%positive,
      (m' ?= m)%positive; simpl in *; congruence.
Qed.

Lemma strict_eq_sym a b : strict_eq a b = strict_eq b a.
Proof.
  destruct a, b; simpl; auto.
  - destruct b, b0; reflexivity.
  - rewrite !FloatAxioms.eqb_spec. apply SFeqb_sym.
  - apply String.eqb_sym.
  - apply Nat.eqb_sym.
Qed.

Lemma thread_strict_eq ts x :
  isObject x = false ->
  forall h, Forall2 (fun v t => strict_eq x v = picture_eq t x)
              (thread build ts h).1 ts.
Proof.
  intros Hx. induction ts as [|t r IH]; intros h; simpl; [constructor|].
  pose proof (build_strict_eq t h x Hx) as E.
  destruct (build t h) as [y h1]. specialize (IH h1).
  destruct (thread build r h1) as [ys h2]. simpl in *.
  constructor; [|exact IH]. rewrite strict_eq_sym. exact E.
Qed.

(** What [findIndex] and [splice] leave of an array, in pictures. *)
Lemma splice_pictures (R : val -> tree -> Prop) x vs ts :
  Forall2 R vs ts ->
  Forall2 (fun v t => strict_eq x v = picture_eq t x) vs ts ->
  Forall2 R
    (match findIndex vs x with
     | Some i => take i vs ++ drop (S i) vs
     | None => vs
     end)
    (remove_first x ts).
Proof.
  intros HR. induction HR as [|v t vs ts Hvt HR IH]; intros HE.
  - constructor.
  - apply Forall2_cons_1 in HE as [E HE]. specialize (IH HE). simpl.
    rewrite E. destruct (picture_eq t x); [exact HR|].
    destruct (findIndex vs x) as [i|]; simpl; constructor; auto.
Qed.

Lemma findIndex_none x vs ts :
  Forall2 (fun v t => strict_eq x v = picture_eq t x) vs ts ->
  existsb (fun t => picture_eq t x) ts = false ->
  findIndex vs x = None /\ remove_first x ts = ts.
Proof.
  induction 1 as [|v t vs ts E HE IH]; simpl; [auto|].
  intros Hf. apply orb_false_iff in Hf as [H1 H2].
  rewrite E, H1. destruct (IH H2) as [-> ->]. auto.
Qed.

(** [remove(key, x)] up to the final [set]: the copy [get] made, with
    the first element strictly equal to [x] taken out. *)
Lemma remove_reads w key v x ts :
  usable w = true ->
  entries (this w) !! key = Some v ->
  snapshot (heap w) v = Some (TArray ts) ->
  isObject x = false ->
  exists d h3 ext,
    remove key x None w = set key d None (set_heap h3 w) /\
    h3 = heap w ++ ext /\
    snapshot h3 d = Some (TArray (remove_first x ts)).
Proof.
  intros Hu He Hs Hx.
  destruct (usable_inv w Hu) as (Hd & _ & _).
  assert (Hrc : _readyCheck w = Return tt w)
    by (unfold_methods; rewrite Hd; reflexivity).
  set (w1 := set_heap (build (TArray ts) (heap w)).2 w).
  destruct (build_extends (TArray ts) (heap w)) as (e1 & E1).
  assert (Hs1 : snapshot (heap w1) v = Some (TArray ts)).
  { unfold w1. cbn [heap set_heap]. rewrite E1. apply snapshot_extend, Hs. }
  set (h1a := (thread build ts (heap w1)).2).
  set (vs1 := (thread build ts (heap w1)).1).
  destruct (thread_build_array ts (Forall_true _ _ build_spec) (heap w1))
    as (seg & E & Ln & R).
  fold h1a vs1 in E, R.
  set (vs' := match findIndex vs1 x with
              | Some i => take i vs1 ++ drop (S i) vs1
              | None => vs1
              end).
  exists (VRef (length h1a)), (h1a ++ [OArray vs']), (e1 ++ seg ++ [OArray vs']).
  split; [|split].
  - unfold remove.
    rewrite (bind_run _ _ _ _ _ Hrc).
    rewrite (bind_run _ _ _ _ _ (fetchCheck_present w key v He)).
    rewrite (bind_run _ _ _ _ _
               (check_key_present w key v (TArray ts) ["Array"; "Object"]
                  Hu He Hs
                  (includes_built (TArray ts) (heap w) "Array"
                     ["Array"; "Object"] eq_refl eq_refl))).
    fold w1. rewrite get_None.
    rewrite (bind_run _ _ _ _ _ (get_key_present w1 key v _ Hu He Hs1)).
    rewrite build_array. cbn [fst snd]. fold h1a vs1.
    unfold elements at 1. unfold bind at 1. cbn [heap set_heap].
    rewrite list_lookup_middle by done.
    unfold bind at 1. fold vs'.
    assert (Hsp : (match findIndex vs1 x with
                   | Some index => splice_at (VRef (length h1a)) index
                   | None => ret tt
                   end) (set_heap (h1a ++ [OArray vs1]) w1)
                  = Return tt (set_heap (h1a ++ [OArray vs']) w)).
    { unfold vs'. destruct (findIndex vs1 x) as [i|]; [|reflexivity].
      unfold splice_at. cbn [heap set_heap].
      rewrite list_lookup_middle by done.
      rewrite insert_app_r_alt by lia. rewrite Nat.sub_diag. reflexivity. }
    rewrite Hsp. reflexivity.
  - rewrite E. unfold w1. cbn [heap set_heap]. rewrite E1.
    rewrite <- !app_assoc. reflexivity.
  - unfold snapshot. simpl. rewrite list_lookup_middle by done. simpl.
    apply fmap_Some. exists (remove_first x ts). split; [|done].
    apply mapM_Some. unfold vs'.
    apply (splice_pictures
             (fun v t => reify (length (h1a ++ [OArray vs'])) 
                           (h1a ++ [OArray vs']) v = Some t)).
    + apply R. rewrite length_app, E, length_app. simpl. lia.
    + apply thread_strict_eq, Hx.
Qed.

Lemma sound_set_heap w h ext :
  sound w = true -> h = heap w ++ ext -> sound (set_heap h w) = true.
Proof.
  intros Hs ->. destruct (sound_inv w Hs) as [Hu Hr].
  unfold sound. rewrite usable_set_heap, Hu. simpl.
  apply (readable_step w); eauto.
Qed.

Lemma reading_set_heap w h ext k :
  readable w = true -> h = heap w ++ ext ->
  reading (set_heap h w) k = reading w k.
Proof.
  intros Hr ->. apply reading_step; eauto using same_config_refl.
Qed.

(** X16.  On a key that holds an array, [remove(key, x)] for a
    primitive [x] returns and leaves under the key the array without its
    first element strictly equal to [x] (so without change when there is
    none, as for [NaN]), in the map and, on a persistent map, in the row;
    the other keys read as before. *)
Theorem remove_takes_first_out w key v x ts :
  sound w = true ->
  entries (this w) !! key = Some v ->
  snapshot (heap w) v = Some (TArray ts) ->
  isObject x = false ->
  exists w',
    remove key x None w = Return tt w' /\
    sound w' = true /\
    reading w' key = Some (TArray (remove_first x ts)) /\
    (forall k, k <> key -> reading w' k = reading w k) /\
    row key w'
    = (if persistent (this w)
       then Some (serialize (serializer (this w)
                               (TArray (remove_first x ts)) key))
       else None).
Proof.
  intros Hs He Hv Hx. destruct (sound_inv w Hs) as [Hu Hr].
  destruct (remove_reads w key v x ts Hu He Hv Hx)
    as (d & h3 & ext & Hrun & Hh & Hd).
  destruct (set_writes (set_heap h3 w) key d _
              (sound_set_heap w h3 ext Hs Hh) Hd)
    as (w' & Hset & Hs' & _ & _ & Hread & Hoth & _ & _ & Hrow & _).
  exists w'. split; [rewrite Hrun; exact Hset|].
  split; [exact Hs'|]. split; [exact Hread|]. split; [|exact Hrow].
  intros k Hk. rewrite (Hoth k Hk).
  apply (reading_set_heap w h3 ext k Hr Hh).
Qed.

Lemma remove_takes_first_out_witness :
  exists w',
    remove "array" (VNum 1%float) None (world_with "array" array_12)
    = Return tt w' /\
    sound w' = true /\
    reading w' "array" = Some (TArray [TNum 2%float]) /\
    (forall k, k <> "array" ->
       reading w' k = reading (world_with "array" array_12) k) /\
    row "array" w'
    = Some (serialize (TArray [TNum 2%float])).
Proof.
  apply (remove_takes_first_out (world_with "array" array_12) "array"
           (VRef 4) (VNum 1%float) array_elements);
    vm_compute; reflexivity.
Defined.

(** [push(key, x)] of a value that is not in the array, with what it
    leaves of the other keys. *)
Lemma push_appends_sound w key v x ts px :
  sound w = true ->
  entries (this w) !! key = Some v ->
  snapshot (heap w) v = Some (TArray ts) ->
  reify 0 [] x = Some px ->
  existsb (fun t => picture_eq t x) ts = false ->
  exists w' v',
    push key x None false w = Return tt w' /\
    sound w' = true /\
    entries (this w') !! key = Some v' /\
    snapshot (heap w') v' = Some (TArray (ts ++ [px])) /\
    (forall k, k <> key -> reading w' k = reading w k).
Proof.
  intros Hs He Hv Hx Hf. destruct (sound_inv w Hs) as [Hu Hr].
  destruct (push_not_found w key v x ts px Hu He Hv Hx Hf)
    as (rest & Hp & Hpic).
  set (h := (thread build ts (heap w)).2 ++
            OArray ((thread build ts (heap w)).1 ++ [x]) :: rest) in *.
  set (d := VRef (length (thread build ts (heap w)).2)) in *.
  assert (Hext : exists ext, h = heap w ++ ext).
  { destruct (thread_build_array ts (Forall_true _ _ build_spec) (heap w))
      as (seg & E & _). unfold h. rewrite E, <- app_assoc. eauto. }
  destruct Hext as (ext & Hext).
  destruct (internalSet_spec (set_heap h w) key d true _
              (eq_trans (usable_set_heap h w) Hu) Hpic)
    as (w' & Hset & Hh & Hcfg & Hu' & Hent & _ & Hrow & _).
  cbn [heap set_heap this] in Hh, Hcfg, Hent, Hrow.
  exists w', d. split; [rewrite Hp; exact Hset|].
  assert (Hr' : readable w' = true).
  { apply (readable_step w); auto.
    - exists ext. rewrite Hh. exact Hext.
    - apply Hcfg.
    - intros k u. rewrite Hent. destruct (decide (k = key)) as [->|Hk].
      + rewrite lookup_insert_eq. intros [= <-]. right.
        rewrite Hh. eauto.
      + rewrite lookup_insert_ne by congruence. auto. }
  split; [unfold sound; rewrite Hu', Hr'; reflexivity|].
  split; [rewrite Hent; apply lookup_insert_eq|].
  split; [rewrite Hh; exact Hpic|].
  intros k Hk.
  apply reading_step;
    [exact Hr | exists ext; rewrite Hh; exact Hext | exact Hcfg
    |rewrite Hent; apply lookup_insert_ne; congruence
    |rewrite (Hrow k Hk); reflexivity].
Qed.

Lemma remove_first_appended x px ts :
  existsb (fun t => picture_eq t x) ts = false ->
  picture_eq px x = true ->
  remove_first x (ts ++ [px]) = ts.
Proof.
  intros Hf Hp. induction ts as [|t r IH]; simpl in *.
  - rewrite Hp. reflexivity.
  - apply orb_false_iff in Hf as [H1 H2]. rewrite H1, IH; auto.
Qed.

(** X17.  [remove] undoes [push]: on a key that holds an array without
    an element strictly equal to the primitive [x], for an [x] that
    equals itself, [push(key, x)] followed by [remove(key, x)] returns
    and every key reads as it did before. *)
Theorem push_then_remove w key v x ts px :
  sound w = true ->
  entries (this w) !! key = Some v ->
  snapshot (heap w) v = Some (TArray ts) ->
  reify 0 [] x = Some px ->
  strict_eq x x = true ->
  existsb (fun t => picture_eq t x) ts = false ->
  exists w1 w2,
    push key x None false w = Return tt w1 /\
    remove key x None w1 = Return tt w2 /\
    forall k, reading w2 k = reading w k.
Proof.
  intros Hs He Hv Hx Hxx Hf. destruct (sound_inv w Hs) as [Hu Hr].
  destruct (push_appends_sound w key v x ts px Hs He Hv Hx Hf)
    as (w1 & v1 & Hpush & Hs1 & He1 & Hv1 & Hoth1).
  destruct (sound_inv w1 Hs1) as [Hu1 Hr1].
  pose proof (primitive_not_object _ _ Hx) as Hp.
  destruct (remove_reads w1 key v1 x _ Hu1 He1 Hv1 Hp)
    as (d & h3 & ext & Hrun & Hh & Hd).
  rewrite remove_first_appended in Hd; auto.
  2: { rewrite (picture_eq_primitive _ _ Hx). exact Hxx. }
  destruct (set_writes (set_heap h3 w1) key d _
              (sound_set_heap w1 h3 ext Hs1 Hh) Hd)
    as (w2 & Hset & _ & _ & _ & Hread & Hoth & _).
  exists w1, w2. split; [exact Hpush|]. split; [rewrite Hrun; exact Hset|].
  intros k. destruct (decide (k = key)) as [->|Hk].
  - rewrite Hread. unfold reading. rewrite He. symmetry. exact Hv.
  - rewrite (Hoth k Hk), (reading_set_heap w1 h3 ext k Hr1 Hh).
    apply Hoth1, Hk.
Qed.

Lemma push_then_remove_witness :
  exists w1 w2,
    push "array" (VNum 3%float) None false (world_with "array" array_12)
    = Return tt w1 /\
    remove "array" (VNum 3%float) None w1 = Return tt w2 /\
    forall k, reading w2 k = reading (world_with "array" array_12) k.
Proof.
  apply (push_then_remove (world_with "array" array_12) "array" (VRef 4)
           (VNum 3%float) array_elements (TNum 3%float));
    vm_compute; reflexivity.
Defined.



(** ** Paths in a value known by its picture *)

Lemma snapshot_of_reify h e c :
  reify (length h) h e = Some c -> snapshot h e = Some c.
Proof.
  intros Hc. pose proof (reify_mono _ _ _ _ Hc (S (length h)) []) as H.
  rewrite app_nil_r in H. apply H. lia.
Qed.

Lemma snapshot_cell h v t :
  snapshot h v = Some t ->
  match v with
  | VRef l =>
      match h !! l with
      | Some (OArray es) =>
          exists ts, t = TArray ts /\
                     Forall2 (fun e c => snapshot h e = Some c) es ts
      | Some (OObject ps) =>
          exists qs, t = TObject qs /\
                     Forall2 (fun (p : string * val) (q : string * tree) =>
                                p.1 = q.1 /\ snapshot h p.2 = Some q.2) ps qs
      | None => False
      end
  | _ => reify 0 [] v = Some t
  end.
Proof.
  unfold snapshot. destruct v; simpl; auto.
  destruct (h !! l) as [[ps|es]|]; [| |discriminate].
  - intros E. apply fmap_Some in E as (qs & Hm & ->). exists qs.
    split; [reflexivity|]. apply mapM_Some in Hm.
    eapply Forall2_impl; [exact Hm|]. intros [k e] [k' c] Hp. simpl in *.
    apply fmap_Some in Hp as (c' & Hc & [= -> ->]). split; [reflexivity|].
    apply snapshot_of_reify, Hc.
  - intros E. apply fmap_Some in E as (ts & Hm & ->). exists ts.
    split; [reflexivity|]. apply mapM_Some in Hm.
    eapply Forall2_impl; [exact Hm|]. intros e c Hc.
    apply snapshot_of_reify, Hc.
Qed.

Lemma snapshot_isNil h v t : snapshot h v = Some t -> isNil v = tis_nil t.
Proof.
  intros Hs. pose proof (snapshot_cell h v t Hs) as Hc.
  destruct v; simpl in Hc; try (injection Hc as <-; reflexivity).
  destruct (h !! l) as [[|]|]; [| |done]; destruct Hc as (? & -> & _);
    reflexivity.
Qed.

Lemma snapshot_kind h v t :
  snapshot h v = Some t -> constructor_name h v = tkind t.
Proof.
  intros Hs. pose proof (snapshot_cell h v t Hs) as Hc.
  destruct v; simpl in Hc |- *; try (injection Hc as <-; reflexivity).
  destruct (h !! l) as [[|]|]; [| |done]; destruct Hc as (? & -> & _);
    reflexivity.
Qed.

Lemma props_assoc h ps qs k :
  Forall2 (fun (p : string * val) (q : string * tree) =>
             p.1 = q.1 /\ snapshot h p.2 = Some q.2) ps qs ->
  match assoc_get k ps, tassoc k qs with
  | Some e, Some c => snapshot h e = Some c
  | None, None => True
  | _, _ => False
  end.
Proof.
  induction 1 as [|[k1 e] [k2 c] ps qs [E Hs] HF IH]; simpl in *; [exact I|].
  subst k2. destruct (String.eqb k1 k); [exact Hs|exact IH].
Qed.

Lemma snapshot_get_prop h v t k :
  snapshot h v = Some t ->
  snapshot h (get_prop h v k) = Some (tget_prop t k).
Proof.
  intros Hs. pose proof (snapshot_cell h v t Hs) as Hc.
  destruct v; simpl in Hc |- *; try (injection Hc as <-; reflexivity).
  destruct (h !! l) as [[ps|es]|]; [| |done].
  - destruct Hc as (qs & -> & HF). simpl.
    pose proof (props_assoc h ps qs k HF) as Ha.
    destruct (assoc_get k ps), (tassoc k qs); simpl; try done.
  - destruct Hc as (ts & -> & HF). simpl.
    rewrite (Forall2_length _ _ _ HF).
    destruct (String.eqb k "length"); [reflexivity|].
    destruct (parse_index k) as [i|]; [|reflexivity].
    destruct (es !! i) as [e|] eqn:Ee.
    + destruct (Forall2_lookup_l _ _ _ _ _ HF Ee) as (c & -> & Hc).
      exact Hc.
    + apply lookup_ge_None in Ee. rewrite (Forall2_length _ _ _ HF) in Ee.
      apply lookup_ge_None in Ee. rewrite Ee. reflexivity.
Qed.

Lemma snapshot_has_prop h v t k :
  snapshot h v = Some t -> has_prop h v k = thas_prop t k.
Proof.
  intros Hs. pose proof (snapshot_cell h v t Hs) as Hc.
  destruct v; simpl in Hc |- *; try (injection Hc as <-; reflexivity).
  destruct (h !! l) as [[ps|es]|]; [| |done].
  - destruct Hc as (qs & -> & HF). simpl.
    pose proof (props_assoc h ps qs k HF) as Ha.
    destruct (assoc_get k ps), (tassoc k qs); simpl; try done.
  - destruct Hc as (ts & -> & HF). simpl.
    rewrite (Forall2_length _ _ _ HF). reflexivity.
Qed.

Lemma snapshot_baseGet_loop h segs : forall v t,
  snapshot h v = Some t ->
  snapshot h (baseGet_loop h v segs) = Some (tbaseGet_loop t segs).
Proof.
  induction segs as [|k r IH]; intros v t Hs; simpl; [exact Hs|].
  rewrite (snapshot_isNil h v t Hs).
  destruct (tis_nil t); [reflexivity|].
  apply IH, snapshot_get_prop, Hs.
Qed.

Lemma snapshot_castPath h v t p :
  snapshot h v = Some t -> castPath h p v = tcastPath t p.
Proof.
  intros Hs. unfold castPath, tcastPath.
  rewrite (snapshot_has_prop h v t p Hs). reflexivity.
Qed.

Lemma snapshot_get h v t p :
  snapshot h v = Some t -> snapshot h (_get h v p) = Some (t_get t p).
Proof.
  intros Hs. unfold _get, t_get, baseGet.
  rewrite (snapshot_isNil h v t Hs), (snapshot_castPath h v t p Hs).
  destruct (tis_nil t); [reflexivity|].
  destruct (tcastPath t p) as [|k r]; [reflexivity|].
  apply snapshot_baseGet_loop, Hs.
Qed.

Lemma snapshot_hasPath_loop h segs : forall v t,
  snapshot h v = Some t -> hasPath_loop h v segs = thasPath_loop t segs.
Proof.
  induction segs as [|k r IH]; intros v t Hs; simpl; [reflexivity|].
  rewrite (snapshot_isNil h v t Hs), (snapshot_has_prop h v t k Hs).
  rewrite (IH _ _ (snapshot_get_prop h v t k Hs)). reflexivity.
Qed.

Lemma snapshot_has h v t p :
  snapshot h v = Some t -> _has h v p = t_has t p.
Proof.
  intros Hs. unfold _has, t_has. rewrite (snapshot_castPath h v t p Hs).
  destruct (tcastPath t p) as [|k r]; [reflexivity|].
  apply snapshot_hasPath_loop, Hs.
Qed.

(** ** [get] and [has] with a path *)

Lemma check_key_rejects w key v t types :
  usable w = true ->
  entries (this w) !! key = Some v ->
  snapshot (heap w) v = Some t ->
  match tkind t with
  | Some n => existsb (String.eqb n) types
  | None => false
  end = false ->
  _check_key key types w
  = Throw EnhancedMapKeyTypeError (set_heap (build t (heap w)).2 w).
Proof.
  intros Hu He Hs Hk.
  unfold _check_key, _check_body.
  rewrite (bind_run _ _ _ _ _
             (has_key_present w key v (proj1 (usable_inv w Hu)) He)).
  cbn [negb].
  rewrite (bind_run _ _ _ _ _ (get_key_present w key v t Hu He Hs)).
  rewrite bind_the_heap. cbn [heap set_heap].
  unfold includes.
  rewrite (laid_kind _ _ _ _ (build_laid_here t (heap w))).
  destruct (tkind t); rewrite ?Hk; reflexivity.
Qed.

(** [get(key, path)] up to the check of the value. *)
Lemma get_path_checks w key v p :
  usable w = true ->
  entries (this w) !! key = Some v ->
  get key (Some p) w
  = (_check_key key ["Object"; "Array"] ;;
     h <- the_heap ;; ret (_get h v p)) w.
Proof.
  intros Hu He. destruct (usable_inv w Hu) as (Hd & _ & _).
  assert (Hrc : _readyCheck w = Return tt w)
    by (unfold_methods; rewrite Hd; reflexivity).
  unfold get, get_body.
  rewrite (bind_run _ _ _ _ _ Hrc).
  rewrite (bind_run _ _ _ _ _ (fetchCheck_present w key v He)).
  rewrite (bind_run _ _ _ _ _ (eq_refl : self w = Return (this w) w)).
  assert (Hwhen : when (truthy (default (this w)))
                    (present <- has_key key ;;
                     when (negb present)
                       (_internalSet key (default (this w)) true)) w
                  = Return tt w).
  { destruct (truthy (default (this w))); [|reflexivity]. simpl.
    rewrite (bind_run _ _ _ _ _ (has_key_present w key v Hd He)).
    reflexivity. }
  rewrite (bind_run _ _ _ _ _ Hwhen).
  rewrite (bind_run _ _ _ _ _
             (eq_refl : super_get key w
                        = Return (match entries (this w) !! key with
                                  | Some v => v | None => VUndef end) w)).
  rewrite He. reflexivity.
Qed.

(** X19.  [get(key, path)] on a key that holds an array or a plain
    object without an own property named [constructor], for a path in
    dot notation each of whose segments names an own property or an
    element of what the segments before it lead to (or, as the last one,
    the [length] of an array): it returns what the path leads to in the
    retained value (nothing is copied), and leaves the map, the database
    and the trace as they were.  On a key that holds any other value it
    throws a [KeyTypeError]. *)
Theorem get_path_reads w key v t p :
  usable w = true ->
  entries (this w) !! key = Some v ->
  snapshot (heap w) v = Some t ->
  has_bracket p = false ->
  names_constructor t = false ->
  match t with
  | TObject _ | TArray _ => tfound t (tcastPath t p) = true
  | _ => True
  end ->
  exists w',
    this w' = this w /\ trace w' = trace w /\
    match t with
    | TObject _ | TArray _ =>
        exists r, get key (Some p) w = Return r w' /\
                  snapshot (heap w') r = Some (t_get t p)
    | _ => get key (Some p) w = Throw EnhancedMapKeyTypeError w'
    end.
Proof.
  intros Hu He Hs _ _ _.
  exists (set_heap (build t (heap w)).2 w).
  split; [reflexivity|]. split; [reflexivity|].
  rewrite (get_path_checks w key v p Hu He).
  assert (Hs1 : snapshot (build t (heap w)).2 v = Some t).
  { destruct (build_extends t (heap w)) as (e1 & ->).
    apply snapshot_extend, Hs. }
  assert (Hok : forall n, tkind t = Some n ->
                  existsb (String.eqb n) ["Object"; "Array"] = true ->
                  exists r,
                    (_check_key key ["Object"; "Array"] ;;
                     h <- the_heap ;; ret (_get h v p)) w
                    = Return r (set_heap (build t (heap w)).2 w) /\
                    snapshot (build t (heap w)).2 r = Some (t_get t p)).
  { intros n Hk Hn. eexists. split.
    - rewrite (bind_run _ _ _ _ _
                 (check_key_present w key v t ["Object"; "Array"] Hu He Hs
                    (includes_built t (heap w) n _ Hk Hn))).
      rewrite bind_the_heap. reflexivity.
    - apply snapshot_get, Hs1. }
  destruct t;
    try (apply bind_run_throw, (check_key_rejects w key v _ _ Hu He Hs);
         reflexivity).
  - apply (Hok "Object"); reflexivity.
  - apply (Hok "Array"); reflexivity.
Qed.

Lemma get_path_reads_witness :
  exists w',
    this w' = this (world_with "foo" object_prop3) /\
    trace w' = trace (world_with "foo" object_prop3) /\
    exists r, get "foo" (Some "prop3.1") (world_with "foo" object_prop3)
              = Return r w' /\
              snapshot (heap w') r = Some (TNum 2%float).
Proof.
  apply (get_path_reads (world_with "foo" object_prop3) "foo" (VRef 6)
           object_prop3 "prop3.1");
    vm_compute; reflexivity.
Defined.

(** X20.  [has(key, path)] on a key that holds a plain object without
    an own property named [constructor], for a path in dot notation no
    segment of which is looked up in a string, tells whether every
    segment of the path names an own property of what the segments
    before it lead to; for a path without a dot, whether the object has
    that property.  The map, the database and the trace stay as they
    were. *)
Theorem has_path_reads w key v ps p :
  usable w = true ->
  entries (this w) !! key = Some v ->
  snapshot (heap w) v = Some (TObject ps) ->
  has_bracket p = false ->
  names_constructor (TObject ps) = false ->
  tstringless (TObject ps) (tcastPath (TObject ps) p) = true ->
  exists w',
    has key (Some p) w = Return (t_has (TObject ps) p) w' /\
    this w' = this w /\ trace w' = trace w /\
    (has_dot p = false ->
     t_has (TObject ps) p
     = match tassoc p ps with Some _ => true | None => false end).
Proof.
  intros Hu He Hs _ _ _. destruct (usable_inv w Hu) as (Hd & _ & _).
  assert (Hrc : _readyCheck w = Return tt w)
    by (unfold_methods; rewrite Hd; reflexivity).
  set (t := TObject ps) in *.
  set (w1 := set_heap (build t (heap w)).2 w).
  assert (Hs1 : snapshot (heap w1) v = Some t).
  { destruct (build_extends t (heap w)) as (e1 & E1).
    unfold w1. cbn [heap set_heap]. rewrite E1. apply snapshot_extend, Hs. }
  exists (set_heap (build t (heap w1)).2 w1).
  split; [|split; [reflexivity|split; [reflexivity|]]].
  - unfold has, has_body.
    rewrite (bind_run _ _ _ _ _ Hrc).
    rewrite (bind_run _ _ _ _ _ (fetchCheck_present w key v He)).
    rewrite (bind_run _ _ _ _ _
               (check_key_present w key v t ["Object"] Hu He Hs
                  (includes_built t (heap w) "Object" ["Object"]
                     eq_refl eq_refl)
                : _check_key key ["Object"] w = Return tt w1)).
    rewrite (bind_run _ _ _ _ _ (get_key_present w1 key v t Hu He Hs1)).
    rewrite bind_the_heap. cbn [heap set_heap].
    rewrite (snapshot_has _ _ t p (snapshot_build t (heap w1))).
    reflexivity.
  - intros Hdot. unfold t_has, tcastPath. rewrite Hdot. simpl.
    destruct (tassoc p ps); reflexivity.
Qed.

Lemma has_path_reads_witness :
  exists w',
    has "foo" (Some "prop3.5") (world_with "foo" object_prop3)
    = Return false w' /\
    this w' = this (world_with "foo" object_prop3) /\
    trace w' = trace (world_with "foo" object_prop3).
Proof.
  destruct (has_path_reads (world_with "foo" object_prop3) "foo" (VRef 6)
              [("prop3", TArray [TNum 1%float; TNum 2%float; TNum 3%float])]
              "prop3.5")
    as (w' & H1 & H2 & H3 & _); try (vm_compute; reflexivity).
  exists w'. auto.
Defined.

(** ** Storing at a path *)

Lemma laid_props_assign H l o x px k : forall ps a pvs c,
  nodes px = 0 -> (forall H' a', laid H' px a' x) ->
  laid_seq (laid_prop H) (fun p => nodes p.2) ps a pvs ->
  tassoc k ps = Some c -> nodes c = 0 ->
  a + list_sum (map (fun p => nodes p.2) ps) <= l ->
  laid_seq (laid_prop (<[l := o]> H)) (fun p => nodes p.2)
    (tassoc_alter (fun _ => px) k ps) a (assoc_set k x pvs) /\
  list_sum (map (fun p => nodes p.2) (tassoc_alter (fun _ => px) k ps))
  = list_sum (map (fun p => nodes p.2) ps).
Proof.
  induction ps as [|[k0 t0] r IH]; intros a [|[k' y] ys] c Hpx Hx G Hk Hc Hl;
    simpl in *; try done.
  destruct G as [[-> G1] G2].
  revert Hk. destruct (String.eqb k0 k) eqn:Ek; intros Hk.
  - injection Hk as ->. simpl. rewrite Hpx, Hc in *.
    split; [|reflexivity]. split; [split; [reflexivity|apply Hx]|].
    apply (laid_seq_impl (laid_prop H)); [|exact G2].
    intros [k1 t1] a' [k2 y2] B2 B3 [E1 L2]. split; [exact E1|].
    apply laid_insert_frame; [simpl in *; lia|exact L2].
  - destruct (IH (a + nodes t0) ys c Hpx Hx G2 Hk Hc) as (L1 & N1); [lia|].
    simpl. rewrite N1. split; [|reflexivity].
    split; [split; [reflexivity|]|exact L1].
    apply laid_insert_frame; [lia|exact G1].
Qed.

Lemma laid_elems_assign H l o x px : forall ts a vs i c,
  nodes px = 0 -> (forall H' a', laid H' px a' x) ->
  laid_seq (laid H) nodes ts a vs ->
  ts !! i = Some c -> nodes c = 0 ->
  a + list_sum (map nodes ts) <= l ->
  laid_seq (laid (<[l := o]> H)) nodes (alter (fun _ => px) i ts) a
    (<[i := x]> vs) /\
  list_sum (map nodes (alter (fun _ => px) i ts)) = list_sum (map nodes ts).
Proof.
  assert (Hs : forall n ns, list_sum (n :: ns) = n + list_sum ns)
    by reflexivity.
  induction ts as [|t0 r IH]; intros a [|y ys] i c Hpx Hx G Hi Hc Hl;
    try (destruct i; done).
  destruct G as [G1 G2]. cbn [map] in Hl. rewrite Hs in Hl.
  destruct i as [|i].
  - change (alter (fun _ => px) 0 (t0 :: r)) with (px :: r).
    change (<[0%nat := x]> (y :: ys)) with (x :: ys).
    simpl in Hi. injection Hi as ->. cbn [laid_seq map]. rewrite !Hs, Hpx, Hc.
    split; [|reflexivity]. split; [apply Hx|].
    rewrite Hc in G2.
    apply (laid_seq_impl (laid H)); [|exact G2].
    intros t1 a' y1 B2 B3 L2. apply laid_insert_frame; [lia|exact L2].
  - change (alter (fun _ => px) (S i) (t0 :: r))
      with (t0 :: alter (fun _ => px) i r).
    change (<[S i := x]> (y :: ys)) with (y :: <[i := x]> ys).
    destruct (IH (a + nodes t0) ys i c Hpx Hx G2 Hi Hc) as (L1 & N1); [lia|].
    cbn [laid_seq map]. rewrite !Hs, N1. split; [|reflexivity].
    split; [|exact L1]. apply laid_insert_frame; [lia|exact G1].
Qed.

Lemma tleads_container t k r :
  tleads t (k :: r) = true ->
  unsafe_key k = false /\
  match t with
  | TObject ps => exists c, tassoc k ps = Some c /\ tleads c r = true
  | TArray ts =>
      exists i c, parse_index k = Some i /\ ts !! i = Some c /\
                  tleads c r = true
  | _ => False
  end.
Proof.
  cbn [tleads]. intros H. apply andb_true_iff in H as [H1 H2].
  apply negb_true_iff in H1. split; [exact H1|].
  destruct t; try discriminate H2.
  - destruct (tassoc k props) as [c|]; [eauto|discriminate H2].
  - destruct (parse_index k) as [i|]; [|discriminate H2].
    destruct (elems !! i) as [c|] eqn:Ei; [|discriminate H2].
    exists i, c. auto.
Qed.

Lemma parse_index_not_length k i : parse_index k = Some i -> String.eqb k "length" = false.
Proof.
  destruct (String.eqb_spec k "length") as [->|]; [discriminate|reflexivity].
Qed.

(** Storing a primitive where the path leads to a primitive, in place:
    one object changes, and the value is laid out as the picture with
    the slot replaced. *)
Lemma laid_container_address H c a a' v :
  nodes c <> 0 -> laid H c a v -> laid H c a' v -> a' = a.
Proof.
  destruct c; simpl; try done; intros _ (? & -> & _) (? & E & _);
    injection E; lia.
Qed.

Lemma tleads_nodes c k r : tleads c (k :: r) = true -> nodes c <> 0.
Proof.
  intros H. apply tleads_container in H as [_ H].
  destruct c; simpl; try done.
Qed.

Lemma nodes_object q :
  nodes (TObject q) = S (list_sum (map (fun p => nodes p.2) q)).
Proof. reflexivity. Qed.

Lemma nodes_array q : nodes (TArray q) = S (list_sum (map nodes q)).
Proof. reflexivity. Qed.

Lemma laid_assign H x px segs : forall t a v,
  nodes px = 0 -> (forall H' a', laid H' px a' x) ->
  laid H t a v ->
  segs <> [] ->
  tleads t segs = true ->
  nodes (tbaseGet_loop t segs) = 0 ->
  exists l o,
    baseSet_loop segs v x H = <[l := o]> H /\
    a <= l < a + nodes t /\
    laid (<[l := o]> H) (talter (fun _ => px) segs t) a v /\
    nodes (talter (fun _ => px) segs t) = nodes t.
Proof.
  induction segs as [|k r IH]; intros t a v Hpx Hx L Hne Hl Hn; [done|].
  destruct (tleads_container t k r Hl) as (Hsafe & Hc).
  cbn [baseSet_loop]. rewrite (laid_isNil _ _ _ _ L), Hsafe.
  destruct t as [| | | | |ps|ts]; try done; cbn [tis_nil].
  - destruct Hc as (c & Ek & Hlc).
    destruct L as (pvs & -> & Lc & G).
    set (la := a + list_sum (map (fun p => nodes p.2) ps)) in *.
    pose proof (laid_props_assoc H ps a pvs k G) as Ha. rewrite Ek in Ha.
    destruct Ha as (vc & a1 & Eg & Lv & B1 & B2).
    assert (Hgp : get_prop H (VRef la) k = vc).
    { unfold get_prop. rewrite Lc, Eg. reflexivity. }
    assert (Htg : tbaseGet_loop (TObject ps) (k :: r) = tbaseGet_loop c r).
    { simpl. rewrite Ek. reflexivity. }
    rewrite Htg in Hn.
    destruct r as [|k2 r'].
    + simpl in Hn.
      destruct (laid_props_assign H la (OObject (assoc_set k x pvs)) x px k
                  ps a pvs c Hpx Hx G Ek Hn (le_n _)) as (L' & N').
      exists la, (OObject (assoc_set k x pvs)).
      split; [unfold assignValue; rewrite Lc; reflexivity|].
      split; [simpl; lia|].
      cbn [talter laid nodes]. rewrite N'. split; [|reflexivity].
      exists (assoc_set k x pvs). split; [reflexivity|].
      split; [apply list_lookup_insert_eq; eapply lookup_lt_Some, Lc|].
      exact L'.
    + pose proof (tleads_nodes c k2 r' Hlc) as Hcn.
      assert (Hobj : isObject vc = true).
      { destruct c; try done; simpl in Lv;
          destruct Lv as (? & -> & _); reflexivity. }
      rewrite Hgp, Hobj.
      rewrite (assignValue_get H _ k vc Hobj Hgp), Hgp.
      destruct (IH c a1 vc Hpx Hx Lv ltac:(done) Hlc Hn)
        as (l & o & Eset & Bl & L1 & N1).
      exists l, o. split; [exact Eset|].
      destruct (laid_props_alter H l o (talter (fun _ => px) (k2 :: r'))
                  ps a pvs k c G Ek) as (L' & N' & B').
      { intros a' v' Ev' Lv'. rewrite Eg in Ev'. injection Ev' as <-.
        rewrite (laid_container_address H c a1 a' vc Hcn Lv Lv'). auto. }
      assert (Hla : l <> la) by (unfold la; lia).
      assert (Ht : talter (fun _ => px) (k :: k2 :: r') (TObject ps)
                   = TObject (tassoc_alter (talter (fun _ => px) (k2 :: r'))
                                k ps)) by reflexivity.
      rewrite Ht. rewrite !nodes_object. fold la.
      split; [lia|]. split; [|rewrite N'; reflexivity].
      cbn [laid]. rewrite N'.
      exists pvs. split; [reflexivity|]. fold la.
      split; [rewrite list_lookup_insert_ne by exact Hla; exact Lc|exact L'].
  - destruct Hc as (i & c & Ei & Ec & Hlc).
    destruct L as (vs & -> & Lc & G).
    set (la := a + list_sum (map nodes ts)) in *.
    destruct (laid_seq_lookup _ _ _ _ _ _ G Ec)
      as (vc & a1 & Eg & Lv & B1 & B2).
    pose proof (parse_index_not_length k i Ei) as Hlen.
    assert (Hgp : get_prop H (VRef la) k = vc).
    { unfold get_prop. rewrite Lc, Hlen, Ei, Eg. reflexivity. }
    assert (Htg : tbaseGet_loop (TArray ts) (k :: r) = tbaseGet_loop c r).
    { simpl. rewrite Hlen, Ei, Ec. reflexivity. }
    rewrite Htg in Hn.
    destruct r as [|k2 r'].
    + simpl in Hn.
      destruct (laid_elems_assign H la (OArray (<[i := x]> vs)) x px
                  ts a vs i c Hpx Hx G Ec Hn (le_n _)) as (L' & N').
      exists la, (OArray (<[i := x]> vs)).
      assert (Hst : array_store vs i x = <[i := x]> vs).
      { unfold array_store. apply lookup_lt_Some in Eg.
        destruct (Nat.ltb_spec i (length vs)); [reflexivity|lia]. }
      split; [unfold assignValue; rewrite Lc, Ei, Hst; reflexivity|].
      split; [simpl; lia|].
      cbn [talter laid nodes]. rewrite Ei. cbn [laid nodes]. rewrite N'.
      split; [|reflexivity].
      exists (<[i := x]> vs). split; [reflexivity|].
      split; [apply list_lookup_insert_eq; eapply lookup_lt_Some, Lc|].
      exact L'.
    + pose proof (tleads_nodes c k2 r' Hlc) as Hcn.
      assert (Hobj : isObject vc = true).
      { destruct c; try done; simpl in Lv;
          destruct Lv as (? & -> & _); reflexivity. }
      rewrite Hgp, Hobj.
      rewrite (assignValue_get H _ k vc Hobj Hgp), Hgp.
      destruct (IH c a1 vc Hpx Hx Lv ltac:(done) Hlc Hn)
        as (l & o & Eset & Bl & L1 & N1).
      exists l, o. split; [exact Eset|].
      destruct (laid_elems_alter H l o (talter (fun _ => px) (k2 :: r'))
                  ts a vs i c G Ec) as (L' & N' & B').
      { intros a' v' Ev' Lv'. rewrite Eg in Ev'. injection Ev' as <-.
        rewrite (laid_container_address H c a1 a' vc Hcn Lv Lv'). auto. }
      assert (Hla : l <> la) by (unfold la; lia).
      assert (Ht : talter (fun _ => px) (k :: k2 :: r') (TArray ts)
                   = TArray (alter (talter (fun _ => px) (k2 :: r')) i ts)).
      { cbn [talter]. rewrite Ei. reflexivity. }
      rewrite Ht. rewrite !nodes_array. fold la.
      split; [lia|]. split; [|rewrite N'; reflexivity].
      cbn [laid]. rewrite N'.
      exists vs. split; [reflexivity|]. fold la.
      split; [rewrite list_lookup_insert_ne by exact Hla; exact Lc|exact L'].
Qed.

(** The end of [set]: the callback, the row, the copy and the entry. *)
Lemma set_commits w w0 key old d t' ext :
  sound w = true ->
  heap w0 = heap w ++ ext -> this w0 = this w ->
  snapshot (heap w0) d = Some t' ->
  exists w',
    (m <- self ;;
     when (changedCB m) (call_changedCB key old d) ;;
     _internalSet key d false ;;
     copy <- _clone d ;;
     super_set key copy) w0 = Return tt w' /\
    sound w' = true /\
    reading w' key = Some t' /\
    (forall k, k <> key -> reading w' k = reading w k) /\
    row key w' = (if persistent (this w)
                  then Some (serialize (serializer (this w) t' key))
                  else None).
Proof.
  intros Hs Hh Ht Hd. destruct (sound_inv w Hs) as [Hu Hr].
  rewrite (bind_run _ _ _ _ _ (eq_refl : self w0 = Return (this w0) w0)).
  assert (exists w3, when (changedCB (this w0))
                       (call_changedCB key old d) w0 = Return tt w3 /\
                     heap w3 = heap w0 /\ this w3 = this w0)
    as (w3 & Hcb & Hh3 & Ht3).
  { destruct (changedCB (this w0)); simpl; eexists; split;
      try reflexivity; auto. }
  rewrite (bind_run _ _ _ _ _ Hcb).
  assert (Hu3 : usable w3 = true)
    by (unfold usable; rewrite Ht3, Ht; exact Hu).
  assert (Hv3 : snapshot (heap w3) d = Some t') by (rewrite Hh3; exact Hd).
  destruct (internalSet_spec w3 key d false t' Hu3 Hv3)
    as (w4 & Hset & Hh4 & Hcfg4 & Hu4 & He4 & Hrow4 & Hrows4 & _).
  rewrite (bind_run _ _ _ _ _ Hset).
  destruct (usable_inv w4 Hu4) as (_ & Hc4 & _).
  assert (Hv4 : snapshot (heap w4) d = Some t') by (rewrite Hh4; exact Hv3).
  rewrite (bind_run _ _ _ _ _ (clone_deep w4 d t' Hc4 Hv4)).
  set (copy := (build t' (heap w4)).1).
  set (h5 := (build t' (heap w4)).2).
  eexists. split; [reflexivity|].
  assert (Hcfg : same_config (this w) (this w4)).
  { rewrite <- Ht, <- Ht3. exact Hcfg4. }
  assert (He5 : forall k, k <> key ->
            (<[key := copy]> (entries (this w4))) !! k
            = entries (this w) !! k).
  { intros k Hk. rewrite lookup_insert_ne by congruence.
    rewrite He4, Ht3, Ht. reflexivity. }
  assert (Hrow5 : forall k, k <> key -> row k w4 = row k w).
  { intros k Hk. rewrite (Hrows4 k Hk).
    apply row_same. rewrite Ht3, Ht. reflexivity. }
  assert (Hx : exists e, h5 = heap w ++ e).
  { unfold h5. destruct (build_extends t' (heap w4)) as (e5 & ->).
    rewrite Hh4, Hh3, Hh, <- !app_assoc. eauto. }
  assert (Hcopy : snapshot h5 copy = Some t') by apply snapshot_build.
  cbn [heap this trace set_heap set_this log set_entries entries
         serializer deserializer name changedCB default db persistent
         isDestroyed autoFetch cloneLevel].
  split.
  { unfold sound. apply andb_true_iff. split.
    - apply (usable_same w4); [exact Hu4|repeat split|reflexivity].
    - apply (readable_step w); auto.
      + simpl. apply Hcfg.
      + intros k v0 Hk. simpl in Hk.
        destruct (decide (k = key)) as [->|Hne].
        * rewrite lookup_insert_eq in Hk. injection Hk as <-. eauto.
        * rewrite (He5 k Hne) in Hk. auto. }
  split.
  { unfold reading. simpl. rewrite lookup_insert_eq. exact Hcopy. }
  split.
  { intros k Hk. apply reading_step;
      [exact Hr|exact Hx|exact Hcfg|simpl; apply He5, Hk|].
    unfold row. simpl. apply Hrow5, Hk. }
  unfold row in *. simpl. rewrite Hrow4, Ht3, Ht. reflexivity.
Qed.

Lemma split_dots_nonempty s : forall cur, split_dots s cur <> [].
Proof.
  induction s as [|c r IH]; intros cur; simpl; [done|].
  destruct (Ascii.eqb c "."); [done|apply IH].
Qed.

Lemma tcastPath_nonempty t p : tcastPath t p <> [].
Proof.
  unfold tcastPath.
  destruct (negb (has_dot p) || thas_prop t p) eqn:E; [done|].
  apply orb_false_iff in E as [E _]. apply negb_false_iff in E.
  unfold toPath. destruct p; [discriminate|]. apply split_dots_nonempty.
Qed.

(** The slot a path leads to, replaced. *)
Lemma talter_leads f segs : forall t,
  tleads t segs = true ->
  tbaseGet_loop (talter f segs t) segs = f (tbaseGet_loop t segs).
Proof.
  induction segs as [|k r IH]; intros t Hl; [reflexivity|].
  destruct (tleads_container t k r Hl) as (_ & Hc).
  destruct t as [| | | | |ps|ts]; try done.
  - destruct Hc as (c & Ek & Hlc).
    cbn [tbaseGet_loop talter tis_nil tget_prop].
    rewrite (tassoc_alter_same _ _ _ _ Ek), Ek. simpl. apply IH, Hlc.
  - destruct Hc as (i & c & Ei & Ec & Hlc).
    cbn [tbaseGet_loop talter tis_nil]. rewrite Ei.
    cbn [tis_nil tget_prop].
    rewrite (parse_index_not_length k i Ei), Ei, list_lookup_alter_eq, Ec.
    simpl. apply IH, Hlc.
Qed.

Lemma tcastPath_talter f segs t p :
  tleads t segs = true -> segs <> [] ->
  tcastPath (talter f segs t) p = tcastPath t p.
Proof.
  intros Hl Hne. destruct segs as [|k r]; [done|].
  destruct (tleads_container t k r Hl) as (_ & Hc).
  destruct t as [| | | | |ps|ts]; try done.
  - apply tcastPath_alter.
  - destruct Hc as (i & c & Ei & Ec & Hlc).
    cbn [talter]. rewrite Ei. unfold tcastPath, thas_prop.
    rewrite length_alter. reflexivity.
Qed.

(** [set(key, x, path)] where the path leads to a primitive. *)
Lemma set_path_writes w key v t p x px :
  sound w = true ->
  entries (this w) !! key = Some v ->
  snapshot (heap w) v = Some t ->
  reify 0 [] x = Some px ->
  tleads t (tcastPath t p) = true ->
  nodes (t_get t p) = 0 ->
  exists w',
    set key x (Some p) w = Return tt w' /\
    sound w' = true /\
    reading w' key = Some (talter (fun _ => px) (tcastPath t p) t) /\
    (forall k, k <> key -> reading w' k = reading w k) /\
    row key w'
    = (if persistent (this w)
       then Some (serialize (serializer (this w)
                               (talter (fun _ => px) (tcastPath t p) t) key))
       else None).
Proof.
  intros Hs He Hv Hx Hl Hn. destruct (sound_inv w Hs) as [Hu Hr].
  destruct (usable_inv w Hu) as (Hd & Hc & _).
  destruct (primitive_laid _ _ Hx) as (Hpx & Lx).
  pose proof (tcastPath_nonempty t p) as Hne.
  assert (Hcont : nodes t <> 0).
  { destruct (tcastPath t p) as [|k r] eqn:E; [done|].
    apply (tleads_nodes t k r Hl). }
  set (d := (build t (heap w)).1).
  set (h1 := (build t (heap w)).2).
  set (h2 := (build t h1).2).
  destruct (build_extends t (heap w)) as (e1 & E1). fold h1 in E1.
  destruct (build_extends t h1) as (e2 & E2). fold h2 in E2.
  assert (L2 : laid h2 t (length (heap w)) d).
  { rewrite E2. apply build_laid. }
  assert (Hnil : isNil d = false).
  { rewrite (laid_isNil _ _ _ _ L2). destruct t; try done. }
  assert (Hobj : isObject d = true).
  { destruct t; try done; simpl in L2; destruct L2 as (? & -> & _);
      reflexivity. }
  assert (Htg : tbaseGet_loop t (tcastPath t p) = t_get t p).
  { unfold t_get. destruct t; try done;
      destruct (tcastPath _ p); try done. }
  rewrite <- Htg in Hn.
  destruct (laid_assign h2 x px (tcastPath t p) t (length (heap w)) d
              Hpx (fun H' a' => Lx H' a') L2 Hne Hl Hn)
    as (l & o & Eset & Bl & L3 & N3).
  set (t' := talter (fun _ => px) (tcastPath t p) t) in *.
  assert (Hh3 : exists e3, <[l := o]> h2 = heap w ++ e3).
  { rewrite E2, E1, <- app_assoc.
    rewrite insert_app_r_alt by lia. eauto. }
  destruct Hh3 as (e3 & Hh3).
  destruct (set_commits w (set_heap (<[l := o]> h2) w) key
              (build t h1).1 d t' e3 Hs Hh3 eq_refl
              (laid_snapshot _ _ _ _ L3))
    as (w' & Htail & Hres).
  exists w'. split; [|exact Hres].
  unfold set. rewrite get_None.
  rewrite (bind_run _ _ _ _ _ (get_key_present w key v t Hu He Hv)).
  fold d h1.
  rewrite (bind_run _ _ _ _ _
             (eq_refl : super_has key (set_heap h1 w)
                        = Return (match entries (this w) !! key with
                                  | Some _ => true | None => false end)
                            (set_heap h1 w))).
  rewrite He.
  rewrite (bind_run _ _ _ _ _
             (clone_deep (set_heap h1 w) d t Hc (snapshot_build t (heap w)))).
  cbn [heap set_heap]. fold h2. rewrite Hnil.
  unfold bind at 1. unfold bind at 1. cbn [ret].
  unfold bind at 1. unfold lodash_set at 1. cbn [heap set_heap].
  unfold bind at 1. cbn [ret].
  unfold _set. rewrite Hobj, (laid_castPath _ _ _ _ p L2), Eset.
  exact Htail.
Qed.

Lemma talter_get_leads f t p :
  tleads t (tcastPath t p) = true ->
  t_get (talter f (tcastPath t p) t) p = f (t_get t p).
Proof.
  intros Hl. pose proof (tcastPath_nonempty t p) as Hne.
  unfold t_get at 1. rewrite (tcastPath_talter f _ t p Hl Hne).
  pose proof (talter_leads f _ t Hl) as Hg.
  destruct (tcastPath t p) as [|k r] eqn:E; [done|].
  destruct (tleads_container t k r Hl) as (_ & Hc).
  assert (Ht : t_get t p = tbaseGet_loop t (k :: r)).
  { unfold t_get. rewrite E. destruct t; try done. }
  rewrite Ht, <- Hg.
  destruct t as [| | | | |ps|ts]; try done.
  destruct Hc as (i & c & Ei & _). cbn [talter]. rewrite Ei. reflexivity.
Qed.

(** X21.  [set(key, x, path)] for a primitive [x], on a key whose value
    holds no object in two places, where the path leads through own
    properties and elements to a primitive: it returns and leaves under
    the key the value with that slot replaced by [x] and nothing else
    changed, in the map and, on a persistent map, in the row; the path
    then leads to [x], and the other keys read as before. *)
Theorem set_at_path w key v t p x px :
  sound w = true ->
  entries (this w) !! key = Some v ->
  snapshot (heap w) v = Some t ->
  unshared (heap w) v = true ->
  has_bracket p = false ->
  reify 0 [] x = Some px ->
  tleads t (tcastPath t p) = true ->
  nodes (t_get t p) = 0 ->
  exists w' t',
    set key x (Some p) w = Return tt w' /\
    sound w' = true /\
    reading w' key = Some t' /\
    t' = talter (fun _ => px) (tcastPath t p) t /\
    t_get t' p = px /\
    (forall k, k <> key -> reading w' k = reading w k) /\
    row key w' = (if persistent (this w)
                  then Some (serialize (serializer (this w) t' key))
                  else None).
Proof.
  intros Hs He Hv _ _ Hx Hl Hn.
  destruct (set_path_writes w key v t p x px Hs He Hv Hx Hl Hn)
    as (w' & Hset & Hs' & Hread & Hoth & Hrow).
  exists w', (talter (fun _ => px) (tcastPath t p) t).
  split; [exact Hset|]. split; [exact Hs'|]. split; [exact Hread|].
  split; [reflexivity|]. split; [apply talter_get_leads, Hl|].
  split; [exact Hoth|exact Hrow].
Qed.

Lemma set_at_path_witness :
  exists w' t',
    set "foo" (VNum 9%float) (Some "prop3.1") (world_with "foo" object_prop3)
    = Return tt w' /\
    sound w' = true /\
    reading w' "foo" = Some t' /\
    t' = TObject [("prop3", TArray [TNum 1%float; TNum 9%float;
                                     TNum 3%float])] /\
    t_get t' "prop3.1" = TNum 9%float /\
    (forall k, k <> "foo" ->
       reading w' k = reading (world_with "foo" object_prop3) k) /\
    row "foo" w' = Some (serialize t').
Proof.
  apply (set_at_path (world_with "foo" object_prop3) "foo" (VRef 6)
           object_prop3 "prop3.1" (VNum 9%float) (TNum 9%float));
    vm_compute; reflexivity.
Defined.

(** The end of [inc], [dec] and [push]: the row and the entry. *)
Lemma internalSet_commits w w0 key d t' ext :
  sound w = true ->
  heap w0 = heap w ++ ext -> this w0 = this w ->
  snapshot (heap w0) d = Some t' ->
  exists w',
    _internalSet key d true w0 = Return tt w' /\
    sound w' = true /\
    reading w' key = Some t' /\
    (forall k, k <> key -> reading w' k = reading w k) /\
    row key w' = (if persistent (this w)
                  then Some (serialize (serializer (this w) t' key))
                  else None).
Proof.
  intros Hs Hh Ht Hd. destruct (sound_inv w Hs) as [Hu Hr].
  assert (Hu0 : usable w0 = true) by (unfold usable; rewrite Ht; exact Hu).
  destruct (internalSet_spec w0 key d true t' Hu0 Hd)
    as (w' & Hset & Hh' & Hcfg & Hu' & Hent & Hrow & Hrows & _).
  rewrite Ht in Hcfg, Hent, Hrow.
  assert (Hx : exists e, heap w' = heap w ++ e) by (rewrite Hh', Hh; eauto).
  exists w'. split; [exact Hset|].
  assert (Hr' : readable w' = true).
  { apply (readable_step w); auto.
    - apply Hcfg.
    - intros k u. rewrite Hent. destruct (decide (k = key)) as [->|Hk].
      + rewrite lookup_insert_eq. intros [= <-]. right.
        rewrite Hh'. eauto.
      + rewrite lookup_insert_ne by congruence. auto. }
  split; [unfold sound; rewrite Hu', Hr'; reflexivity|].
  split.
  { unfold reading. rewrite Hent, lookup_insert_eq, Hh'. exact Hd. }
  split; [|exact Hrow].
  intros k Hk.
  apply reading_step;
    [exact Hr | exact Hx | exact Hcfg
    |rewrite Hent; apply lookup_insert_ne; congruence
    |rewrite (Hrows k Hk); apply row_same; rewrite Ht; reflexivity].
Qed.

Lemma snapshot_number h v n : snapshot h v = Some (TNum n) -> v = VNum n.
Proof.
  intros Hs. pose proof (snapshot_cell h v _ Hs) as Hc.
  destruct v; simpl in Hc; try congruence.
  destruct (h !! l) as [[|]|]; [| |done]; destruct Hc as (? & ? & _);
    discriminate.
Qed.

(** [inc] and [dec] with a path that leads to a number. *)
Lemma inc_dec_path_writes f w key v t p n :
  sound w = true ->
  entries (this w) !! key = Some v ->
  snapshot (heap w) v = Some t ->
  tkind t = Some "Object" ->
  t_get t p = TNum n ->
  tleads t (tcastPath t p) = true ->
  exists w',
    inc_dec f key (Some p) w = Return tt w' /\
    sound w' = true /\
    reading w' key
    = Some (talter (fun _ => TNum (f n)) (tcastPath t p) t) /\
    (forall k, k <> key -> reading w' k = reading w k) /\
    row key w'
    = (if persistent (this w)
       then Some (serialize
                    (serializer (this w)
                       (talter (fun _ => TNum (f n)) (tcastPath t p) t) key))
       else None).
Proof.
  intros Hs He Hv Hk Hg Hl. destruct (sound_inv w Hs) as [Hu Hr].
  pose proof (tcastPath_nonempty t p) as Hne.
  set (h1 := (build t (build t (heap w)).2).2).
  set (d := (build t h1).1).
  set (h2 := (build t h1).2).
  assert (E1 : exists e1, h1 = heap w ++ e1).
  { unfold h1. destruct (build_extends t (heap w)) as (a1 & ->).
    destruct (build_extends t (heap w ++ a1)) as (a2 & ->).
    rewrite <- app_assoc. eauto. }
  destruct E1 as (e1 & E1).
  assert (Hv1 : snapshot h1 v = Some t)
    by (rewrite E1; apply snapshot_extend, Hv).
  pose proof (build_laid_here t h1) as L2. fold d h2 in L2.
  assert (Hobj : isObject d = true).
  { destruct t; try done; simpl in L2; destruct L2 as (? & -> & _);
      reflexivity. }
  assert (Htg : tbaseGet_loop t (tcastPath t p) = t_get t p).
  { unfold t_get. destruct t; try done;
      destruct (tcastPath _ p); try done. }
  assert (Hn : nodes (tbaseGet_loop t (tcastPath t p)) = 0)
    by (rewrite Htg, Hg; reflexivity).
  destruct (laid_assign h2 (VNum (f n)) (TNum (f n)) (tcastPath t p) t
              (length h1) d eq_refl (fun _ _ => eq_refl) L2 Hne Hl Hn)
    as (l & o & Eset & Bl & L3 & N3).
  set (t' := talter (fun _ => TNum (f n)) (tcastPath t p) t) in *.
  assert (Hh3 : exists e3, <[l := o]> h2 = heap w ++ e3).
  { unfold h2. destruct (build_extends t h1) as (a3 & ->).
    rewrite E1, <- app_assoc. rewrite insert_app_r_alt; [eauto|].
    rewrite E1, length_app in Bl. lia. }
  destruct Hh3 as (e3 & Hh3).
  destruct (internalSet_commits w (set_heap (<[l := o]> h2) w) key d t' e3
              Hs Hh3 eq_refl (laid_snapshot _ _ _ _ L3))
    as (w' & Htail & Hres).
  exists w'. split; [|exact Hres].
  unfold inc_dec.
  assert (Hnum : tkind (t_get t p) = Some "Number") by (rewrite Hg; reflexivity).
  rewrite (bind_run _ _ _ _ _
             (check_path_present w key v t p "Number" ["Number"]
                Hu He Hv Hk Hnum eq_refl)).
  fold h1. rewrite get_None.
  rewrite (bind_run _ _ _ _ _
             (get_key_present (set_heap h1 w) key v t Hu He Hv1)).
  cbn [heap set_heap]. fold d h2.
  rewrite bind_the_heap. cbn [heap set_heap].
  destruct (laid_get _ _ _ _ p L2) as (a' & Lg). rewrite Hg in Lg.
  simpl in Lg. rewrite Lg. cbn [step].
  unfold bind at 1. cbn [ret].
  unfold bind at 1. unfold lodash_set at 1. cbn [heap set_heap].
  unfold _set. rewrite Hobj, (laid_castPath _ _ _ _ p L2), Eset.
  exact Htail.
Qed.

Lemma mathop_number pw rm n op operand w :
  _mathop pw rm (VNum n) op operand w
  = Return (VNum (apply pw rm (meaning op) n operand)) w.
Proof. destruct op; reflexivity. Qed.

(** [math] with a path that leads to a number. *)
Lemma math_path_writes pw rm w key v t p n op operand :
  sound w = true ->
  entries (this w) !! key = Some v ->
  snapshot (heap w) v = Some t ->
  tkind t = Some "Object" ->
  t_get t p = TNum n ->
  tleads t (tcastPath t p) = true ->
  exists w',
    math pw rm key op operand (Some p) w = Return tt w' /\
    number_at w key t p (apply pw rm (meaning op) n operand) w'.
Proof.
  intros Hs He Hv Hk Hg Hl. destruct (sound_inv w Hs) as [Hu Hr].
  set (h1 := (build t (build t (heap w)).2).2).
  set (h2 := (build t h1).2).
  assert (E1 : exists e1, h1 = heap w ++ e1).
  { unfold h1. destruct (build_extends t (heap w)) as (a1 & ->).
    destruct (build_extends t (heap w ++ a1)) as (a2 & ->).
    rewrite <- app_assoc. eauto. }
  destruct E1 as (e1 & E1).
  assert (E2 : exists e2, h2 = heap w ++ e2).
  { unfold h2. destruct (build_extends t h1) as (a3 & ->).
    rewrite E1, <- app_assoc. eauto. }
  destruct E2 as (e2 & E2).
  assert (Hv1 : snapshot h1 v = Some t)
    by (rewrite E1; apply snapshot_extend, Hv).
  assert (Hv2 : snapshot h2 v = Some t)
    by (rewrite E2; apply snapshot_extend, Hv).
  pose proof (sound_set_heap w h2 e2 Hs E2) as Hs2.
  assert (Hn : nodes (t_get t p) = 0) by (rewrite Hg; reflexivity).
  destruct (set_path_writes (set_heap h2 w) key v t p
              (VNum (apply pw rm (meaning op) n operand))
              (TNum (apply pw rm (meaning op) n operand))
              Hs2 He Hv2 eq_refl Hl Hn)
    as (w' & Hset & Hs' & Hread & Hoth & _).
  exists w'. split.
  - unfold math.
    assert (Hnum : tkind (t_get t p) = Some "Number")
      by (rewrite Hg; reflexivity).
    rewrite (bind_run _ _ _ _ _
               (check_path_present w key v t p "Number" ["Number"]
                  Hu He Hv Hk Hnum eq_refl)).
    fold h1.
    assert (Hget : get key (Some p) (set_heap h1 w)
                   = Return (VNum n) (set_heap h2 w)).
    { rewrite (get_path_checks (set_heap h1 w) key v p Hu He).
      assert (Hkk : existsb (String.eqb "Object") ["Object"; "Array"] = true)
        by reflexivity.
      rewrite (bind_run _ _ _ _ _
                 (check_key_present (set_heap h1 w) key v t
                    ["Object"; "Array"] Hu He Hv1
                    (includes_built t h1 "Object" _ Hk Hkk))).
      rewrite bind_the_heap. cbn [heap set_heap]. fold h2.
      pose proof (snapshot_get h2 v t p Hv2) as Hsg. rewrite Hg in Hsg.
      rewrite (snapshot_number _ _ _ Hsg). reflexivity. }
    rewrite (bind_run _ _ _ _ _ Hget).
    rewrite (bind_run _ _ _ _ _ (mathop_number pw rm n op operand _)).
    exact Hset.
  - split; [exact Hs'|]. split; [exact Hread|].
    intros k Hk'. rewrite (Hoth k Hk').
    apply (reading_set_heap w h2 e2 k Hr E2).
Qed.

(** X22.  With a path that leads to a number in a plain object that has
    no own property named [constructor] and holds no object in two
    places, [inc], [dec] and [math] return and replace that number by the
    number plus one, minus one, and the result of the operation; nothing
    else in the value changes and the other keys read as before. *)
Theorem arithmetic_at_path
  (Math_pow remainder : float -> float -> float) w key v t p n :
  sound w = true ->
  entries (this w) !! key = Some v ->
  snapshot (heap w) v = Some t ->
  tkind t = Some "Object" ->
  names_constructor t = false ->
  unshared (heap w) v = true ->
  has_bracket p = false ->
  t_get t p = TNum n ->
  tleads t (tcastPath t p) = true ->
  (exists w', inc key (Some p) w = Return tt w' /\
              number_at w key t p (PrimFloat.add n 1%float) w') /\
  (exists w', dec key (Some p) w = Return tt w' /\
              number_at w key t p (PrimFloat.sub n 1%float) w') /\
  (forall op operand,
     exists w', math Math_pow remainder key op operand (Some p) w
                = Return tt w' /\
                number_at w key t p
                  (apply Math_pow remainder (meaning op) n operand) w').
Proof.
  intros Hs He Hv Hk _ _ _ Hg Hl.
  split; [|split].
  - destruct (inc_dec_path_writes (fun n => PrimFloat.add n 1%float)
                w key v t p n Hs He Hv Hk Hg Hl)
      as (w' & Hrun & Hs' & Hread & Hoth & _).
    exists w'. split; [exact Hrun|]. repeat split; auto.
  - destruct (inc_dec_path_writes (fun n => PrimFloat.sub n 1%float)
                w key v t p n Hs He Hv Hk Hg Hl)
      as (w' & Hrun & Hs' & Hread & Hoth & _).
    exists w'. split; [exact Hrun|]. repeat split; auto.
  - intros op operand.
    apply (math_path_writes Math_pow remainder w key v t p n op operand
             Hs He Hv Hk Hg Hl).
Qed.

Lemma arithmetic_at_path_witness :
  exists w',
    inc "numberInObject" (Some "sub.anInt")
      (world_with "numberInObject" object_sub) = Return tt w' /\
    number_at (world_with "numberInObject" object_sub) "numberInObject"
      object_sub "sub.anInt" 6%float w'.
Proof.
  destruct (arithmetic_at_path (fun a _ => a) (fun a _ => a)
              (world_with "numberInObject" object_sub) "numberInObject"
              (VRef 6) object_sub "sub.anInt" 5%float)
    as (H & _); try (vm_compute; reflexivity).
  exact H.
Defined.

(** ** The keys of the table *)

Lemma indexes_rows w :
  usable w = true ->
  exists ks,
    indexes w = Return ks w /\
    (forall k, k ∈ ks <-> exists x, row k w = Some x) /\
    (persistent (this w) = false -> ks = []).
Proof.
  intros Hu. destruct (usable_inv w Hu) as (_ & _ & Hdb).
  unfold indexes, select_keys, row.
  destruct Hdb as [[Hp Hd]|(Hp & d & t & Hd & Ho & Hr)].
  - rewrite Hd. exists []. split; [reflexivity|]. split; [|auto].
    intros k. split; [intros H; inversion H|intros [x Hx]; discriminate].
  - rewrite Hd, Ho, Hr. eexists. split; [reflexivity|]. split; [|congruence].
    intros k. rewrite list_elem_of_fmap. split.
    + intros ([k' x] & -> & Hin). apply elem_of_map_to_list in Hin. eauto.
    + intros [x Hx]. exists (k, x). split; [reflexivity|].
      apply elem_of_map_to_list. exact Hx.
Qed.

(** X23.  [indexes] follows the table, not the cache: on a persistent
    map, after [set(key, value)] the key is among the indexes, it still
    is after [evict(key)], and it no longer is after [delete(key)]. *)
Theorem indexes_follow_rows w key value t :
  sound w = true ->
  persistent (this w) = true ->
  snapshot (heap w) value = Some t ->
  exists w1 ks1,
    set key value None w = Return tt w1 /\
    indexes w1 = Return ks1 w1 /\ key ∈ ks1 /\
    (exists ks2,
       indexes (final (evict key w1)) = Return ks2 (final (evict key w1)) /\
       key ∈ ks2) /\
    (exists w3 ks3,
       delete key None w1 = Return tt w3 /\
       indexes w3 = Return ks3 w3 /\ key ∉ ks3).
Proof.
  intros Hs Hp Hv.
  destruct (set_writes w key value t Hs Hv)
    as (w1 & Hset & Hs1 & _ & _ & _ & _ & _ & _ & Hrow & _).
  rewrite Hp in Hrow. destruct (sound_inv w1 Hs1) as [Hu1 _].
  destruct (indexes_rows w1 Hu1) as (ks1 & Hi1 & Hk1 & _).
  exists w1, ks1. split; [exact Hset|]. split; [exact Hi1|].
  split; [apply Hk1; eauto|]. split.
  - pose proof (sound_evict w1 key Hs1) as Hs2.
    destruct (sound_inv _ Hs2) as [Hu2 _].
    destruct (indexes_rows _ Hu2) as (ks2 & Hi2 & Hk2 & _).
    exists ks2. split; [exact Hi2|]. apply Hk2. eexists. exact Hrow.
  - destruct (delete_forgets w1 key Hs1)
      as (w3 & Hdel & Hs3 & _ & _ & _ & Hrow3 & _).
    destruct (sound_inv w3 Hs3) as [Hu3 _].
    destruct (indexes_rows w3 Hu3) as (ks3 & Hi3 & Hk3 & _).
    exists w3, ks3. split; [exact Hdel|]. split; [exact Hi3|].
    intros Hin. apply Hk3 in Hin as [x Hx]. congruence.
Qed.

Lemma indexes_follow_rows_witness :
  exists w1 ks1,
    set "k" (VNum 1%float) None integer_world = Return tt w1 /\
    indexes w1 = Return ks1 w1 /\ "k" ∈ ks1 /\
    (exists ks2,
       indexes (final (evict "k" w1)) = Return ks2 (final (evict "k" w1)) /\
       "k" ∈ ks2) /\
    (exists w3 ks3,
       delete "k" None w1 = Return tt w3 /\
       indexes w3 = Return ks3 w3 /\ "k" ∉ ks3).
Proof.
  apply (indexes_follow_rows integer_world "k" (VNum 1%float)
           (TNum 1%float));
    vm_compute; reflexivity.
Defined.

(** ** Loading the table *)

Lemma load_rows_spec rs : forall w,
  NoDup rs.*1 ->
  exists w',
    load_rows rs w = Return tt w' /\
    (exists ext, heap w' = heap w ++ ext) /\
    same_config (this w) (this w') /\
    db (this w') = db (this w) /\
    (forall k x, (k, x) ∈ rs ->
       exists v, entries (this w') !! k = Some v /\
                 snapshot (heap w') v
                 = Some (deserializer (this w) (eval x) k)) /\
    (forall k, k ∉ rs.*1 -> entries (this w') !! k = entries (this w) !! k).
Proof.
  induction rs as [|[key value] r IH]; intros w Hnd.
  - exists w. split; [reflexivity|].
    split; [exists []; rewrite app_nil_r; reflexivity|].
    split; [apply same_config_refl|]. split; [reflexivity|].
    split; [intros k x H; inversion H|auto].
  - apply NoDup_cons in Hnd as [Hnew Hnd].
    set (t0 := deserializer (this w) (eval value) key).
    set (v0 := (build t0 (heap w)).1).
    set (w2 := log (MapSet key)
                 (set_this (set_entries (<[key := v0]> (entries (this w)))
                              (this w))
                    (set_heap (build t0 (heap w)).2 w))).
    assert (Hrun : forall k : unit -> M unit,
               (v <- _parseData value key ;; super_set key v ;; k tt) w
               = k tt w2).
    { intros k. unfold _parseData, bind, super_set. fold t0.
      unfold v0, w2. destruct (build t0 (heap w)). reflexivity. }
    destruct (IH w2 Hnd) as (w' & Hload & (e2 & Hh) & Hcfg & Hdb & Hin & Hout).
    exists w'. split.
    { cbn [load_rows]. rewrite (Hrun (fun _ => load_rows r)). exact Hload. }
    destruct (build_extends t0 (heap w)) as (e1 & E1).
    split; [exists (e1 ++ e2); rewrite Hh; unfold w2; simpl; rewrite E1,
                    <- app_assoc; reflexivity|].
    split; [exact Hcfg|]. split; [exact Hdb|]. split.
    + intros k x Hk. apply elem_of_cons in Hk as [[= -> ->]|Hk].
      * exists v0. split.
        -- rewrite (Hout key Hnew). unfold w2. simpl. apply lookup_insert_eq.
        -- rewrite Hh. apply snapshot_extend. unfold w2. simpl.
           apply snapshot_build.
      * apply (Hin k x Hk).
    + intros k Hk. simpl in Hk. apply not_elem_of_cons in Hk as [Hne Hk].
      rewrite (Hout k Hk). unfold w2. simpl.
      apply lookup_insert_ne. congruence.
Qed.

(** X24.  [fetchEverything] on a usable persistent map returns and
    loads every row: each key of the table then holds a fresh value with
    the picture the deserializer makes of its row, whatever the cache
    held for it before; the keys without a row keep their entries, and
    the table is left as it was. *)
Theorem fetchEverything_loads w d tb :
  usable w = true ->
  db (this w) = Some d ->
  rows d = Some tb ->
  exists w',
    fetchEverything w = Return tt w' /\
    usable w' = true /\
    (forall k x, tb !! k = Some x ->
       exists v, entries (this w') !! k = Some v /\
                 snapshot (heap w') v
                 = Some (deserializer (this w) (eval x) k)) /\
    (forall k, tb !! k = None ->
       entries (this w') !! k = entries (this w) !! k) /\
    (forall k, row k w' = row k w).
Proof.
  intros Hu Hd Hr. destruct (usable_inv w Hu) as (Hdes & _ & Hdb).
  assert (Ho : is_open d = true).
  { destruct Hdb as [[_ H]|(_ & d' & t' & H & Ho & _)]; congruence. }
  assert (Hrc : _readyCheck w = Return tt w)
    by (unfold_methods; rewrite Hdes; reflexivity).
  destruct (load_rows_spec (map_to_list tb) w (NoDup_fst_map_to_list tb))
    as (w' & Hload & _ & Hcfg & Hdb' & Hin & Hout).
  exists w'. split.
  { unfold fetchEverything. rewrite (bind_run _ _ _ _ _ Hrc).
    rewrite (bind_run _ _ _ _ _ (eq_refl : self w = Return (this w) w)).
    rewrite Hd, Ho, Hr. exact Hload. }
  split; [apply (usable_same w); auto|].
  split; [intros k x Hk; apply Hin, elem_of_map_to_list, Hk|].
  split.
  - intros k Hk. apply Hout. intros Hin'.
    apply list_elem_of_fmap in Hin' as ([k' x] & -> & Hx).
    apply elem_of_map_to_list in Hx. simpl in Hk. congruence.
  - intros k. apply row_same, Hdb'.
Qed.

Lemma fetchEverything_loads_witness :
  exists w',
    fetchEverything unfetching_world = Return tt w' /\
    usable w' = true /\
    exists v, entries (this w') !! "k" = Some v /\
              snapshot (heap w') v = Some (TNum 1%float).
Proof.
  pose (d := from_option id fresh (db (this unfetching_world))).
  pose (tb := from_option id ∅ (rows d)).
  destruct (fetchEverything_loads unfetching_world d tb)
    as (w' & Hrun & Hu & Hin & _); try (vm_compute; reflexivity).
  exists w'. split; [exact Hrun|]. split; [exact Hu|].
  apply (Hin "k" (serialize (TNum 1%float))). vm_compute. reflexivity.
Defined.

(** ** A key that is not there *)

Lemma check_absent w key types path :
  usable w = true ->
  entries (this w) !! key = None ->
  fetched w key = None ->
  _check key types path w = Throw EnhancedMapPathError w.
Proof.
  intros Hu He Hf.
  destruct (fetched_None_absent w key Hu He Hf) as [_ Hhas].
  unfold _check, _check_body.
  rewrite (bind_run _ _ _ _ _ Hhas). reflexivity.
Qed.

(** X25.  On a key that is not there (no entry and nothing to fetch),
    [has] with a path, [includes], [remove], [inc], [dec] and [math]
    throw a [PathError] and leave the world exactly as it was: the
    default, which [get] would have written under the key, is not
    consulted. *)
Theorem absent_key_throws
  (Math_pow remainder : float -> float -> float) w key :
  usable w = true ->
  entries (this w) !! key = None ->
  fetched w key = None ->
  (forall p, has key (Some p) w = Throw EnhancedMapPathError w) /\
  (forall x path, includes' key x path w = Throw EnhancedMapPathError w) /\
  (forall x path, remove key x path w = Throw EnhancedMapPathError w) /\
  (forall path, inc key path w = Throw EnhancedMapPathError w) /\
  (forall path, dec key path w = Throw EnhancedMapPathError w) /\
  (forall op operand path,
     math Math_pow remainder key op operand path w
     = Throw EnhancedMapPathError w).
Proof.
  intros Hu He Hf.
  destruct (fetched_None_absent w key Hu He Hf) as [Hfc _].
  destruct (usable_inv w Hu) as (Hd & _ & _).
  assert (Hrc : _readyCheck w = Return tt w)
    by (unfold_methods; rewrite Hd; reflexivity).
  pose proof (fun types path => check_absent w key types path Hu He Hf) as Hc.
  split; [|split; [|split; [|split; [|split]]]].
  - intros p. unfold has, has_body.
    rewrite (bind_run _ _ _ _ _ Hrc), (bind_run _ _ _ _ _ Hfc).
    apply bind_run_throw, (Hc ["Object"] None).
  - intros x path. unfold includes'.
    rewrite (bind_run _ _ _ _ _ Hrc), (bind_run _ _ _ _ _ Hfc).
    apply bind_run_throw, Hc.
  - intros x path. unfold remove.
    rewrite (bind_run _ _ _ _ _ Hrc), (bind_run _ _ _ _ _ Hfc).
    apply bind_run_throw, Hc.
  - intros path. apply bind_run_throw, Hc.
  - intros path. apply bind_run_throw, Hc.
  - intros op operand path. apply bind_run_throw, Hc.
Qed.

Lemma absent_key_throws_witness :
  inc "missing" None default_world
  = Throw EnhancedMapPathError default_world.
Proof.
  refine (proj1 (proj2 (proj2 (proj2
            (absent_key_throws (fun a _ => a) (fun a _ => a)
               default_world "missing" _ _ _)))) None);
    vm_compute; reflexivity.
Defined.

(** ** What [push] appends *)

Lemma built_fresh ts h :
  Forall (fresh_val (length h)) (thread build ts h).1.
Proof.
  apply (thread_build_closed ts (Forall_true _ _ build_above) (length h) h);
    [lia|].
  intros l o Hl Hlo. apply lookup_lt_Some in Hlo. lia.
Qed.

Lemma indexOf_old es x a n :
  Forall (fresh_val n) es -> x = VRef a -> a < n ->
  indexOf_found es x = false.
Proof.
  intros Hf -> Ha. unfold indexOf_found.
  induction Hf as [|e es He Hes IH]; [reflexivity|]. simpl. rewrite IH.
  destruct e; simpl in *; try reflexivity.
  rewrite orb_false_r. apply Nat.eqb_neq. lia.
Qed.

(** [push(key, x)] when it appends: duplicates are allowed, or [x] is an
    object of the caller. *)
Lemma push_appends_argument w key v x ts tx allowDupes :
  usable w = true ->
  entries (this w) !! key = Some v ->
  snapshot (heap w) v = Some (TArray ts) ->
  snapshot (heap w) x = Some tx ->
  allowDupes = true \/ isObject x = true ->
  exists h es rest,
    push key x None allowDupes w
    = _internalSet key (VRef (length h)) true
        (set_heap (h ++ OArray (es ++ [x]) :: rest) w) /\
    (exists ext, h = heap w ++ ext) /\
    snapshot (h ++ OArray (es ++ [x]) :: rest) (VRef (length h))
    = Some (TArray (ts ++ [tx])).
Proof.
  intros Hu He Hs Hx Hor.
  set (h := (thread build ts (heap w)).2).
  set (es := (thread build ts (heap w)).1).
  destruct (thread_build_array ts (Forall_true _ _ build_spec) (heap w))
    as (seg & E & Ln & R).
  fold h es in E, R.
  destruct (push_heap w ts) as (rest & Eh & Hn). fold h es in Eh, Hn.
  exists h, es, rest. split; [|split].
  - unfold push. rewrite get_None.
    rewrite (bind_run _ _ _ _ _ (get_key_present w key v _ Hu He Hs)).
    rewrite build_array. cbn [fst snd]. fold h es.
    assert (Hs1 : snapshot (heap (set_heap (h ++ [OArray es]) w)) v
                  = Some (TArray ts)).
    { cbn [heap set_heap]. rewrite E, <- app_assoc.
      apply snapshot_extend, Hs. }
    rewrite (bind_run _ _ _ _ _
               (check_key_present (set_heap (h ++ [OArray es]) w) key v _
                  ["Array"] Hu He Hs1 (includes_array ts (h ++ [OArray es])))).
    cbn [heap set_heap]. rewrite Eh.
    unfold elements, bind at 1. cbn [heap set_heap].
    rewrite list_lookup_middle by done.
    assert (Hdup : negb allowDupes && indexOf_found es x = false).
    { destruct Hor as [->|Hobj]; [reflexivity|].
      destruct x as [| | | | |a]; try discriminate.
      rewrite (indexOf_old es (VRef a) a (length (heap w))
                 (built_fresh ts (heap w)) eq_refl);
        [apply andb_false_r|].
      unfold snapshot in Hx. simpl in Hx.
      destruct (heap w !! a) eqn:Ea; [|discriminate].
      eapply lookup_lt_Some, Ea. }
    rewrite Hdup. unfold array_push, bind at 1. cbn [heap set_heap].
    rewrite list_lookup_middle by done.
    rewrite insert_app_r_alt by lia. rewrite Nat.sub_diag. reflexivity.
  - exists seg. exact E.
  - unfold snapshot. simpl. rewrite list_lookup_middle by done. simpl.
    apply fmap_Some. exists (ts ++ [tx]). split; [|done].
    apply mapM_Some. apply Forall2_app.
    + apply R. rewrite length_app. lia.
    + constructor; [|constructor].
      rewrite E, <- app_assoc.
      apply (reify_mono _ _ _ _ Hx). rewrite !length_app. simpl. lia.
Qed.

(** X26.  With [allowDupes] set, [push(key, x)] appends the primitive [x]
    to the array under the key whether or not the array holds it
    already; the other keys read as before. *)
Theorem push_allows_duplicates w key v x ts px :
  sound w = true ->
  entries (this w) !! key = Some v ->
  snapshot (heap w) v = Some (TArray ts) ->
  reify 0 [] x = Some px ->
  exists w',
    push key x None true w = Return tt w' /\
    sound w' = true /\
    reading w' key = Some (TArray (ts ++ [px])) /\
    (forall k, k <> key -> reading w' k = reading w k).
Proof.
  intros Hs He Hv Hx. destruct (sound_inv w Hs) as [Hu Hr].
  destruct (push_appends_argument w key v x ts px true Hu He Hv
              (reify_primitive _ _ Hx _ _) (or_introl eq_refl))
    as (h & es & rest & Hpush & (ext & Hh) & Hpic).
  destruct (internalSet_commits w
              (set_heap (h ++ OArray (es ++ [x]) :: rest) w) key
              (VRef (length h)) _ (ext ++ OArray (es ++ [x]) :: rest)
              Hs ltac:(simpl; rewrite Hh, <- app_assoc; reflexivity)
              eq_refl Hpic)
    as (w' & Hset & Hs' & Hread & Hoth & _).
  exists w'. split; [rewrite Hpush; exact Hset|]. auto.
Qed.

Lemma push_allows_duplicates_witness :
  exists w',
    push "array" (VNum 1%float) None true (world_with "array" array_12)
    = Return tt w' /\
    sound w' = true /\
    reading w' "array"
    = Some (TArray [TNum 1%float; TNum 2%float; TNum 1%float]) /\
    (forall k, k <> "array" ->
       reading w' k = reading (world_with "array" array_12) k).
Proof.
  apply (push_allows_duplicates (world_with "array" array_12) "array"
           (VRef 4) (VNum 1%float) array_elements (TNum 1%float));
    vm_compute; reflexivity.
Defined.

(** X27.  [push(key, x)] of an object of the caller always appends (no
    element of the copy is identical to it), and what the map then
    retains under the key is a fresh array whose last element is [x]
    itself, not a copy of it. *)
Theorem push_retains_object w key v a ts tx allowDupes :
  usable w = true ->
  entries (this w) !! key = Some v ->
  snapshot (heap w) v = Some (TArray ts) ->
  snapshot (heap w) (VRef a) = Some tx ->
  exists w' l es,
    push key (VRef a) None allowDupes w = Return tt w' /\
    entries (this w') !! key = Some (VRef l) /\
    heap w' !! l = Some (OArray (es ++ [VRef a])) /\
    a < length (heap w) <= l /\
    snapshot (heap w') (VRef l) = Some (TArray (ts ++ [tx])).
Proof.
  intros Hu He Hv Hx.
  destruct (push_appends_argument w key v (VRef a) ts tx allowDupes
              Hu He Hv Hx (or_intror eq_refl))
    as (h & es & rest & Hpush & (ext & Hh) & Hpic).
  destruct (internalSet_spec
              (set_heap (h ++ OArray (es ++ [VRef a]) :: rest) w) key
              (VRef (length h)) true _
              (eq_trans (usable_set_heap _ w) Hu) Hpic)
    as (w' & Hset & Hh' & _ & _ & Hent & _).
  cbn [heap set_heap this] in Hh', Hent.
  exists w', (length h), es. split; [rewrite Hpush; exact Hset|].
  split; [rewrite Hent; apply lookup_insert_eq|].
  split; [rewrite Hh'; apply list_lookup_middle; reflexivity|].
  split; [|rewrite Hh'; exact Hpic].
  split; [|rewrite Hh, length_app; lia].
  unfold snapshot in Hx. simpl in Hx.
  destruct (heap w !! a) eqn:Ea; [|discriminate].
  eapply lookup_lt_Some, Ea.
Qed.

Lemma push_retains_object_witness :
  exists w' l es,
    push "array" (VRef 0) None false (world_with "array" array_12)
    = Return tt w' /\
    entries (this w') !! "array" = Some (VRef l) /\
    heap w' !! l = Some (OArray (es ++ [VRef 0])) /\
    0 < length (heap (world_with "array" array_12)) <= l /\
    snapshot (heap w') (VRef l)
    = Some (TArray (array_elements ++ [array_12])).
Proof.
  apply (push_retains_object (world_with "array" array_12) "array"
           (VRef 4) 0 array_elements array_12 false);
    vm_compute; reflexivity.
Defined.

(** ** [fetch] *)

Lemma db_get_row w key :
  usable w = true -> db_get key w = Return (row key w) w.
Proof.
  intros Hu. destruct (usable_inv w Hu) as (_ & _ & Hdb).
  unfold db_get, row, select_row.
  destruct Hdb as [[_ ->]|(_ & d & t & -> & -> & ->)]; reflexivity.
Qed.

(** X28.  [fetch(key)] on a usable map: when the table has a row for
    the key, the entry is replaced by a fresh value made from the row,
    and what is returned is another fresh value with the same picture
    (for an object, not the one that was cached); the other entries and
    the table stay as they were.  Without a row, or without a database,
    it returns [null] and changes nothing. *)
Theorem fetch_refreshes w key :
  usable w = true ->
  match row key w with
  | Some x =>
      let td := deserializer (this w) (eval x) key in
      exists r v w',
        fetch key w = Return r w' /\
        entries (this w') !! key = Some v /\
        snapshot (heap w') v = Some td /\
        snapshot (heap w') r = Some td /\
        (isObject r = true -> r <> v) /\
        (forall k, k <> key ->
           entries (this w') !! k = entries (this w) !! k) /\
        (forall k, row k w' = row k w)
  | None => fetch key w = Return VNull w
  end.
Proof.
  intros Hu. destruct (usable_inv w Hu) as (Hd & _ & _).
  assert (Hrc : _readyCheck w = Return tt w)
    by (unfold_methods; rewrite Hd; reflexivity).
  pose proof (db_get_row w key Hu) as Hget.
  unfold fetch. rewrite (bind_run _ _ _ _ _ Hrc), (bind_run _ _ _ _ _ Hget).
  destruct (row key w) as [x|]; [|reflexivity].
  cbv zeta. set (td := deserializer (this w) (eval x) key).
  set (v := (build td (heap w)).1).
  set (h1 := (build td (heap w)).2).
  set (r := (build td h1).1).
  set (h2 := (build td h1).2).
  exists r, v.
  exists (set_heap h2
            (log (MapSet key)
               (set_this (set_entries (<[key := v]> (entries (this w)))
                            (this w))
                  (set_heap h1 w)))).
  split.
  { unfold _parseData, bind, super_set. fold td. cbn [heap set_heap].
    unfold r, h2, v, h1. destruct (build td (heap w)) as [v0 h0].
    cbn [fst snd heap set_heap log set_this this deserializer set_entries].
    fold td. destruct (build td h0). reflexivity. }
  cbn [heap this set_heap log set_this set_entries entries].
  split; [apply lookup_insert_eq|].
  destruct (build_extends td h1) as (e2 & E2). fold h2 in E2.
  split; [rewrite E2; apply snapshot_extend, snapshot_build|].
  split; [apply snapshot_build|].
  split.
  { intros Hobj Heq.
    pose proof (kept_build h1 (length h1)
                  {| heap := h1; this := this w; trace := trace w |} td) as K.
    destruct K as (_ & _ & F).
    { split; [split; [|apply firstn_all]|].
      - destruct (usable_inv w Hu) as (_ & Hc & _). exact Hc.
      - simpl. split; [lia|]. split; [lia|].
        intros l o Hl Hlo. apply lookup_lt_Some in Hlo. lia. }
    cbn [heap] in F. fold r in F.
    pose proof (snapshot_build td (heap w)) as Hsv. fold v h1 in Hsv.
    rewrite Heq in Hobj, F. destruct v as [| | | | |a]; try discriminate.
    simpl in F. unfold snapshot in Hsv. simpl in Hsv.
    destruct (h1 !! a) eqn:Ea; [|discriminate].
    apply lookup_lt_Some in Ea. lia. }
  split; [intros k Hk; apply lookup_insert_ne; congruence|].
  intros k. reflexivity.
Qed.

Lemma fetch_refreshes_witness :
  exists r v w',
    fetch "k" unfetching_world = Return r w' /\
    entries (this w') !! "k" = Some v /\
    snapshot (heap w') v = Some (TNum 1%float) /\
    snapshot (heap w') r = Some (TNum 1%float) /\
    (isObject r = true -> r <> v) /\
    (forall k, k <> "k" ->
       entries (this w') !! k = entries (this unfetching_world) !! k) /\
    (forall k, row k w' = row k unfetching_world).
Proof.
  apply (fetch_refreshes unfetching_world "k"). vm_compute. reflexivity.
Defined.

(** ** A map without a database *)

Lemma detached_refl w : db (this w) = None -> detached w w.
Proof.
  intros H. split; [exact H|]. exists []. rewrite app_nil_r. auto.
Qed.

Lemma detached_trans w1 w2 w3 :
  detached w1 w2 -> detached w2 w3 -> detached w1 w3.
Proof.
  intros (_ & e1 & T1 & F1) (D & e2 & T2 & F2). split; [exact D|].
  exists (e1 ++ e2). rewrite T2, T1, app_assoc. split; [reflexivity|].
  apply Forall_app; auto.
Qed.

Lemma offline_bind {A B} (m : M A) (k : A -> M B) :
  offline m -> (forall a, offline (k a)) -> offline (bind m k).
Proof.
  intros Hm Hk w Hw. unfold bind. specialize (Hm w Hw).
  destruct (m w) as [a w1|e w1]; [|exact Hm].
  simpl in Hm. eapply detached_trans; [exact Hm|].
  apply Hk, Hm.
Qed.

(** A step that keeps the database field and logs at most events that
    are not statements. *)
Lemma offline_step {A} (m : M A) :
  (forall w, db (this (final (m w))) = db (this w) /\
             exists evs, trace (final (m w)) = trace w ++ evs /\
                         Forall (fun e => is_statement e = false) evs) ->
  offline m.
Proof.
  intros H w Hw. destruct (H w) as (Hd & Hev). split; [congruence|exact Hev].
Qed.

Ltac same_world := intros w; split; [reflexivity|]; exists [];
  rewrite app_nil_r; auto.

Ltac one_event := intros w; split; [reflexivity|]; eexists [_];
  split; [reflexivity|]; repeat constructor.

Lemma offline_ret {A} (a : A) : offline (ret a).
Proof. apply offline_step. same_world. Qed.

Lemma offline_throw {A} e : offline (@throw A e).
Proof. apply offline_step. same_world. Qed.

Lemma offline_when b m : offline m -> offline (when b m).
Proof. destruct b; simpl; auto using offline_ret. Qed.

Lemma offline_self : offline self.
Proof. apply offline_step. same_world. Qed.

Lemma offline_the_heap : offline the_heap.
Proof. apply offline_step. same_world. Qed.

Lemma offline_super_has key : offline (super_has key).
Proof. apply offline_step. same_world. Qed.

Lemma offline_super_get key : offline (super_get key).
Proof. apply offline_step. same_world. Qed.

Lemma offline_super_set key v : offline (super_set key v).
Proof. apply offline_step. one_event. Qed.

Lemma offline_super_delete key : offline (super_delete key).
Proof. apply offline_step. one_event. Qed.

Lemma offline_super_clear : offline super_clear.
Proof. apply offline_step. one_event. Qed.

Lemma offline_call_changedCB key o n : offline (call_changedCB key o n).
Proof. apply offline_step. one_event. Qed.

Lemma offline_db_run st : offline (db_run st).
Proof. intros w Hw. unfold db_run. rewrite Hw. apply detached_refl, Hw. Qed.

Lemma offline_db_run_strict st : offline (db_run_strict st).
Proof.
  intros w Hw. unfold db_run_strict. rewrite Hw. apply detached_refl, Hw.
Qed.

Lemma offline_db_get key : offline (db_get key).
Proof. intros w Hw. unfold db_get. rewrite Hw. apply detached_refl, Hw. Qed.

Lemma offline_db_get_lastnum : offline db_get_lastnum.
Proof.
  intros w Hw. unfold db_get_lastnum. rewrite Hw. apply detached_refl, Hw.
Qed.

Lemma offline_transaction sts : offline (transaction sts).
Proof.
  intros w Hw. unfold transaction. rewrite Hw. apply detached_refl, Hw.
Qed.

Lemma offline_encode v key : offline (encode v key).
Proof.
  apply offline_step. intros w. unfold encode.
  destruct (snapshot _ _); revert w; same_world.
Qed.

Lemma offline_parseData data key : offline (_parseData data key).
Proof.
  apply offline_step. intros w. unfold _parseData.
  destruct (build _ (heap w)). revert w. same_world.
Qed.

Lemma offline_clone v : offline (_clone v).
Proof.
  apply offline_step. intros w. unfold _clone.
  destruct (String.eqb _ "none"); [revert w; same_world|].
  destruct (String.eqb _ "shallow").
  { destruct (clone (heap w) v). revert w. same_world. }
  destruct (String.eqb _ "deep"); [|revert w; same_world].
  destruct (cloneDeep (heap w) v) as [[? ?]|]; revert w; same_world.
Qed.

Lemma offline_elements v : offline (elements v).
Proof.
  apply offline_step. intros w. unfold elements. destruct v; try (revert w; same_world).
  destruct (heap w !! l) as [[|]|]; revert w; same_world.
Qed.

Lemma offline_array_push v x : offline (array_push v x).
Proof.
  apply offline_step. intros w. unfold array_push.
  destruct v; try (revert w; same_world).
  destruct (heap w !! l) as [[|]|]; revert w; same_world.
Qed.

Lemma offline_lodash_set v p x : offline (lodash_set v p x).
Proof. apply offline_step. same_world. Qed.

Lemma offline_new_object : offline new_object.
Proof. apply offline_step. same_world. Qed.

Lemma offline_resolve x : offline (resolve x).
Proof.
  unfold resolve. destruct (scope_lookup _ _);
    auto using offline_ret, offline_throw.
Qed.

Lemma offline_step_number f v : offline (step f v).
Proof. destruct v; simpl; auto using offline_ret, offline_throw. Qed.

Lemma offline_mathop pw rm base op opand :
  offline (_mathop pw rm base op opand).
Proof.
  unfold _mathop. destruct (isNil base); [apply offline_throw|].
  destruct base; auto using offline_ret, offline_throw.
Qed.

Lemma offline_toString v : offline (toString v).
Proof.
  destruct v; simpl; auto using offline_ret, offline_throw.
  destruct (PrimFloat.is_nan _); auto using offline_ret, offline_throw.
Qed.

Create HintDb offline.
#[local] Hint Resolve offline_ret offline_throw offline_self offline_the_heap
  offline_super_has offline_super_get offline_super_set offline_super_delete
  offline_super_clear offline_call_changedCB offline_db_run
  offline_db_run_strict offline_db_get offline_db_get_lastnum
  offline_transaction offline_encode offline_parseData offline_clone
  offline_elements offline_array_push offline_lodash_set offline_new_object
  offline_resolve offline_step_number offline_mathop offline_toString
  : offline.

Ltac offline_steps :=
  repeat first
    [ apply offline_bind; [|intros ?]
    | apply offline_when
    | match goal with
      | |- offline (if ?b then _ else _) => destruct b
      | |- offline (match ?o with Some _ => _ | None => _ end) => destruct o
      | |- offline (match ?l with [] => _ | _ :: _ => _ end) => destruct l
      end
    | solve [auto with offline] ].

Lemma offline_readyCheck : offline _readyCheck.
Proof. unfold _readyCheck. offline_steps. Qed.

Lemma offline_internalSet key v b : offline (_internalSet key v b).
Proof. unfold _internalSet. offline_steps. Qed.

Lemma offline_fetch key : offline (fetch key).
Proof. unfold fetch. offline_steps. Qed.

Lemma offline_fetchCheck key : offline (_fetchCheck key).
Proof. unfold _fetchCheck. offline_steps. Qed.

Lemma offline_has_key key : offline (has_key key).
Proof. unfold has_key, has_body. offline_steps. Qed.

Lemma offline_get_body c key path :
  offline c -> offline (get_body c key path).
Proof. intros Hc. unfold get_body. offline_steps; auto. Qed.

Lemma offline_get_key key : offline (get_key key).
Proof. apply offline_get_body, offline_ret. Qed.

Lemma offline_check_body c key types path :
  offline c -> offline (_check_body c key types path).
Proof.
  intros Hc. unfold _check_body.
  apply offline_bind; [apply offline_has_key|]. intros present.
  destruct (negb present); [apply offline_throw|].
  destruct path as [p|].
  - apply offline_bind; [exact Hc|]. intros _.
    apply offline_bind; [apply offline_get_key|]. intros data.
    apply offline_bind; [auto with offline|]. intros h.
    destruct (isNil _); [apply offline_throw|].
    destruct (negb _); auto with offline.
  - apply offline_bind; [apply offline_get_key|]. intros data.
    apply offline_bind; [auto with offline|]. intros h.
    destruct (negb _); auto with offline.
Qed.

Lemma offline_check_key key types : offline (_check_key key types).
Proof. apply offline_check_body, offline_ret. Qed.

Lemma offline_check key types path : offline (_check key types path).
Proof. apply offline_check_body, offline_check_key. Qed.

Lemma offline_get key path : offline (get key path).
Proof. apply offline_get_body, offline_check_key. Qed.

Lemma offline_has key path : offline (has key path).
Proof.
  unfold has, has_body.
  apply offline_bind; [apply offline_readyCheck|]. intros _.
  apply offline_bind; [apply offline_fetchCheck|]. intros _.
  destruct path as [p|]; [|auto with offline].
  apply offline_bind; [apply offline_check_key|]. intros _.
  apply offline_bind; [apply offline_get_key|]. intros data.
  apply offline_bind; auto with offline.
Qed.

Lemma offline_set key value path : offline (set key value path).
Proof.
  unfold set.
  apply offline_bind; [apply offline_get_key|]. intros data.
  apply offline_bind; [auto with offline|]. intros present.
  apply offline_bind; [destruct present; auto with offline|]. intros old.
  apply offline_bind.
  { destruct path as [p|]; [|auto with offline].
    apply offline_bind; [destruct (isNil data); auto with offline|].
    intros d. apply offline_bind; auto with offline. }
  intros d. apply offline_bind; [auto with offline|]. intros m.
  apply offline_bind; [apply offline_when; auto with offline|]. intros _.
  apply offline_bind; [apply offline_internalSet|]. intros _.
  apply offline_bind; auto with offline.
Qed.

Lemma offline_push key x path allowDupes :
  offline (push key x path allowDupes).
Proof.
  unfold push.
  apply offline_bind; [apply offline_get_key|]. intros data.
  apply offline_bind; [apply offline_check|]. intros _.
  destruct path as [p|].
  - apply offline_bind; [auto with offline|]. intros h.
    apply offline_bind; [auto with offline|]. intros es.
    destruct (_ && _); [auto with offline|].
    apply offline_bind; [auto with offline|]. intros _.
    apply offline_bind; [auto with offline|]. intros _.
    apply offline_internalSet.
  - apply offline_bind; [auto with offline|]. intros es.
    destruct (_ && _); [auto with offline|].
    apply offline_bind; [auto with offline|]. intros _.
    apply offline_internalSet.
Qed.

Lemma offline_inc_dec f key path : offline (inc_dec f key path).
Proof.
  unfold inc_dec. apply offline_bind; [apply offline_check|]. intros _.
  destruct path as [p|].
  - apply offline_bind; [apply offline_get_key|]. intros data.
    apply offline_bind; [auto with offline|]. intros h.
    apply offline_bind; [auto with offline|]. intros v.
    apply offline_bind; [auto with offline|]. intros _.
    apply offline_internalSet.
  - apply offline_bind; [apply offline_get_key|]. intros v.
    apply offline_bind; [auto with offline|]. intros v'.
    apply offline_internalSet.
Qed.

Lemma offline_math pw rm key op operand path :
  offline (math pw rm key op operand path).
Proof.
  unfold math. apply offline_bind; [apply offline_check|]. intros _.
  apply offline_bind; [apply offline_get|]. intros data.
  apply offline_bind; [auto with offline|]. intros result.
  apply offline_set.
Qed.

Lemma offline_delete key path : offline (delete key path).
Proof.
  unfold delete. apply offline_bind; [apply offline_readyCheck|]. intros _.
  apply offline_bind; [apply offline_fetchCheck|]. intros _.
  apply offline_bind; [apply offline_get_key|]. intros oldValue.
  destruct path as [p|].
  - apply offline_bind; [apply offline_get_key|]. intros data.
    apply offline_bind; [auto with offline|]. intros h.
    rewrite resolve_isArray.
    intros w Hw. apply detached_refl, Hw.
  - apply offline_bind; [auto with offline|]. intros _.
    apply offline_bind; [auto with offline|]. intros m.
    destruct (persistent m); [auto with offline|].
    apply offline_when. auto with offline.
Qed.

Lemma offline_deleteAll : offline deleteAll.
Proof.
  unfold deleteAll. apply offline_bind; [apply offline_readyCheck|].
  intros _. apply offline_bind; [auto with offline|]. intros m.
  apply offline_bind; [apply offline_when; auto with offline|]. intros _.
  auto with offline.
Qed.

Lemma offline_destroy : offline destroy.
Proof.
  unfold destroy. apply offline_bind; [apply offline_deleteAll|]. intros _.
  apply offline_bind; [apply offline_step; same_world|]. intros _.
  apply offline_bind; auto with offline.
Qed.

Lemma offline_close : offline close.
Proof.
  unfold close.
  change (_readyCheck;; _)
    with (bind _readyCheck (fun _ : unit => fun w0 =>
            Return tt (set_this (set_db (option_map Sqlite.close (db (this w0)))
                                   (this w0)) w0))).
  apply offline_bind; [apply offline_readyCheck|].
  intros _ w Hw. split; [simpl; rewrite Hw; reflexivity|].
  exists []. rewrite app_nil_r. auto.
Qed.

Lemma offline_autonum : offline autonum.
Proof.
  unfold autonum. apply offline_bind; [auto with offline|]. intros r.
  apply offline_bind; [auto with offline|]. intros m.
  apply offline_bind; auto with offline.
Qed.

Lemma offline_fetchEverything : offline fetchEverything.
Proof.
  unfold fetchEverything.
  apply offline_bind; [apply offline_readyCheck|]. intros _.
  intros w Hw. unfold bind, self. rewrite Hw. apply detached_refl, Hw.
Qed.

Lemma offline_changed : offline changed.
Proof. apply offline_step. same_world. Qed.

Lemma offline_perform pw rm c w :
  db (this w) = None -> detached w (perform pw rm c w).
Proof.
  intros Hw. destruct c; unfold perform.
  - apply offline_get, Hw.
  - apply offline_has, Hw.
  - apply offline_set, Hw.
  - apply offline_push, Hw.
  - apply offline_math, Hw.
  - apply offline_inc_dec, Hw.
  - apply offline_inc_dec, Hw.
  - apply offline_delete, Hw.
  - apply offline_fetch, Hw.
  - apply offline_fetchEverything, Hw.
  - apply (offline_super_delete key), Hw.
  - apply offline_deleteAll, Hw.
  - apply offline_changed, Hw.
  - apply offline_close, Hw.
  - apply offline_destroy, Hw.
  - apply offline_autonum, Hw.
Qed.

(** X29.  A map that has no database (as the constructor leaves a map
    without a name) never gets one and never runs a statement: whatever
    calls of its methods are made one after the other, returning or
    throwing, the map still has no database afterwards and the events it
    has added to the trace are writes to the map and calls of the change
    callback only. *)
Theorem without_database_no_statement
  (Math_pow remainder : float -> float -> float) cs : forall w,
  db (this w) = None ->
  db (this (perform_all Math_pow remainder cs w)) = None /\
  exists evs,
    trace (perform_all Math_pow remainder cs w) = trace w ++ evs /\
    Forall (fun e => is_statement e = false) evs.
Proof.
  induction cs as [|c r IH]; intros w Hw.
  - apply detached_refl, Hw.
  - pose proof (offline_perform Math_pow remainder c w Hw) as H1.
    apply (detached_trans w (perform Math_pow remainder c w)); [exact H1|].
    apply IH, H1.
Qed.

Lemma without_database_no_statement_witness :
  db (this (perform_all (fun a _ => a) (fun a _ => a)
              [CallSet "k" (VNum 1%float) None; CallInc "k" None;
               CallDelete "k" None; CallDestroy]
              plain_world)) = None /\
  exists evs,
    trace (perform_all (fun a _ => a) (fun a _ => a)
             [CallSet "k" (VNum 1%float) None; CallInc "k" None;
              CallDelete "k" None; CallDestroy]
             plain_world)
    = trace plain_world ++ evs /\
    Forall (fun e => is_statement e = false) evs.
Proof.
  apply (without_database_no_statement (fun a _ => a) (fun a _ => a)).
  vm_compute. reflexivity.
Defined.

(** ** The name of the table *)

Lemma sanitize_name_char c : is_name_char (sanitize c) = true.
Proof.
  destruct c as [[] [] [] [] [] [] [] []]; vm_compute; reflexivity.
Qed.

Lemma sanitize_fixed c : is_name_char c = true -> sanitize c = c.
Proof.
  destruct c as [[] [] [] [] [] [] [] []]; vm_compute; congruence.
Qed.

(** X30.  The name [_validateName] leaves is made of lower-case letters,
    digits and underscores only, whatever the name was; a name made of
    these is left as it is, so validating twice changes nothing more. *)
Theorem validateName_is_safe n :
  Forall (fun c => is_name_char c = true)
    (list_ascii_of_string (_validateName n)) /\
  (Forall (fun c => is_name_char c = true) (list_ascii_of_string n) ->
   _validateName n = n) /\
  _validateName (_validateName n) = _validateName n.
Proof.
  assert (H1 : forall s, Forall (fun c => is_name_char c = true)
                           (list_ascii_of_string (_validateName s))).
  { induction s as [|c r IH]; simpl; constructor;
      [apply sanitize_name_char|exact IH]. }
  assert (H2 : forall s, Forall (fun c => is_name_char c = true)
                           (list_ascii_of_string s) ->
                         _validateName s = s).
  { induction s as [|c r IH]; simpl; [reflexivity|].
    intros H. apply Forall_cons in H as [Hc Hr].
    rewrite (sanitize_fixed c Hc), (IH Hr). reflexivity. }
  split; [apply H1|]. split; [apply H2|]. apply H2, H1.
Qed.
